(** * giffusion: keyframe scheduling, batching and argument assembly

    A shallow embedding of [flows/flow_byop.py], [flows/flow_giffusion.py]
    and the driver of [generate.py].

    Conventions of the embedding.
    - Frame indices are [nat] (the keyframe parser only produces non-negative
      indices); every other Python integer is a [Z].
    - The floats of the schedules and of the audio are modelled by exact
      rationals ([Q]); their rounding is not modelled, and one that is NaN or
      infinite is the single value [NonFin].  The sample offsets
      [int((frame / fps) * sr)] are computed in binary64, as Python computes
      them, since truncation makes one unit in the last place an offset of one
      sample.
    - A tensor is the list of its slices along dimension 0, so that
      [torch.cat(ts, dim=0)] is list concatenation.
    - A Python [dict] is a [gmap]; a Python exception is the [Raise] outcome
      of the [result] type.
    - The collaborators that live outside these files (the random module,
      torch generators, librosa, slerp, the text encoder, the denoising
      model) are parameters of the sections that use them. *)

From Stdlib Require Import ZArith QArith Qround Lia Lqa SpecFloat.
From stdpp Require Import gmap strings list sorting.

Local Open Scope Z_scope.
#[local] Set Warnings "-clear-no-such-hyp".

(** ** Python values and control *)

Module Py.

(** The exceptions the two flows can raise, by themselves or through numpy,
    pandas and the external collaborators. *)
Inductive exn : Type :=
| KeyError (key : nat)
| IndexError
| ValueError
| ZeroDivisionError
| OverflowError
| TypeError
| ExternalError (code : nat).

Inductive result (A : Type) : Type :=
| Ok (a : A)
| Raise (e : exn).
Global Arguments Ok {A} a.
Global Arguments Raise {A} e.

Definition bind {A B} (m : result A) (k : A → result B) : result B :=
  match m with
  | Ok a => k a
  | Raise e => Raise e
  end.

(** A Python [float] is an IEEE 754 binary64 number: 53 bits of precision,
    exponents below 1024, every operation rounded to nearest, ties to even. *)
Definition prec : Z := 53.
Definition emax : Z := 1024.

(** The integer [x], held exactly: the mantissa [abs(x)] at exponent 0. *)
Definition exact (x : Z) : spec_float :=
  match x with
  | Z0 => S754_zero false
  | Zpos m => S754_finite false m 0
  | Zneg m => S754_finite true m 0
  end.

(** [x / y] on two integers: the quotient of the two integers, rounded once;
    [ZeroDivisionError] on [y = 0], [OverflowError] when the quotient is
    beyond the largest float. *)
Definition truediv (x y : Z) : result spec_float :=
  if decide (y = 0) then Raise ZeroDivisionError
  else
    match SFdiv prec emax (exact x) (exact y) with
    | S754_infinity _ => Raise OverflowError
    | q => Ok q
    end.

(** The conversion of the integer operand of a mixed operation:
    [OverflowError] when it is beyond the largest float. *)
Definition float_of_int (x : Z) : result spec_float :=
  match binary_normalize prec emax x 0 false with
  | S754_infinity _ => Raise OverflowError
  | f => Ok f
  end.

(** [x * y] on a float and an integer. *)
Definition mul_int (x : spec_float) (y : Z) : result spec_float :=
  match float_of_int y with
  | Ok y => Ok (SFmul prec emax x y)
  | Raise e => Raise e
  end.

(** [int(x)] on a float: truncation towards zero; [OverflowError] on an
    infinity, [ValueError] on NaN. *)
Definition int (x : spec_float) : result Z :=
  match x with
  | S754_zero _ => Ok 0
  | S754_finite s m e =>
      let v := if decide (0 ≤ e) then Z.shiftl (Z.pos m) e
               else Z.shiftr (Z.pos m) (- e) in
      Ok (if s then - v else v)
  | S754_infinity _ => Raise OverflowError
  | S754_nan => Raise ValueError
  end.

(** Index normalisation of a slice bound: negative bounds count from the
    end, and every bound is clamped to [0, len]. *)
Definition slice_bound (len i : Z) : nat :=
  Z.to_nat (if decide (i < 0) then Z.max (i + len) 0 else Z.min i len).

(** [l[a:b]] *)
Definition slice {A} (l : list A) (a b : Z) : list A :=
  let len := Z.of_nat (length l) in
  let a' := slice_bound len a in
  let b' := slice_bound len b in
  take (b' - a')%nat (drop a' l).

(** [enumerate(l)] *)
Definition enumerate {A} (l : list A) : list (nat * A) :=
  zip (seq 0 (length l)) l.

(** [range(n)] *)
Definition range (n : nat) : list nat := seq 0 n.

(** [x // y] on two integers. *)
Definition floordiv (x y : Z) : result Z :=
  if decide (y = 0) then Raise ZeroDivisionError else Ok (x `div` y).

(** [l[i]] for a non-negative index. *)
Definition index {A} (l : list A) (i : nat) : result A :=
  match l !! i with
  | Some x => Ok x
  | None => Raise IndexError
  end.

(** [d[k]] on a dict keyed by frame index. *)
Definition getitem {A} (d : gmap nat A) (k : nat) : result A :=
  match d !! k with
  | Some x => Ok x
  | None => Raise (KeyError k)
  end.

(** [d.update(e)]: the entries of [e] win. *)
Definition update {A} (d e : gmap string A) : gmap string A := e ∪ d.

(** [if c: d.update(e)] *)
Definition update_if {A} (c : bool) (d e : gmap string A) : gmap string A :=
  if c then update d e else d.

End Py.

Import Py.

Notation "'let?' x := m 'in' k" := (Py.bind m (λ x, k))
  (at level 10, x pattern, m at level 200, k at level 200, only parsing).

(** ** Floats and the numpy functions the flows call *)

Module Np.

Inductive float : Type :=
| Fin (q : Q)
| NonFin.

(** [np.linspace(start, stop, num)] with the default [endpoint=True]: the
    points [i * step + start], the last one overwritten by [stop] when
    there are at least two; a single point is [start]; a negative [num]
    raises [ValueError]. *)
Definition linspace (start stop : Q) (num : Z) : result (list Q) :=
  if decide (num < 0) then Raise ValueError
  else
    let n := Z.to_nat num in
    let delta := (stop - start)%Q in
    let step := (delta / inject_Z (num - 1))%Q in
    match n with
    | O => Ok []
    | S O => Ok [(0 * delta + start)%Q]
    | S m =>
        Ok (map (λ i : nat, (inject_Z (Z.of_nat i) * step + start)%Q) (seq 0 m)
              ++ [stop])
    end.

(** [np.cumsum(l)] *)
Fixpoint cumsum_from (acc : Q) (l : list Q) : list Q :=
  match l with
  | [] => []
  | x :: l' => (acc + x)%Q :: cumsum_from (acc + x)%Q l'
  end.

Definition cumsum (l : list Q) : list Q :=
  match l with
  | [] => []
  | x :: l' => x :: cumsum_from x l'
  end.

(** [np.interp(x, xp, fp)] at one point, for increasing sample points:
    [fp[0]] to the left of the first sample point, [fp[-1]] from the last
    one on, and the chord through the two neighbouring samples between. *)
Fixpoint interp_from (x x0 y0 : Q) (pts : list (Q * Q)) : Q :=
  match pts with
  | [] => y0
  | (x1, y1) :: pts' =>
      if Qlt_le_dec x x1
      then ((y1 - y0) / (x1 - x0) * (x - x0) + y0)%Q
      else interp_from x x1 y1 pts'
  end.

Definition interp1 (x : Q) (pts : list (Q * Q)) : Q :=
  match pts with
  | [] => 0%Q
  | (x0, y0) :: pts' =>
      if Qlt_le_dec x x0 then y0 else interp_from x x0 y0 pts'
  end.

(** [np.interp(xs, xp, fp)]: [ValueError] on an empty or mismatched table. *)
Definition interp (xs xp fp : list Q) : result (list Q) :=
  if decide (length xp = 0%nat ∨ length xp ≠ length fp) then Raise ValueError
  else Ok (map (λ x, interp1 x (zip xp fp)) xs).

End Np.

Import Np.

(** ** Values

    What a pipeline keyword argument, a timeline entry or a decoded JSON
    value can be.  [VGenerator] is a reference to the flow's own
    [torch.Generator], whose state lives in the [world];
    [VNewGenerator g] is a generator object of its own, in state [g]. *)

Section Values.

Context {row gen : Type}.

Definition tensor : Type := list row.

#[warnings="-register-all"]
Inductive value : Type :=
| VNone
| VNaN
| VBool (b : bool)
| VInt (z : Z)
| VFloat (q : Q)
| VStr (s : string)
| VTensor (t : tensor)
| VGenerator
| VNewGenerator (g : gen)
| VList (l : list value).

(** [torch.cat(ts, dim=0)] on a list of timeline entries. *)
Fixpoint cat (ts : list value) : result tensor :=
  match ts with
  | [] => Ok []
  | VTensor t :: ts' => let? r := cat ts' in Ok (t ++ r)
  | _ :: _ => Raise TypeError
  end.

End Values.

Global Arguments tensor : clear implicits.
Global Arguments value : clear implicits.

(** ** The state the flows mutate

    A flow owns one [torch.Generator]; the [random] module keeps one
    process-wide state.  Two ghost logs record what leaves the flow:
    [audio_slices] the bounds of every slice taken from the audio array,
    [pipe_calls] the keyword arguments of every model invocation together
    with the state the flow's generator is in when the call is made. *)

Section World.

Context {row gen rng : Type}.

Record world : Type := World {
  generator : gen;
  random_state : rng;
  audio_slices : list (Z * Z);
  pipe_calls : list (gmap string (value row gen) * gen)
}.

Definition M (A : Type) : Type := world → result A * world.

Definition ret {A} (a : A) : M A := λ w, (Ok a, w).

Definition raise {A} (e : exn) : M A := λ w, (Raise e, w).

Definition bindM {A B} (m : M A) (k : A → M B) : M B :=
  λ w, match m w with
       | (Ok a, w') => k a w'
       | (Raise e, w') => (Raise e, w')
       end.

Definition lift {A} (r : result A) : M A := λ w, (r, w).

Definition set_generator (g : gen) : M unit :=
  λ w, (Ok (), World g (random_state w) (audio_slices w) (pipe_calls w)).

Definition set_random_state (r : rng) : M unit :=
  λ w, (Ok (), World (generator w) r (audio_slices w) (pipe_calls w)).

Definition log_audio_slice (a b : Z) : M unit :=
  λ w, (Ok (), World (generator w) (random_state w)
                 (audio_slices w ++ [(a, b)]) (pipe_calls w)).

Definition log_pipe_call (kwargs : gmap string (value row gen)) : M unit :=
  λ w, (Ok (), World (generator w) (random_state w) (audio_slices w)
                 (pipe_calls w ++ [(kwargs, generator w)])).

(** A draw from the flow's generator. *)
Definition draw {A} (f : gen → A * gen) : M A :=
  λ w, let '(a, g) := f (generator w) in
       (Ok a, World g (random_state w) (audio_slices w) (pipe_calls w)).

(** A draw from the [random] module. *)
Definition draw_random {A} (f : rng → A * rng) : M A :=
  λ w, let '(a, r) := f (random_state w) in
       (Ok a, World (generator w) r (audio_slices w) (pipe_calls w)).

(** [[f(x) for x in l]] *)
Fixpoint mapM {A B} (f : A → M B) (l : list A) : M (list B) :=
  match l with
  | [] => ret []
  | x :: l' =>
      bindM (f x) (λ y, bindM (mapM f l') (λ ys, ret (y :: ys)))
  end.

End World.

Global Arguments world : clear implicits.
Global Arguments M : clear implicits.

Notation "'let*' x := m 'in' k" := (bindM m (λ x, k))
  (at level 10, x pattern, m at level 200, k at level 200, only parsing).

(** ** [flows/flow_byop.py] *)

Module BYOP.

(** *** The interpolation scheduler *)

Section Scheduler.

Context {row gen rng : Type}.

(** [librosa.onset.onset_strength(audio_slice, sr=sr)] and
    [librosa.util.normalize]: external; either may raise. *)
Variable onset_strength : list Q → Z → result (list Q).
Variable normalize : list Q → result (list Q).

(** [schedule_y[-1]] *)
Definition last_item (l : list Q) : result Q :=
  match last l with
  | Some y => Ok y
  | None => Raise IndexError
  end.

(** [int((frame / fps) * sr)]: the frame and the rate are integers, the
    sample rate is the integer librosa returns. *)
Definition frame_to_sample (frame : nat) (fps sr : Z) : result Z :=
  let? t := truediv (Z.of_nat frame) fps in
  let? t := mul_int t sr in
  int t.

Definition get_interpolation_schedule_from_audio
    (start_frame end_frame : nat) (fps : Z) (audio_array : list Q) (sr : Z)
    : M row gen rng (list float) :=
  let num_frames := Z.of_nat end_frame - Z.of_nat start_frame + 1 in
  let* start_sample := lift (frame_to_sample start_frame fps sr) in
  let* end_sample := lift (frame_to_sample end_frame fps sr) in
  let* _ := log_audio_slice start_sample end_sample in
  let audio_slice := slice audio_array start_sample end_sample in
  let* onset_env := lift (onset_strength audio_slice sr) in
  let* onset_env := lift (normalize onset_env) in
  let len := inject_Z (Z.of_nat (length onset_env)) in
  let* schedule_x := lift (linspace 0 len (Z.of_nat (length onset_env))) in
  let schedule_y := cumsum onset_env in
  let* total := lift (last_item schedule_y) in
  let* resized_schedule := lift (linspace 0 len num_frames) in
  if Qeq_bool total 0
  then
    (* division by a zero total: every entry of [schedule_y], and so every
       interpolated value, is NaN or infinite *)
    ret (map (λ _, NonFin) resized_schedule)
  else
    let schedule_y := map (λ y, (y / total)%Q) schedule_y in
    let* interp_schedule := lift (interp resized_schedule schedule_x schedule_y) in
    ret (map Fin interp_schedule).

(** The pair [(audio_array, sr)] is [(None, None)] or the decoded audio
    with its sample rate: one [option]. *)
Definition get_interpolation_schedule
    (start_frame end_frame : nat) (fps : Z) (audio : option (list Q * Z))
    : M row gen rng (list float) :=
  match audio with
  | Some (audio_array, sr) =>
      get_interpolation_schedule_from_audio start_frame end_frame fps audio_array sr
  | None =>
      let num_frames := Z.of_nat end_frame - Z.of_nat start_frame + 1 in
      let* ts := lift (linspace 0 1 num_frames) in
      ret (map Fin ts)
  end.

End Scheduler.

Section Flow.

Context {row gen rng : Type}.

Local Abbreviation tensor := (tensor row).
Local Abbreviation value := (value row gen).
Local Abbreviation M := (M row gen rng).

(** *** Collaborators *)

(** [random.seed(a)] puts the module in a state that depends on [a] only;
    [random.randint(a, b)] draws from the current state. *)
Variable random_seed : Z → rng.
Variable random_randint : Z → Z → rng → Z * rng.

(** [g.manual_seed(s)] puts the generator in a state that depends on [s]
    only; [torch.randn(shape, generator=g)] draws from it.  Both are taken
    where torch defines them: a seed of 64 bits, as [random.randint(0,
    2**64 - 1)] draws it, and a shape without negative dimension. *)
Variable manual_seed : Z → gen.
Variable randn : list Z → gen → tensor * gen.

(** [utils.slerp], [BaseFlow.prompt_to_embedding], librosa, and the model. *)
Variable slerp : float → tensor → tensor → tensor.
Variable prompt_to_embedding : string → tensor.
Variable onset_strength : list Q → Z → result (list Q).
Variable normalize : list Q → result (list Q).
Variable pipe : gmap string value → gen → result tensor * gen.

(** *** The flow object *)

(** A video input, as [__init__] reads it: the frames that
    [load_video_frames(video_input)] decodes from the file, and the height
    and width that [self.frames[0].size()] gives for the first of them.  A
    file that cannot be decoded, or holds no frame, ends the constructor at
    that point. *)
Record video : Type := Video {
  video_frames : list row;
  video_height : Z;
  video_width : Z
}.

Record BYOPFlow : Type := {
  batch_size : Z;
  pipe_signature : gset string;
  negative_prompts : string;
  use_fixed_latent : bool;
  use_prompt_embeds : bool;
  num_latent_channels : Z;
  vae_scale_factor : Z;
  additional_pipeline_argumenets : gmap string value;
  guidance_scale : Q;
  num_inference_steps : Z;
  strength : Q;
  seed : Z;
  fps : Z;
  image_input : option value;
  video_input : option video;
  frames : option (list row);
  height : Z;
  width : Z;
  audio : option (list Q * Z);
  max_frames : nat;
  seed_schedule : list Z;
  init_latents : gmap nat tensor;
  prompts : gmap nat value
}.

Definition with_schedule (self : BYOPFlow) (n : nat) (s : list Z) : BYOPFlow :=
  {| batch_size := batch_size self; pipe_signature := pipe_signature self;
     negative_prompts := negative_prompts self;
     use_fixed_latent := use_fixed_latent self;
     use_prompt_embeds := use_prompt_embeds self;
     num_latent_channels := num_latent_channels self;
     vae_scale_factor := vae_scale_factor self;
     additional_pipeline_argumenets := additional_pipeline_argumenets self;
     guidance_scale := guidance_scale self;
     num_inference_steps := num_inference_steps self;
     strength := strength self; seed := seed self; fps := fps self;
     image_input := image_input self; video_input := video_input self;
     frames := frames self; height := height self; width := width self;
     audio := audio self;
     max_frames := n; seed_schedule := s;
     init_latents := init_latents self; prompts := prompts self |}.

Definition with_timelines (self : BYOPFlow)
    (latents : gmap nat tensor) (ps : gmap nat value) : BYOPFlow :=
  {| batch_size := batch_size self; pipe_signature := pipe_signature self;
     negative_prompts := negative_prompts self;
     use_fixed_latent := use_fixed_latent self;
     use_prompt_embeds := use_prompt_embeds self;
     num_latent_channels := num_latent_channels self;
     vae_scale_factor := vae_scale_factor self;
     additional_pipeline_argumenets := additional_pipeline_argumenets self;
     guidance_scale := guidance_scale self;
     num_inference_steps := num_inference_steps self;
     strength := strength self; seed := seed self; fps := fps self;
     image_input := image_input self; video_input := video_input self;
     frames := frames self; height := height self; width := width self;
     audio := audio self;
     max_frames := max_frames self; seed_schedule := seed_schedule self;
     init_latents := latents; prompts := ps |}.

(** [self.frames = frames; self.height, self.width = height, width] *)
Definition with_frames (self : BYOPFlow) (fs : option (list row)) (h w : Z) : BYOPFlow :=
  {| batch_size := batch_size self; pipe_signature := pipe_signature self;
     negative_prompts := negative_prompts self;
     use_fixed_latent := use_fixed_latent self;
     use_prompt_embeds := use_prompt_embeds self;
     num_latent_channels := num_latent_channels self;
     vae_scale_factor := vae_scale_factor self;
     additional_pipeline_argumenets := additional_pipeline_argumenets self;
     guidance_scale := guidance_scale self;
     num_inference_steps := num_inference_steps self;
     strength := strength self; seed := seed self; fps := fps self;
     image_input := image_input self; video_input := video_input self;
     frames := fs; height := h; width := w;
     audio := audio self;
     max_frames := max_frames self; seed_schedule := seed_schedule self;
     init_latents := init_latents self; prompts := prompts self |}.

Definition check_inputs (image_input : option value) (video_input : option video)
    : result unit :=
  match image_input, video_input with
  | Some _, Some _ => Raise ValueError
  | _, _ => Ok ()
  end.

(** [last_frame, _ = max(key_frames, key=lambda x: x[0]); last_frame + 1] *)
Definition frame_count (key_frames : list (nat * string)) : result nat :=
  match key_frames with
  | [] => Raise ValueError
  | _ :: _ => Ok (max_list (key_frames.*1) + 1)%nat
  end.

(** [random.seed(seed); [random.randint(0, 2**64 - 1) for i in range(max_frames)]] *)
Definition make_seed_schedule (seed : Z) (max_frames : nat) : M (list Z) :=
  let* _ := set_random_state (random_seed seed) in
  mapM (λ _ : nat, draw_random (random_randint 0 18446744073709551615))
       (range max_frames).

(** [torch.randn((1, C, height // f, width // f), generator=generator.manual_seed(s))]:
    the shape is evaluated before the seed expression [s]. *)
Definition sample_latent (self : BYOPFlow) (s : result Z) : M tensor :=
  let* h := lift (floordiv (height self) (vae_scale_factor self)) in
  let* w := lift (floordiv (width self) (vae_scale_factor self)) in
  let* s := lift s in
  let* _ := set_generator (manual_seed s) in
  draw (randn [1; num_latent_channels self; h; w]).

(** [for i, t in enumerate(interp_schedule): output[i + start_frame] = f(t)] *)
Definition fill {A} (f : float → A) (start_frame : nat)
    (interp_schedule : list float) (output : gmap nat A) : gmap nat A :=
  foldl (λ out '(i, t), <[(i + start_frame)%nat := f t]> out)
        output (enumerate interp_schedule).

Fixpoint prompt_embeddings_loop (self : BYOPFlow)
    (pairs : list ((nat * string) * (nat * string)))
    (output : gmap nat value) : M (gmap nat value) :=
  match pairs with
  | [] => ret output
  | ((start_frame, start_prompt), (end_frame, end_prompt)) :: pairs' =>
      let start_prompt_embed := prompt_to_embedding start_prompt in
      let end_prompt_embed := prompt_to_embedding end_prompt in
      let* interp_schedule :=
        get_interpolation_schedule onset_strength normalize
          start_frame end_frame (fps self) (audio self) in
      let output :=
        fill (λ t, VTensor (slerp t start_prompt_embed end_prompt_embed))
             start_frame interp_schedule output in
      prompt_embeddings_loop self pairs' output
  end.

Definition get_prompt_embeddings (self : BYOPFlow)
    (key_frames : list (nat * string)) : M (gmap nat value) :=
  prompt_embeddings_loop self (zip key_frames (tail key_frames)) ∅.

(** [Series.ffill()]: a NaN cell takes the last value seen before it. *)
Definition isna (v : value) : bool :=
  match v with VNaN | VNone => true | _ => false end.

Fixpoint ffill_from (prev : value) (l : list value) : list value :=
  match l with
  | [] => []
  | v :: l' =>
      let v' := if isna v then prev else v in
      v' :: ffill_from v' l'
  end.

Definition ffill (l : list value) : list value := ffill_from VNaN l.

(** Every keyframe index is below [max_frames] in a flow, so that
    [key_frame_series[frame_idx] = prompt] always writes inside the series;
    what pandas does with a label beyond the index is not modelled. *)
Definition get_prompts (self : BYOPFlow) (key_frames : list (nat * string))
    : gmap nat value :=
  let key_frame_series := replicate (max_frames self) (VNaN : value) in
  let key_frame_series :=
    foldl (λ series '(frame_idx, prompt), <[frame_idx := VStr prompt]> series)
          key_frame_series key_frames in
  let key_frame_series := ffill key_frame_series in
  foldl (λ output '(frame_idx, prompt), <[frame_idx := prompt]> output)
        ∅ (enumerate key_frame_series).

Fixpoint init_latents_loop (self : BYOPFlow)
    (pairs : list ((nat * string) * (nat * string)))
    (start_latent : tensor) (output : gmap nat tensor) : M (gmap nat tensor) :=
  match pairs with
  | [] => ret output
  | ((start_frame, _), (end_frame, _)) :: pairs' =>
      let* end_latent :=
        if use_fixed_latent self then ret start_latent
        else sample_latent self (index (seed_schedule self) end_frame) in
      let* interp_schedule :=
        get_interpolation_schedule onset_strength normalize
          start_frame end_frame (fps self) (audio self) in
      let output :=
        fill (λ t, slerp t start_latent end_latent)
             start_frame interp_schedule output in
      init_latents_loop self pairs' end_latent output
  end.

Definition get_init_latents (self : BYOPFlow) (key_frames : list (nat * string))
    : M (gmap nat tensor) :=
  let* start_latent := sample_latent self (Ok (seed self)) in
  init_latents_loop self (zip key_frames (tail key_frames)) start_latent ∅.

(** [__init__] from [check_inputs] on.  [self] holds the constructor
    arguments ([height] and [width] among them) and what the loaders return
    for the files ([video_input], [audio]); [key_frames] is what
    [sync_prompts_to_video] (with a video) or [parse_key_frames] (without)
    makes of the text prompts.  With a video the frames and the size of the
    flow are those of the video; without one there are no frames and the
    size is the one passed. *)
Definition init (self : BYOPFlow) (key_frames : list (nat * string)) : M BYOPFlow :=
  let* _ := lift (check_inputs (image_input self) (video_input self)) in
  let self :=
    match video_input self with
    | Some v => with_frames self (Some (video_frames v)) (video_height v) (video_width v)
    | None => with_frames self None (height self) (width self)
    end in
  let* max_frames := lift (frame_count key_frames) in
  let* seed_schedule := make_seed_schedule (seed self) max_frames in
  let self := with_schedule self max_frames seed_schedule in
  let* init_latents := get_init_latents self key_frames in
  let* prompts :=
    if use_prompt_embeds self then get_prompt_embeddings self key_frames
    else ret (get_prompts self key_frames) in
  ret (with_timelines self init_latents prompts).

(** *** Batching *)

(** [batch["prompts"]] is one tensor in embedding mode, a list of prompts
    otherwise. *)
Inductive prompt_batch : Type :=
| Embeds (t : tensor)
| Prompts (l : list value).

Definition len (p : prompt_batch) : nat :=
  match p with
  | Embeds t => length t
  | Prompts l => length l
  end.

Record batch : Type := Batch {
  batch_prompts : prompt_batch;
  batch_init_latents : tensor;
  batch_images : tensor
}.

(** [x % y] on two integers. *)
Definition mod_ (x y : Z) : result Z :=
  if decide (y = 0) then Raise ZeroDivisionError else Ok (x `mod` y).

(** One turn of the loop of [batch_generator]: the batch it yields, if any,
    and the three accumulators it leaves. *)
Definition batch_step (self : BYOPFlow) (batch_size : Z) (frame_idx : nat)
    (prompt_batch : list value) (latent_batch image_batch : list tensor)
    : result (option batch * (list value * list tensor * list tensor)) :=
  let? prompt := getitem (prompts self) frame_idx in
  let prompt_batch := prompt_batch ++ [prompt] in
  let? latent := getitem (init_latents self) frame_idx in
  let latent_batch := latent_batch ++ [latent] in
  let? image_batch :=
    match frames self with
    | Some frames =>
        let? frame := index frames frame_idx in Ok (image_batch ++ [[frame]])
    | None => Ok image_batch
    end in
  let? r := mod_ (Z.of_nat (length prompt_batch)) batch_size in
  if decide (r = 0) then
    let? prompt_batch :=
      if use_prompt_embeds self
      then let? t := cat prompt_batch in Ok (Embeds t)
      else Ok (Prompts prompt_batch) in
    Ok (Some (Batch prompt_batch (concat latent_batch) (concat image_batch)),
        ([], [], []))
  else Ok (None, (prompt_batch, latent_batch, image_batch)).

(** The generator, run to its end: the batches it yields, and the exception
    that ends it if one does. *)
Fixpoint batch_loop (self : BYOPFlow) (batch_size : Z) (frame_list : list nat)
    (prompt_batch : list value) (latent_batch image_batch : list tensor)
    : list batch * option exn :=
  match frame_list with
  | [] => ([], None)
  | frame_idx :: rest =>
      match batch_step self batch_size frame_idx prompt_batch latent_batch image_batch with
      | Raise e => ([], Some e)
      | Ok (yielded, (prompt_batch, latent_batch, image_batch)) =>
          let '(batches, e) :=
            batch_loop self batch_size rest prompt_batch latent_batch image_batch in
          (match yielded with Some b => b :: batches | None => batches end, e)
      end
  end.

Definition batch_generator (self : BYOPFlow) (frame_list : list nat) (batch_size : Z)
    : list batch * option exn :=
  batch_loop self batch_size frame_list [] [] [].

(** *** Argument assembly *)

Definition prompts_value (p : prompt_batch) : value :=
  match p with
  | Embeds t => VTensor t
  | Prompts l => VList l
  end.

(** [name in self.pipe_signature] *)
Definition accepts (self : BYOPFlow) (name : string) : bool :=
  bool_decide (name ∈ pipe_signature self).

Definition prepare_inputs (self : BYOPFlow) (b : batch) : M (gmap string value) :=
  let prompts := batch_prompts b in
  let latents := batch_init_latents b in
  let images := batch_images b in
  let pipe_kwargs : gmap string value :=
    {[ "num_inference_steps" := VInt (num_inference_steps self);
       "guidance_scale" := VFloat (guidance_scale self) ]} in
  let pipe_kwargs :=
    update_if (accepts self "height") pipe_kwargs
      {[ "height" := VInt (height self) ]} in
  let pipe_kwargs :=
    update_if (accepts self "width") pipe_kwargs
      {[ "width" := VInt (width self) ]} in
  let pipe_kwargs :=
    update_if (accepts self "strength") pipe_kwargs
      {[ "strength" := VFloat (strength self) ]} in
  let pipe_kwargs :=
    update_if (accepts self "latents") pipe_kwargs
      {[ "latents" := VTensor latents ]} in
  let pipe_kwargs :=
    if accepts self "prompt_embeds" && use_prompt_embeds self
    then update pipe_kwargs {[ "prompt_embeds" := prompts_value prompts ]}
    else if accepts self "prompt" && negb (use_prompt_embeds self)
    then update pipe_kwargs {[ "prompt" := prompts_value prompts ]}
    else pipe_kwargs in
  let pipe_kwargs :=
    update_if (accepts self "negative_prompts") pipe_kwargs
      {[ "negative_prompts" :=
           VList (replicate (len prompts) (VStr (negative_prompts self))) ]} in
  let pipe_kwargs :=
    if accepts self "image"
    then
      if bool_decide (video_input self ≠ None) && bool_decide (length images ≠ 0%nat)
      then update pipe_kwargs {[ "image" := VTensor images ]}
      else
        match image_input self with
        | Some image => update pipe_kwargs
                          {[ "image" := VList (replicate (len prompts) image) ]}
        | None => pipe_kwargs
        end
    else pipe_kwargs in
  let* pipe_kwargs :=
    if accepts self "generator"
    then
      let* _ := set_generator (manual_seed (seed self)) in
      ret (update pipe_kwargs {[ "generator" := VGenerator ]})
    else ret pipe_kwargs in
  ret (update pipe_kwargs (additional_pipeline_argumenets self)).

(** *** The driver *)

(** The call of [self.pipe] on the keyword arguments: the model may draw
    from the flow's generator. *)
Definition call_pipe (pipe_kwargs : gmap string value) : M tensor :=
  let* _ := log_pipe_call pipe_kwargs in
  λ w, let '(r, g) := pipe pipe_kwargs (generator w) in
       (r, World g (random_state w) (audio_slices w) (pipe_calls w)).

(** [frames if frames else [i for i in range(self.max_frames)]] *)
Definition frames_or_all (self : BYOPFlow) (frame_list : option (list nat)) : list nat :=
  match frame_list with
  | Some (i :: l) => i :: l
  | _ => range (max_frames self)
  end.

Definition create (self : BYOPFlow) (frame_list : option (list nat)) : M (list tensor) :=
  let '(batches, e) :=
    batch_generator self (frames_or_all self frame_list) (batch_size self) in
  let* images :=
    mapM (λ b, let* pipe_kwargs := prepare_inputs self b in call_pipe pipe_kwargs)
         batches in
  match e with
  | Some e => raise e
  | None => ret images
  end.

End Flow.

Global Arguments BYOPFlow : clear implicits.
Global Arguments video : clear implicits.

End BYOP.

(** ** [flows/flow_giffusion.py] *)

Module Giffusion.

Section Flow.

Context {row gen rng : Type}.

Local Abbreviation tensor := (tensor row).
Local Abbreviation M := (M row gen rng).

(** *** Collaborators *)

Variable random_seed : Z → rng.
Variable random_randint : Z → Z → rng → Z * rng.
Variable manual_seed : Z → gen.
Variable randn : list Z → gen → tensor * gen.
Variable slerp : float → tensor → tensor → tensor.
Variable prompt_to_embedding : string → tensor.
(** [BaseFlow.pad_embedding] *)
Variable pad_embedding : tensor → tensor → tensor * tensor.

(** *** The flow object *)

Record GiffusionFlow : Type := {
  batch_size : Z;
  pipe_signature : gset string;
  in_channels : Z;
  vae_scale_factor : Z;
  width : Z;
  height : Z;
  use_fixed_latent : bool;
  guidance_scale : Q;
  num_inference_steps : Z;
  seed : Z;
  key_frames : list (nat * string);
  seed_schedule : gmap nat Z;
  max_frames : nat;
  init_latents : gmap nat tensor;
  text_embeddings : gmap nat tensor
}.

Definition with_schedule (self : GiffusionFlow) (kfs : list (nat * string))
    (s : gmap nat Z) (n : nat) : GiffusionFlow :=
  {| batch_size := batch_size self; pipe_signature := pipe_signature self;
     in_channels := in_channels self; vae_scale_factor := vae_scale_factor self;
     width := width self; height := height self;
     use_fixed_latent := use_fixed_latent self;
     guidance_scale := guidance_scale self;
     num_inference_steps := num_inference_steps self; seed := seed self;
     key_frames := kfs; seed_schedule := s; max_frames := n;
     init_latents := init_latents self; text_embeddings := text_embeddings self |}.

Definition with_timelines (self : GiffusionFlow)
    (latents texts : gmap nat tensor) : GiffusionFlow :=
  {| batch_size := batch_size self; pipe_signature := pipe_signature self;
     in_channels := in_channels self; vae_scale_factor := vae_scale_factor self;
     width := width self; height := height self;
     use_fixed_latent := use_fixed_latent self;
     guidance_scale := guidance_scale self;
     num_inference_steps := num_inference_steps self; seed := seed self;
     key_frames := key_frames self; seed_schedule := seed_schedule self;
     max_frames := max_frames self;
     init_latents := latents; text_embeddings := texts |}.

(** [random.seed(seed); {kf: random.randint(0, 2**64 - 1) for kf, _ in key_frames}] *)
Fixpoint seed_schedule_loop (kfs : list (nat * string)) (output : gmap nat Z)
    : M (gmap nat Z) :=
  match kfs with
  | [] => ret output
  | (kf, _) :: kfs' =>
      let* s := draw_random (random_randint 0 18446744073709551615) in
      seed_schedule_loop kfs' (<[kf := s]> output)
  end.

Definition make_seed_schedule (seed : Z) (kfs : list (nat * string)) : M (gmap nat Z) :=
  let* _ := set_random_state (random_seed seed) in
  seed_schedule_loop kfs ∅.

Definition frame_count (kfs : list (nat * string)) : result nat :=
  match kfs with
  | [] => Raise ValueError
  | _ :: _ => Ok (max_list (kfs.*1) + 1)%nat
  end.

Definition sample_latent (self : GiffusionFlow) (height width : Z) (s : result Z)
    : M tensor :=
  let* h := lift (floordiv height (vae_scale_factor self)) in
  let* w := lift (floordiv width (vae_scale_factor self)) in
  let* s := lift s in
  let* _ := set_generator (manual_seed s) in
  draw (randn [1; in_channels self; h; w]).

(** The inner loop over [enumerate(interp_schedule)]: the two embeddings are
    padded again at every turn, and both timelines are written. *)
Definition fill_step (start_frame : nat) (start_latent end_latent : tensor)
    (acc : tensor * tensor * gmap nat tensor * gmap nat tensor) (it : nat * Q)
    : tensor * tensor * gmap nat tensor * gmap nat tensor :=
  let '(start_text_embeddings, end_text_embeddings, latent_output, text_output) := acc in
  let '(i, t) := it in
  let latents := slerp (Fin t) start_latent end_latent in
  let '(start_text_embeddings, end_text_embeddings) :=
    pad_embedding start_text_embeddings end_text_embeddings in
  let embeddings := slerp (Fin t) start_text_embeddings end_text_embeddings in
  (start_text_embeddings, end_text_embeddings,
   <[(i + start_frame)%nat := latents]> latent_output,
   <[(i + start_frame)%nat := embeddings]> text_output).

Fixpoint timeline_loop (self : GiffusionFlow) (height width : Z)
    (use_fixed_latent : bool)
    (pairs : list ((nat * string) * (nat * string)))
    (start_latent : tensor) (latent_output text_output : gmap nat tensor)
    : M (gmap nat tensor * gmap nat tensor) :=
  match pairs with
  | [] => ret (latent_output, text_output)
  | ((start_frame, start_prompt), (end_frame, end_prompt)) :: pairs' =>
      let* end_latent :=
        if use_fixed_latent then ret start_latent
        else sample_latent self height width (getitem (seed_schedule self) end_frame) in
      let start_text_embeddings := prompt_to_embedding start_prompt in
      let end_text_embeddings := prompt_to_embedding end_prompt in
      let num_frames := Z.of_nat end_frame - Z.of_nat start_frame + 1 in
      let* interp_schedule := lift (linspace 0 1 num_frames) in
      let '(_, _, latent_output, text_output) :=
        foldl (fill_step start_frame start_latent end_latent)
              (start_text_embeddings, end_text_embeddings, latent_output, text_output)
              (enumerate interp_schedule) in
      timeline_loop self height width use_fixed_latent pairs'
                    end_latent latent_output text_output
  end.

Definition get_init_latents_and_text_embeddings (self : GiffusionFlow)
    (key_frames : list (nat * string)) (height width : Z) (use_fixed_latent : bool)
    : M (gmap nat tensor * gmap nat tensor) :=
  let* start_latent := sample_latent self height width (Ok (seed self)) in
  timeline_loop self height width use_fixed_latent
                (zip key_frames (tail key_frames)) start_latent ∅ ∅.

(** [__init__] from the parsed keyframes on. *)
Definition init (self : GiffusionFlow) (key_frames : list (nat * string))
    : M GiffusionFlow :=
  let* seed_schedule := make_seed_schedule (seed self) key_frames in
  let* max_frames := lift (frame_count key_frames) in
  let self := with_schedule self key_frames seed_schedule max_frames in
  let* timelines :=
    get_init_latents_and_text_embeddings self key_frames
      (height self) (width self) (use_fixed_latent self) in
  ret (with_timelines self timelines.1 timelines.2).

(** *** Batching *)

Record batch : Type := Batch {
  batch_text_embeddings : tensor;
  batch_init_latents : tensor;
  batch_generators : list gen
}.

Definition batch_step (self : GiffusionFlow) (batch_size : Z) (frame_idx : nat)
    (text_batch latent_batch : list tensor) (generator_batch : list gen)
    : result (option batch * (list tensor * list tensor * list gen)) :=
  let? text := getitem (text_embeddings self) frame_idx in
  let text_batch := text_batch ++ [text] in
  let? latent := getitem (init_latents self) frame_idx in
  let latent_batch := latent_batch ++ [latent] in
  let? r := BYOP.mod_ (Z.of_nat (length text_batch)) batch_size in
  if decide (r = 0) then
    let? s := getitem (seed_schedule self) frame_idx in
    let generator_batch := generator_batch ++ [manual_seed s] in
    Ok (Some (Batch (concat text_batch) (concat latent_batch) generator_batch),
        ([], [], []))
  else Ok (None, (text_batch, latent_batch, generator_batch)).

Fixpoint batch_loop (self : GiffusionFlow) (batch_size : Z) (frame_list : list nat)
    (text_batch latent_batch : list tensor) (generator_batch : list gen)
    : list batch * option exn :=
  match frame_list with
  | [] => ([], None)
  | frame_idx :: rest =>
      match batch_step self batch_size frame_idx text_batch latent_batch generator_batch with
      | Raise e => ([], Some e)
      | Ok (yielded, (text_batch, latent_batch, generator_batch)) =>
          let '(batches, e) :=
            batch_loop self batch_size rest text_batch latent_batch generator_batch in
          (match yielded with Some b => b :: batches | None => batches end, e)
      end
  end.

Definition batch_generator (self : GiffusionFlow) (frame_list : list nat) (batch_size : Z)
    : list batch * option exn :=
  batch_loop self batch_size frame_list [] [] [].

(** [frames if frames else [i for i in range(self.max_frames)]] *)
Definition frames_or_all (self : GiffusionFlow) (frame_list : option (list nat))
    : list nat :=
  match frame_list with
  | Some (i :: l) => i :: l
  | _ => range (max_frames self)
  end.

(** The batches [create] draws from [batch_generator]. *)
Definition create_batches (self : GiffusionFlow) (frame_list : option (list nat))
    : list batch * option exn :=
  batch_generator self (frames_or_all self frame_list) (batch_size self).

End Flow.

Global Arguments GiffusionFlow : clear implicits.

End Giffusion.

(** ** [generate.py]

    The older command-line driver: it interpolates both timelines itself,
    renders one image per frame, writes each to a numbered file and joins
    the files into an animation.  The denoising loop and the decoder are one
    external function; the directory of the run is a map from paths to
    images. *)

Module Generate.

(** *** Paths *)

(** [a <= b] on two [str]: the code points are compared from the left. *)
Definition str_le (a b : string) : Prop := String.leb a b = true.

#[global] Instance str_le_dec (a b : string) : Decision (str_le a b) :=
  decide (String.leb a b = true).

(** [sorted(l)] on a list of [str] *)
Definition sorted (l : list string) : list string := merge_sort str_le l.

(** [str(n)] for a non-negative integer: its decimal digits. *)
Fixpoint digits (fuel n : nat) (acc : string) : string :=
  let acc := String (Ascii.ascii_of_nat (48 + n mod 10)) acc in
  match fuel with
  | O => acc
  | S fuel' => if decide (n / 10 = 0)%nat then acc else digits fuel' (n / 10) acc
  end.

Definition str (n : nat) : string := digits n n "".

(** [f"{n:04d}"]: the digits, padded with zeros on the left to a width of
    at least four. *)
Definition format_04d (n : nat) : string :=
  let s := str n in
  Nat.iter (4 - String.length s) (String (Ascii.ascii_of_nat 48)) s.

(** [f"{run_path}/{frame_idx:04d}.png"] *)
Definition frame_path (run_path : string) (frame_idx : nat) : string :=
  run_path +:+ "/" +:+ format_04d frame_idx +:+ ".png".

(** *** Slices with step [-1] *)

(** A bound of [l[a:b:-1]]: negative bounds count from the end, and every
    bound is clamped to [-1, len - 1]. *)
Definition slice_bound_down (len i : Z) : Z :=
  if decide (i < 0) then Z.max (i + len) (-1) else Z.min i (len - 1).

(** [l[a:b:-1]]: the items at the indices [a', a' - 1, ...] above [b']. *)
Definition slice_down {A} (l : list A) (a b : Z) : list A :=
  let len := Z.of_nat (length l) in
  let a' := slice_bound_down len a in
  let b' := slice_bound_down len b in
  omap (λ k : nat, l !! Z.to_nat (a' - Z.of_nat k)) (seq 0 (Z.to_nat (a' - b'))).

Section Program.

Context {row gen rng img : Type}.

Local Abbreviation tensor := (tensor row).
Local Abbreviation M := (M row gen rng).

(** *** Collaborators *)

Variable manual_seed : Z → gen.
Variable randn : list Z → gen → tensor * gen.
Variable slerp : float → tensor → tensor → tensor.
(** [prompt_to_embedding(pipe, prompt)] and [pipe.unet.in_channels] *)
Variable prompt_to_embedding : string → tensor.
Variable in_channels : Z.
(** [latents_to_image(pipe, diffuse_latents(pipe, text_embedding,
    init_latent, ...))[0]] *)
Variable render : tensor → tensor → result img.

(** *** [save_gif] *)

Record gif : Type := Gif {
  gif_frames : list img;
  gif_duration : Z;
  gif_loop : Z
}.

(** [Image.open(f)]: the file must exist. *)
Definition image_open (files : gmap string img) (f : string) : result img :=
  match files !! f with
  | Some image => Ok image
  | None => Raise (ExternalError 2)
  end.

(** [[Image.open(f) for f in fs]] *)
Fixpoint open_all (files : gmap string img) (fs : list string) : result (list img) :=
  match fs with
  | [] => Ok []
  | f :: fs' =>
      let? image := image_open files f in
      let? images := open_all files fs' in
      Ok (image :: images)
  end.

(** The animation [imgs[0].save] writes: the first image followed by
    [append_images]. *)
Definition save_gif (files : gmap string img) (frames : list string) (fps : Z)
    : result gif :=
  let? imgs := open_all files (sorted frames) in
  let imgs := imgs ++ slice_down imgs (-1) 1 in
  let? duration := floordiv (Z.of_nat (length imgs)) fps in
  let? first := index imgs 0 in
  Ok (Gif (first :: drop 1 imgs) duration 1).

(** *** [interpolate_latents_and_text_embeddings] *)

(** [torch.randn((1, pipe.unet.in_channels, height // 8, width // 8),
    generator=generator)]: the generator is not re-seeded. *)
Definition sample_latent (height width : Z) : M tensor :=
  draw (randn [1; in_channels; height `div` 8; width `div` 8]).

Definition fill_step (start_frame_idx : nat)
    (start_latent current_latent start_text_embeddings current_text_embeddings : tensor)
    (acc : gmap nat tensor * gmap nat tensor) (it : nat * Q)
    : gmap nat tensor * gmap nat tensor :=
  let '(latent_output, text_output) := acc in
  let '(i, t) := it in
  let latents := slerp (Fin t) start_latent current_latent in
  let embeddings := slerp (Fin t) start_text_embeddings current_text_embeddings in
  (<[(i + start_frame_idx)%nat := latents]> latent_output,
   <[(i + start_frame_idx)%nat := embeddings]> text_output).

Fixpoint interpolation_loop (height width : Z) (key_frames : list (nat * string))
    (start_frame_idx : nat) (start_latent start_text_embeddings : tensor)
    (latent_output text_output : gmap nat tensor)
    : M (gmap nat tensor * gmap nat tensor) :=
  match key_frames with
  | [] => ret (latent_output, text_output)
  | (current_frame_idx, current_prompt) :: key_frames' =>
      let* current_latent := sample_latent height width in
      let current_text_embeddings := prompt_to_embedding current_prompt in
      let num_steps := Z.of_nat current_frame_idx - Z.of_nat start_frame_idx in
      let* schedule := lift (linspace 0 1 (num_steps + 1)) in
      let outputs :=
        foldl (fill_step start_frame_idx start_latent current_latent
                         start_text_embeddings current_text_embeddings)
              (latent_output, text_output) (enumerate schedule) in
      interpolation_loop height width key_frames' current_frame_idx
                         current_latent current_text_embeddings outputs.1 outputs.2
  end.

(** [start_key_frame, *key_frames = key_frames] needs one keyframe at least. *)
Definition interpolate_latents_and_text_embeddings
    (key_frames : list (nat * string)) (height width : Z)
    : M (gmap nat tensor * gmap nat tensor) :=
  match key_frames with
  | [] => raise ValueError
  | (start_frame_idx, start_prompt) :: key_frames =>
      let* start_latent := sample_latent height width in
      let start_text_embeddings := prompt_to_embedding start_prompt in
      interpolation_loop height width key_frames start_frame_idx
                         start_latent start_text_embeddings ∅ ∅
  end.

(** *** [run] *)




End Program.

Global Arguments gif : clear implicits.

End Generate.

(** ** Concrete collaborators

    Small stand-ins for the external collaborators, used to run the flows on
    concrete inputs: a tensor row is an integer, a generator state is the
    seed it was last given plus the number of draws made since. *)

Module Stub.

Definition random_seed (a : Z) : Z := a.

(** A linear congruential generator. *)
Definition random_randint (a b : Z) (r : Z) : Z * Z :=
  let r' := (r * 6364136223846793005 + 1442695040888963407) `mod` 18446744073709551616 in
  (a + r' `mod` (b - a + 1), r').

Definition manual_seed (s : Z) : Z := s.

Definition randn (shape : list Z) (g : Z) : tensor Z * Z := ([g], g + 1).

Definition slerp (t : float) (a b : tensor Z) : tensor Z :=
  match t with
  | Fin q => if Qeq_bool q 0 then a else b
  | NonFin => a
  end.

Definition prompt_to_embedding (s : string) : tensor Z :=
  [Z.of_nat (String.length s)].

Definition pad_embedding (a b : tensor Z) : tensor Z * tensor Z := (a, b).

(** The envelope of a slice: a zero (the lag padding, which is all there is
    for an empty slice) followed by the squares of the samples. *)
Definition onset_strength (audio_slice : list Q) (sr : Z) : result (list Q) :=
  Ok (0%Q :: map (λ x, (x * x)%Q) audio_slice).

Definition normalize (env : list Q) : result (list Q) := Ok env.

Definition pipe (kwargs : gmap string (value Z Z)) (g : Z) : result (tensor Z) * Z :=
  (Ok [g], g + 1).

Definition w0 : world Z Z Z := World 0 0 [] [].

(** A [BYOPFlow] as the constructor receives it: text-to-image defaults. *)
Definition byop (sig : gset string) (embeds : bool)
    (extra : gmap string (value Z Z)) (bs : Z) : BYOP.BYOPFlow Z Z :=
  {| BYOP.batch_size := bs; BYOP.pipe_signature := sig;
     BYOP.negative_prompts := "blurry";
     BYOP.use_fixed_latent := false; BYOP.use_prompt_embeds := embeds;
     BYOP.num_latent_channels := 4; BYOP.vae_scale_factor := 8;
     BYOP.additional_pipeline_argumenets := extra;
     BYOP.guidance_scale := 7.5; BYOP.num_inference_steps := 50;
     BYOP.strength := 0.5; BYOP.seed := 42; BYOP.fps := 10;
     BYOP.image_input := Some (VStr "init.png"); BYOP.video_input := None;
     BYOP.frames := None; BYOP.height := 512; BYOP.width := 512;
     BYOP.audio := None;
     BYOP.max_frames := 0; BYOP.seed_schedule := [];
     BYOP.init_latents := ∅; BYOP.prompts := ∅ |}.

Definition byop_init (self : BYOP.BYOPFlow Z Z) (key_frames : list (nat * string)) :=
  BYOP.init random_seed random_randint manual_seed randn slerp
    prompt_to_embedding onset_strength normalize self key_frames.

Definition giffusion (bs : Z) : Giffusion.GiffusionFlow Z :=
  {| Giffusion.batch_size := bs; Giffusion.pipe_signature := {[ "prompt_embeds"; "latents" ]};
     Giffusion.in_channels := 4; Giffusion.vae_scale_factor := 8;
     Giffusion.width := 512; Giffusion.height := 512;
     Giffusion.use_fixed_latent := false;
     Giffusion.guidance_scale := 7.5; Giffusion.num_inference_steps := 50;
     Giffusion.seed := 42;
     Giffusion.key_frames := []; Giffusion.seed_schedule := ∅;
     Giffusion.max_frames := 0;
     Giffusion.init_latents := ∅; Giffusion.text_embeddings := ∅ |}.

Definition giffusion_init (self : Giffusion.GiffusionFlow Z)
    (key_frames : list (nat * string)) :=
  Giffusion.init random_seed random_randint manual_seed randn slerp
    prompt_to_embedding pad_embedding self key_frames.

(** The flow [__init__] builds, started in the state [w0]. *)
Definition byop_flow (self : BYOP.BYOPFlow Z Z) (key_frames : list (nat * string))
    : BYOP.BYOPFlow Z Z :=
  match (byop_init self key_frames w0).1 with
  | Ok flow => flow
  | Raise _ => self
  end.

Definition giffusion_flow (self : Giffusion.GiffusionFlow Z)
    (key_frames : list (nat * string)) : Giffusion.GiffusionFlow Z :=
  match (giffusion_init self key_frames w0).1 with
  | Ok flow => flow
  | Raise _ => self
  end.

(** The flows of the examples, evaluated. *)
Definition byop_ab : BYOP.BYOPFlow Z Z :=
  Eval vm_compute in
    byop_flow (byop {[ "prompt"; "latents" ]} false ∅ 1) [(0%nat, "A"); (5%nat, "B")].

Definition byop_ten : BYOP.BYOPFlow Z Z :=
  Eval vm_compute in
    byop_flow (byop {[ "prompt_embeds"; "latents" ]} true ∅ 4)
              [(0%nat, "A"); (9%nat, "B")].

Definition giffusion_ten : Giffusion.GiffusionFlow Z :=
  Eval vm_compute in
    giffusion_flow (giffusion 4)
                   [(0%nat, "A"); (3%nat, "B"); (7%nat, "C"); (9%nat, "D")].

(** Ten frames between the keyframes 0 and 9. *)
Definition giffusion_ends : Giffusion.GiffusionFlow Z :=
  Eval vm_compute in
    giffusion_flow (giffusion 4) [(0%nat, "A"); (9%nat, "B")].

Definition byop_unsupported : BYOP.BYOPFlow Z Z :=
  Eval vm_compute in
    byop_flow (byop {[ "prompt"; "latents" ]} true ∅ 1) [(0%nat, "A"); (1%nat, "B")].

Definition byop_generator : BYOP.BYOPFlow Z Z :=
  Eval vm_compute in
    byop_flow (byop {[ "prompt"; "latents"; "generator" ]} false ∅ 1)
              [(0%nat, "A"); (2%nat, "B")].

(** One batch of one frame, in raw-prompt mode. *)
Definition batch0 : @BYOP.batch Z Z := BYOP.Batch (BYOP.Prompts [VStr "A"]) [42] [].

(** A toy audio array, sampled at 20 Hz. *)
Definition toy_audio : list Q := [1; 2; 3; 4; 5; 6; 7; 8; 9; 10]%Q.



End Stub.

(** ** Vocabulary of the statements *)

Definition nondecreasing (l : list Q) : Prop :=
  ∀ (i j : nat) (x y : Q),
    (i ≤ j)%nat → l !! i = Some x → l !! j = Some y → (x <= y)%Q.

Definition increasing (l : list Q) : Prop :=
  ∀ (i j : nat) (x y : Q),
    (i < j)%nat → l !! i = Some x → l !! j = Some y → (x < y)%Q.

(** Sample points of an interpolation table, seen from the point before
    them: abscissas increase, ordinates do not decrease. *)
Fixpoint chain (x0 y0 : Q) (pts : list (Q * Q)) : Prop :=
  match pts with
  | [] => True
  | (x1, y1) :: pts' => (x0 < x1)%Q ∧ (y0 <= y1)%Q ∧ chain x1 y1 pts'
  end.

Definition last_y (y0 : Q) (pts : list (Q * Q)) : Q :=
  match last pts with
  | Some (_, y) => y
  | None => y0
  end.

Definition in_unit_interval (t : Q) : Prop := (0 <= t <= 1)%Q.

(** What the audio-reactive mode needs from the external onset extractor on
    the slice of the pair: it returns, and the normalised envelope is
    non-negative, starts at 0 and has a positive sum. *)
Definition extractor_ok
    (onset_strength : list Q → Z → result (list Q))
    (normalize : list Q → result (list Q))
    (start_frame end_frame : nat) (fps : Z) (audio : option (list Q * Z)) : Prop :=
  match audio with
  | None => True
  | Some (audio_array, sr) =>
      ∃ a b env0 env e0 total,
        BYOP.frame_to_sample start_frame fps sr = Ok a ∧
        BYOP.frame_to_sample end_frame fps sr = Ok b ∧
        onset_strength (slice audio_array a b) sr = Ok env0 ∧
        normalize env0 = Ok env ∧
        Forall (λ x, (0 <= x)%Q) env ∧
        head env = Some e0 ∧ (e0 == 0)%Q ∧
        last (cumsum env) = Some total ∧ (0 < total)%Q
  end.

(** [n] successive draws from the state [r]. *)
Fixpoint draws {rng A} (f : rng → A * rng) (n : nat) (r : rng) : list A * rng :=
  match n with
  | O => ([], r)
  | S n' =>
      let '(x, r') := f r in
      let '(xs, r'') := draws f n' r' in
      (x :: xs, r'')
  end.

(** The full groups of [b] consecutive items of [l], in order; the
    [length l mod b] trailing items belong to none of them. *)
Definition chunks {A} (b : nat) (l : list A) : list (list A) :=
  map (λ k, take b (drop (k * b) l)) (seq 0 (length l / b)).

(** Keyframes after the frame [f], sorted by strictly increasing frame. *)
Fixpoint ascending_from (f : nat) (kfs : list (nat * string)) : Prop :=
  match kfs with
  | [] => True
  | (f', _) :: kfs' => (f < f')%nat ∧ ascending_from f' kfs'
  end.

Definition last_frame (f : nat) (kfs : list (nat * string)) : nat :=
  match last kfs with
  | Some (f', _) => f'
  | None => f
  end.

(** How far frame [i] is on the way from the keyframe at [f] to the
    keyframe at [f']. *)
Definition fraction (f f' i : nat) : Q :=
  (inject_Z (Z.of_nat i - Z.of_nat f) / inject_Z (Z.of_nat f' - Z.of_nat f))%Q.

Section Vocabulary.

Context {row gen rng : Type}.
Local Abbreviation tensor := (tensor row).
Local Abbreviation value := (value row gen).

(** The assignments [key_frame_series[frame_idx] = prompt]. *)
Definition assign_prompts (series : list value) (key_frames : list (nat * string))
    : list value :=
  foldl (λ series '(frame_idx, prompt), <[frame_idx := VStr prompt]> series)
        series key_frames.

Definition as_tensor (v : value) : option tensor :=
  match v with
  | VTensor t => Some t
  | _ => None
  end.

(** The batch made of the timeline entries of the frames [chunk]. *)
Definition batch_of (self : BYOP.BYOPFlow row gen) (chunk : list nat) : BYOP.batch :=
  let ps := omap (λ i, BYOP.prompts self !! i) chunk in
  BYOP.Batch
    (if BYOP.use_prompt_embeds self
     then BYOP.Embeds (concat (omap as_tensor ps))
     else BYOP.Prompts ps)
    (concat (omap (λ i, BYOP.init_latents self !! i) chunk))
    (match BYOP.frames self with
     | Some frames => omap (λ i, frames !! i) chunk
     | None => []
     end).

(** Frame [i] can be batched: both timelines have an entry for it (a tensor
    in embedding mode), and the source video has such a frame. *)
Definition batchable (self : BYOP.BYOPFlow row gen) (i : nat) : Prop :=
  is_Some (BYOP.init_latents self !! i) ∧
  (∃ p, BYOP.prompts self !! i = Some p ∧
        (BYOP.use_prompt_embeds self = true → is_Some (as_tensor p))) ∧
  (∀ frames, BYOP.frames self = Some frames → is_Some (frames !! i)).

Definition pending_images (self : BYOP.BYOPFlow row gen) (pending : list nat) : list tensor :=
  match BYOP.frames self with
  | Some frames => map (λ f, [f]) (omap (λ i, frames !! i) pending)
  | None => []
  end.

(** The batch made of the timeline entries of the frames [chunk], with the
    generator seeded for its last frame. *)
Definition giffusion_batch_of (manual_seed : Z → gen)
    (self : Giffusion.GiffusionFlow row) (chunk : list nat) : Giffusion.batch :=
  Giffusion.Batch
    (concat (omap (λ i, Giffusion.text_embeddings self !! i) chunk))
    (concat (omap (λ i, Giffusion.init_latents self !! i) chunk))
    (omap (λ i, manual_seed <$> Giffusion.seed_schedule self !! i)
          (option_list (last chunk))).

Definition giffusion_batchable (self : Giffusion.GiffusionFlow row) (i : nat) : Prop :=
  is_Some (Giffusion.text_embeddings self !! i) ∧
  is_Some (Giffusion.init_latents self !! i).

(** The seed schedule has an entry for the last frame of the chunk. *)
Definition seeded (self : Giffusion.GiffusionFlow row) (chunk : list nat) : Prop :=
  ∃ i, last chunk = Some i ∧ is_Some (Giffusion.seed_schedule self !! i).

(** The state [prepare_inputs] leaves: the generator re-seeded with the
    master seed when the pipeline accepts a generator, nothing touched
    otherwise. *)
Definition after_prepare (manual_seed : Z → gen)
    (self : BYOP.BYOPFlow row gen) (w : world row gen rng) : world row gen rng :=
  if BYOP.accepts self "generator"
  then World (manual_seed (BYOP.seed self)) (random_state w) (audio_slices w) (pipe_calls w)
  else w.



(** The prompt option of the active mode has no parameter on the model. *)
Definition prompt_option_unsupported (self : BYOP.BYOPFlow row gen) : Prop :=
  (BYOP.use_prompt_embeds self = true ∧ "prompt_embeds" ∉ BYOP.pipe_signature self) ∨
  (BYOP.use_prompt_embeds self = false ∧ "prompt" ∉ BYOP.pipe_signature self).

End Vocabulary.

(** * Numeric facts about the numpy functions *)

Section Numeric.

Lemma Ok_inj {A} (a b : A) : Ok a = Ok b → a = b.
Proof. congruence. Qed.

Lemma linspace_ok (start stop : Q) (num : Z) :
  0 ≤ num → ∃ l, linspace start stop num = Ok l ∧ length l = Z.to_nat num.
Proof.
  intros Hnum. unfold linspace.
  destruct (decide (num < 0)) as [?|_]; [lia|].
  destruct (Z.to_nat num) as [|[|m]] eqn:E.
  - by eexists.
  - by eexists.
  - eexists; split; [done|].
    rewrite length_app, length_map, length_seq. simpl. lia.
Qed.

Lemma linspace_single (start stop : Q) :
  linspace start stop 1 = Ok [(0 * (stop - start) + start)%Q].
Proof. reflexivity. Qed.

(** The points of a linspace of at least two points. *)
Lemma linspace_lookup (start stop : Q) (num : Z) (l : list Q) (i : nat) :
  2 ≤ num → linspace start stop num = Ok l →
  l !! i =
    if decide (i < Z.to_nat num - 1)%nat
    then Some (inject_Z (Z.of_nat i) * ((stop - start) / inject_Z (num - 1)) + start)%Q
    else if decide (i = Z.to_nat num - 1)%nat then Some stop else None.
Proof.
  intros Hnum. unfold linspace.
  destruct (decide (num < 0)) as [?|_]; [lia|].
  destruct (Z.to_nat num) as [|[|m]] eqn:E; [lia|lia|].
  intros Hl. apply Ok_inj in Hl. subst l.
  replace (S (S m) - 1)%nat with (S m) by lia.
  destruct (decide (i < S m)%nat) as [Hi|Hi].
  - rewrite lookup_app_l by (rewrite length_map, length_seq; lia).
    rewrite list_lookup_fmap, lookup_seq_lt by lia. done.
  - rewrite lookup_app_r by (rewrite length_map, length_seq; lia).
    rewrite length_map, length_seq.
    destruct (decide (i = S m)) as [->|Hne].
    + by rewrite Nat.sub_diag.
    + destruct (i - S m)%nat eqn:E'; [lia|done].
Qed.

Lemma step_facts (delta : Q) (k : Z) :
  (0 <= delta)%Q → 0 < k →
  (0 <= delta / inject_Z k)%Q ∧ (inject_Z k * (delta / inject_Z k) == delta)%Q.
Proof.
  intros Hd Hk.
  assert (0 < inject_Z k)%Q as Hk' by (rewrite (Zlt_Qlt 0 k) in Hk; exact Hk).
  split.
  - apply Qle_shift_div_l; [done|]. lra.
  - field. lra.
Qed.

Lemma linspace_point_le (start stop : Q) (k i j : Z) :
  (start <= stop)%Q → 0 ≤ i → i ≤ j → j ≤ k → 0 < k →
  let p := λ i : Z, (inject_Z i * ((stop - start) / inject_Z k) + start)%Q in
  (start <= p i)%Q ∧ (p i <= p j)%Q ∧ (p j <= stop)%Q.
Proof.
  intros Hs Hi Hij Hjk Hk p. unfold p.
  destruct (step_facts (stop - start) k) as [Hstep Hk']; [lra|done|].
  set (step := ((stop - start) / inject_Z k)%Q) in *.
  rewrite Zle_Qle in Hi, Hij, Hjk.
  change (inject_Z 0) with 0%Q in Hi.
  repeat split; nra.
Qed.

Lemma linspace_cases (start stop : Q) (num : Z) (l : list Q) :
  0 ≤ num → linspace start stop num = Ok l →
  (num = 0 ∧ l = []) ∨ (num = 1 ∧ l = [(0 * (stop - start) + start)%Q]) ∨ 2 ≤ num.
Proof.
  intros Hnum Hl.
  destruct (decide (num = 0)) as [->|]; [left; split; [done|]; by apply Ok_inj in Hl|].
  destruct (decide (num = 1)) as [->|]; [|right; right; lia].
  right; left; split; [done|]. by apply Ok_inj in Hl.
Qed.

Lemma linspace_bounds (start stop : Q) (num : Z) (l : list Q) (i : nat) (x : Q) :
  (start <= stop)%Q → linspace start stop num = Ok l → l !! i = Some x →
  (start <= x <= stop)%Q.
Proof.
  intros Hs Hl Hx.
  assert (0 ≤ num) as Hnum.
  { unfold linspace in Hl. destruct (decide (num < 0)); [done|lia]. }
  destruct (linspace_cases _ _ _ _ Hnum Hl) as [[_ ->]|[[_ ->]|H2]]; [done| |].
  - destruct i; [|done]. injection Hx as <-. lra.
  - rewrite (linspace_lookup _ _ _ _ i H2 Hl) in Hx.
    destruct (decide (i < Z.to_nat num - 1)%nat) as [Hi|Hi].
    + injection Hx as <-.
      destruct (linspace_point_le start stop (num - 1) (Z.of_nat i) (Z.of_nat i))
        as (? & _ & ?); [done|lia..|]. lra.
    + destruct (decide (i = Z.to_nat num - 1)%nat); [|done].
      injection Hx as <-. lra.
Qed.

Lemma linspace_nondecreasing (start stop : Q) (num : Z) (l : list Q) :
  (start <= stop)%Q → linspace start stop num = Ok l → nondecreasing l.
Proof.
  intros Hs Hl i j x y Hij Hx Hy.
  assert (0 ≤ num) as Hnum.
  { unfold linspace in Hl. destruct (decide (num < 0)); [done|lia]. }
  destruct (linspace_cases _ _ _ _ Hnum Hl) as [[_ ->]|[[_ ->]|H2]]; [done| |].
  - destruct i, j; try done. injection Hx as <-. injection Hy as <-. lra.
  - rewrite (linspace_lookup _ _ _ _ i H2 Hl) in Hx.
    rewrite (linspace_lookup _ _ _ _ j H2 Hl) in Hy.
    destruct (decide (j < Z.to_nat num - 1)%nat) as [Hj|Hj].
    + rewrite decide_True in Hx by lia.
      injection Hx as <-. injection Hy as <-.
      destruct (linspace_point_le start stop (num - 1) (Z.of_nat i) (Z.of_nat j))
        as (_ & ? & _); [done|lia..|]. done.
    + destruct (decide (j = Z.to_nat num - 1)%nat); [|done].
      injection Hy as <-.
      destruct (decide (i < Z.to_nat num - 1)%nat) as [Hi|Hi].
      * injection Hx as <-.
        destruct (linspace_point_le start stop (num - 1) (Z.of_nat i) (Z.of_nat i))
          as (_ & _ & ?); [done|lia..|]. done.
      * destruct (decide (i = Z.to_nat num - 1)%nat); [|done].
        injection Hx as <-. lra.
Qed.

Lemma linspace_head (start stop : Q) (num : Z) (l : list Q) :
  1 ≤ num → linspace start stop num = Ok l →
  ∃ x, l !! 0%nat = Some x ∧ (x == start)%Q.
Proof.
  intros Hnum Hl.
  assert (0 ≤ num) as H0 by lia.
  destruct (linspace_cases _ _ _ _ H0 Hl) as [[? _]|[[_ ->]|H2]]; [lia| |].
  - eexists; split; [done|]. lra.
  - rewrite (linspace_lookup _ _ _ _ 0%nat H2 Hl).
    destruct (decide (0 < Z.to_nat num - 1)%nat); [|lia].
    eexists; split; [done|].
    change (inject_Z (Z.of_nat 0)) with 0%Q.
    generalize ((stop - start) / inject_Z (num - 1))%Q. intros step. lra.
Qed.

Lemma linspace_last (start stop : Q) (num : Z) (l : list Q) :
  2 ≤ num → linspace start stop num = Ok l → last l = Some stop.
Proof.
  intros Hnum Hl.
  destruct (linspace_ok start stop num) as (l' & Hl' & Hlen); [lia|].
  rewrite Hl in Hl'. apply Ok_inj in Hl' as <-.
  rewrite last_lookup, Hlen.
  rewrite (linspace_lookup _ _ _ _ _ Hnum Hl).
  rewrite decide_False by lia. rewrite decide_True by lia. done.
Qed.

Lemma last_y_cons (y0 : Q) (p : Q * Q) (pts : list (Q * Q)) :
  last_y y0 (p :: pts) = last_y p.2 pts.
Proof.
  unfold last_y. rewrite last_cons.
  destruct p as [x y]. by destruct (last pts) as [[? ?]|].
Qed.

Lemma chord_facts (x0 y0 x1 y1 x x' : Q) :
  (x0 < x1)%Q → (y0 <= y1)%Q → (x0 <= x)%Q → (x <= x')%Q → (x' <= x1)%Q →
  let c := λ x : Q, ((y1 - y0) / (x1 - x0) * (x - x0) + y0)%Q in
  (y0 <= c x)%Q ∧ (c x <= c x')%Q ∧ (c x' <= y1)%Q.
Proof.
  intros Hx01 Hy01 Hx Hxx' Hx' c. unfold c.
  assert (0 <= (y1 - y0) / (x1 - x0))%Q as Hs.
  { apply Qle_shift_div_l; lra. }
  assert ((y1 - y0) / (x1 - x0) * (x1 - x0) == y1 - y0)%Q as Hd.
  { field. lra. }
  set (s := ((y1 - y0) / (x1 - x0))%Q) in *.
  repeat split; nra.
Qed.

Lemma chain_last_y (x0 y0 : Q) (pts : list (Q * Q)) :
  chain x0 y0 pts → (y0 <= last_y y0 pts)%Q.
Proof.
  revert x0 y0. induction pts as [|[x1 y1] pts IH]; intros x0 y0 Hc.
  - unfold last_y; simpl. lra.
  - destruct Hc as (_ & Hy01 & Hc). rewrite last_y_cons. simpl.
    specialize (IH x1 y1 Hc). lra.
Qed.

Lemma interp_from_bounds (x x0 y0 : Q) (pts : list (Q * Q)) :
  chain x0 y0 pts → (x0 <= x)%Q →
  (y0 <= interp_from x x0 y0 pts <= last_y y0 pts)%Q.
Proof.
  revert x0 y0. induction pts as [|[x1 y1] pts IH]; intros x0 y0 Hc Hx; simpl.
  - unfold last_y; simpl. lra.
  - destruct Hc as (Hx01 & Hy01 & Hc). rewrite last_y_cons. simpl.
    pose proof (chain_last_y x1 y1 pts Hc) as Hlast.
    destruct (Qlt_le_dec x x1) as [Hlt|Hge].
    + destruct (chord_facts x0 y0 x1 y1 x x) as (? & _ & ?); [lra..|]. lra.
    + destruct (IH x1 y1 Hc Hge). lra.
Qed.

Lemma interp_from_mono (x x' x0 y0 : Q) (pts : list (Q * Q)) :
  chain x0 y0 pts → (x0 <= x)%Q → (x <= x')%Q →
  (interp_from x x0 y0 pts <= interp_from x' x0 y0 pts)%Q.
Proof.
  revert x0 y0. induction pts as [|[x1 y1] pts IH]; intros x0 y0 Hc Hx Hxx'; simpl.
  - lra.
  - destruct Hc as (Hx01 & Hy01 & Hc).
    destruct (Qlt_le_dec x x1) as [Hlt|Hge], (Qlt_le_dec x' x1) as [Hlt'|Hge'].
    + destruct (chord_facts x0 y0 x1 y1 x x') as (_ & ? & _); [lra..|]. done.
    + destruct (chord_facts x0 y0 x1 y1 x x) as (_ & _ & ?); [lra..|].
      destruct (interp_from_bounds x' x1 y1 pts Hc Hge'). lra.
    + lra.
    + by apply IH.
Qed.

Lemma interp_from_start (x x0 y0 : Q) (pts : list (Q * Q)) :
  chain x0 y0 pts → (x == x0)%Q → (interp_from x x0 y0 pts == y0)%Q.
Proof.
  destruct pts as [|[x1 y1] pts]; simpl; [reflexivity|].
  intros (Hx01 & _ & _) Hx.
  destruct (Qlt_le_dec x x1) as [_|?]; [|lra].
  generalize ((y1 - y0) / (x1 - x0))%Q. intros s. nra.
Qed.

Lemma interp_from_end (x x0 y0 : Q) (pts : list (Q * Q)) :
  Forall (λ p, (p.1 <= x)%Q) pts → interp_from x x0 y0 pts = last_y y0 pts.
Proof.
  revert x0 y0. induction pts as [|[x1 y1] pts IH]; intros x0 y0 Hall; simpl.
  - done.
  - apply Forall_cons in Hall as [H1 Hall]. simpl in H1.
    rewrite last_y_cons. simpl.
    destruct (Qlt_le_dec x x1) as [?|_]; [lra|]. by apply IH.
Qed.

Lemma nondecreasing_tail (x : Q) (l : list Q) :
  nondecreasing (x :: l) → nondecreasing l.
Proof. intros H i j a b Hij Ha Hb. apply (H (S i) (S j)); [lia|done..]. Qed.

Lemma increasing_tail (x : Q) (l : list Q) : increasing (x :: l) → increasing l.
Proof. intros H i j a b Hij Ha Hb. apply (H (S i) (S j)); [lia|done..]. Qed.

Lemma nondecreasing_cons (x y : Q) (l : list Q) :
  (x <= y)%Q → nondecreasing (y :: l) → nondecreasing (x :: y :: l).
Proof.
  intros Hxy H i j a b Hij Ha Hb.
  destruct i as [|i], j as [|j]; simpl in *.
  - injection Ha as <-. injection Hb as <-. lra.
  - injection Ha as <-.
    assert (y <= b)%Q; [|lra].
    apply (H 0%nat j); [lia|done..].
  - lia.
  - apply (H i j); [lia|done..].
Qed.

Lemma nondecreasing_map (f : Q → Q) (l : list Q) :
  (∀ a b, (a <= b)%Q → (f a <= f b)%Q) → nondecreasing l → nondecreasing (map f l).
Proof.
  intros Hf H i j a b Hij Ha Hb.
  rewrite list_lookup_fmap in Ha, Hb.
  destruct (l !! i) as [a'|] eqn:Ea; [|done].
  destruct (l !! j) as [b'|] eqn:Eb; [|done].
  injection Ha as <-. injection Hb as <-.
  apply Hf. by apply (H i j).
Qed.

Lemma chain_zip (x0 y0 : Q) (xs ys : list Q) :
  increasing (x0 :: xs) → nondecreasing (y0 :: ys) → chain x0 y0 (zip xs ys).
Proof.
  revert x0 y0 ys. induction xs as [|x1 xs IH]; intros x0 y0 [|y1 ys] Hx Hy; simpl; try done.
  split; [|split].
  - by apply (Hx 0%nat 1%nat); [lia|..].
  - by apply (Hy 0%nat 1%nat); [lia|..].
  - apply IH; [by eapply increasing_tail|by eapply nondecreasing_tail].
Qed.

Lemma linspace_increasing (start stop : Q) (num : Z) (l : list Q) :
  (start < stop)%Q → linspace start stop num = Ok l → increasing l.
Proof.
  intros Hs Hl i j x y Hij Hx Hy.
  assert (0 ≤ num) as Hnum.
  { unfold linspace in Hl. destruct (decide (num < 0)); [done|lia]. }
  destruct (linspace_cases _ _ _ _ Hnum Hl) as [[_ ->]|[[_ ->]|H2]]; [done| |].
  - destruct i, j; try done. lia.
  - rewrite (linspace_lookup _ _ _ _ i H2 Hl) in Hx.
    rewrite (linspace_lookup _ _ _ _ j H2 Hl) in Hy.
    assert (0 < inject_Z (num - 1))%Q as Hk.
    { assert (0 < num - 1) as Hk by lia. by rewrite Zlt_Qlt in Hk. }
    assert (0 < (stop - start) / inject_Z (num - 1))%Q as Hstep.
    { apply Qlt_shift_div_l; [done|]. lra. }
    assert (inject_Z (num - 1) * ((stop - start) / inject_Z (num - 1)) == stop - start)%Q
      as Hd by (field; lra).
    assert (inject_Z (Z.of_nat i) < inject_Z (Z.of_nat j))%Q as Hij'.
    { rewrite <- Zlt_Qlt. lia. }
    set (step := ((stop - start) / inject_Z (num - 1))%Q) in *.
    destruct (decide (j < Z.to_nat num - 1)%nat) as [Hj|Hj].
    + destruct (decide (i < Z.to_nat num - 1)%nat); [|lia].
      injection Hx as <-. injection Hy as <-. nra.
    + destruct (decide (j = Z.to_nat num - 1)%nat); [|done].
      injection Hy as <-.
      destruct (decide (i < Z.to_nat num - 1)%nat) as [Hi|Hi]; [|lia].
      injection Hx as <-.
      assert (inject_Z (Z.of_nat i) < inject_Z (num - 1))%Q as Hik.
      { rewrite <- Zlt_Qlt. lia. }
      nra.
Qed.

Lemma cumsum_from_length (acc : Q) (l : list Q) :
  length (cumsum_from acc l) = length l.
Proof. revert acc. induction l; intros; simpl; [done|]. by rewrite IHl. Qed.

Lemma cumsum_length (l : list Q) : length (cumsum l) = length l.
Proof. destruct l; simpl; [done|]. by rewrite cumsum_from_length. Qed.

Lemma cumsum_from_nondecreasing (acc : Q) (l : list Q) :
  Forall (λ x, (0 <= x)%Q) l → nondecreasing (acc :: cumsum_from acc l).
Proof.
  revert acc. induction l as [|x l IH]; intros acc Hall; simpl.
  - intros [|i] [|j] a b Hij Ha Hb; try done. simpl in *.
    injection Ha as <-. injection Hb as <-. lra.
  - apply Forall_cons in Hall as [Hx Hall].
    apply nondecreasing_cons; [lra|]. by apply IH.
Qed.

Lemma cumsum_nondecreasing (l : list Q) :
  Forall (λ x, (0 <= x)%Q) l → nondecreasing (cumsum l).
Proof.
  destruct l as [|x l]; simpl.
  - by intros _ [|?] [|?].
  - intros Hall. apply Forall_cons in Hall as [_ Hall].
    by apply cumsum_from_nondecreasing.
Qed.

Lemma last_y_zip (y0 : Q) (xs ys : list Q) :
  length xs = length ys → Some (last_y y0 (zip xs ys)) = last (y0 :: ys).
Proof.
  revert y0 ys. induction xs as [|x xs IH]; intros y0 [|y ys] Hlen; try done.
  simpl zip. rewrite last_y_cons, last_cons_cons. simpl.
  apply IH. simpl in Hlen. lia.
Qed.

(** The table the audio path interpolates in. *)
Lemma audio_table (env xs : list Q) (total : Q) :
  env ≠ [] → Forall (λ x, (0 <= x)%Q) env →
  last (cumsum env) = Some total → (0 < total)%Q →
  linspace 0 (inject_Z (Z.of_nat (length env))) (Z.of_nat (length env)) = Ok xs →
  ∃ x0 e0 pts,
    zip xs (map (λ y, (y / total)%Q) (cumsum env)) = (x0, (e0 / total)%Q) :: pts ∧
    length xs = length env ∧
    (x0 == 0)%Q ∧ head env = Some e0 ∧ (0 <= e0 / total)%Q ∧
    chain x0 (e0 / total)%Q pts ∧ (last_y (e0 / total)%Q pts == 1)%Q ∧
    Forall (λ p, (p.1 <= inject_Z (Z.of_nat (length env)))%Q) pts.
Proof.
  intros Hne Hpos Hlast Htotal Hxs.
  destruct (linspace_ok 0 (inject_Z (Z.of_nat (length env))) (Z.of_nat (length env)))
    as (xs' & Hxs' & Hlen); [lia|].
  rewrite Hxs in Hxs'. apply Ok_inj in Hxs' as <-. rewrite Nat2Z.id in Hlen.
  assert (1 ≤ Z.of_nat (length env)) as H1.
  { destruct env; [done|]. simpl. lia. }
  assert (0 < inject_Z (Z.of_nat (length env)))%Q as HL.
  { change 0%Q with (inject_Z 0). rewrite <- Zlt_Qlt. lia. }
  pose proof (linspace_increasing _ _ _ _ HL Hxs) as Hinc.
  assert (Forall (λ x, (x <= inject_Z (Z.of_nat (length env)))%Q) xs) as Hub.
  { apply Forall_lookup. intros i x Hx.
    destruct (linspace_bounds _ _ _ _ i x (Qlt_le_weak _ _ HL) Hxs Hx). done. }
  destruct (linspace_head 0 _ _ _ H1 Hxs) as (x0 & Hx0 & Hx0eq).
  pose proof (cumsum_nondecreasing env Hpos) as Hmono.
  pose proof (cumsum_length env) as Hclen.
  destruct xs as [|x0' xs]; [done|]. injection Hx0 as ->.
  destruct env as [|e0 env]; [done|].
  apply Forall_cons in Hpos as [He0 Hpos].
  apply Forall_cons in Hub as [_ Hub].
  simpl cumsum in *. simpl map.
  set (ys0 := cumsum_from e0 env) in *.
  set (L := inject_Z (Z.of_nat (length (e0 :: env)))) in *.
  exists x0, e0, (zip xs (map (λ y, (y / total)%Q) ys0)).
  assert (∀ a b, (a <= b)%Q → (a / total <= b / total)%Q) as Hdiv.
  { intros a b Hab. apply Qle_shift_div_l; [done|].
    assert (a / total * total == a)%Q as -> by (field; lra). done. }
  assert (nondecreasing ((e0 / total)%Q :: map (λ y, (y / total)%Q) ys0)) as Hys.
  { by apply (nondecreasing_map (λ y, (y / total)%Q) (e0 :: ys0)). }
  assert (length xs = length (map (λ y, (y / total)%Q) ys0)) as Hlen'.
  { rewrite length_map. simpl in Hlen, Hclen. lia. }
  split; [done|]. split; [done|]. split; [done|]. split; [done|].
  split. { apply Qle_shift_div_l; [done|]. lra. }
  split. { by apply chain_zip. }
  split.
  - pose proof (last_y_zip (e0 / total)%Q _ _ Hlen') as Hly.
    change ((e0 / total)%Q :: map (λ y, (y / total)%Q) ys0)
      with (map (λ y, (y / total)%Q) (e0 :: ys0)) in Hly.
    rewrite fmap_last, Hlast in Hly. simpl in Hly.
    injection Hly as ->. field. lra.
  - apply Forall_forall. intros [x y] Hin.
    apply elem_of_zip_l in Hin. simpl.
    rewrite Forall_forall in Hub. by apply Hub.
Qed.

Lemma interp1_from (x x0 y0 : Q) (pts : list (Q * Q)) :
  (x0 <= x)%Q → interp1 x ((x0, y0) :: pts) = interp_from x x0 y0 pts.
Proof. intros Hx. simpl. destruct (Qlt_le_dec x x0); [lra|done]. Qed.

(** The values read off the table at the points of [linspace 0 L num]. *)
Lemma audio_values (x0 y0 L : Q) (pts : list (Q * Q)) (num : Z) (resized : list Q) :
  (x0 == 0)%Q → (0 <= y0)%Q → chain x0 y0 pts → (last_y y0 pts == 1)%Q →
  Forall (λ p, (p.1 <= L)%Q) pts → (0 <= L)%Q →
  linspace 0 L num = Ok resized →
  let ts := map (λ x, interp1 x ((x0, y0) :: pts)) resized in
  length ts = Z.to_nat num ∧
  Forall (λ t, (0 <= t <= 1)%Q) ts ∧
  nondecreasing ts ∧
  (1 ≤ num → ∃ t, head ts = Some t ∧ (t == y0)%Q) ∧
  (2 ≤ num → ∃ t, last ts = Some t ∧ (t == 1)%Q).
Proof.
  intros Hx0 Hy0 Hc Hlast Hub HL Hres ts.
  assert (0 ≤ num) as Hnum.
  { unfold linspace in Hres. destruct (decide (num < 0)); [done|lia]. }
  destruct (linspace_ok 0 L num Hnum) as (r' & Hr' & Hlen).
  rewrite Hres in Hr'. apply Ok_inj in Hr' as <-.
  assert (∀ i x, resized !! i = Some x → (x0 <= x)%Q) as Hge.
  { intros i x Hx. destruct (linspace_bounds _ _ _ _ i x HL Hres Hx). lra. }
  split; [by unfold ts; rewrite length_map|].
  split; [|split; [|split]].
  - apply Forall_lookup. intros i t Ht. unfold ts in Ht.
    rewrite list_lookup_fmap in Ht.
    destruct (resized !! i) as [x|] eqn:Ex; [|done].
    change (Some (interp1 x ((x0, y0) :: pts)) = Some t) in Ht.
    assert (t = interp1 x ((x0, y0) :: pts)) as -> by congruence.
    rewrite interp1_from by eauto.
    destruct (interp_from_bounds x x0 y0 pts Hc) as [? ?]; [eauto|]. lra.
  - intros i j a b Hij Ha Hb. unfold ts in Ha, Hb.
    rewrite list_lookup_fmap in Ha, Hb.
    destruct (resized !! i) as [x|] eqn:Ex; [|done].
    destruct (resized !! j) as [x'|] eqn:Ex'; [|done].
    change (Some (interp1 x ((x0, y0) :: pts)) = Some a) in Ha.
    change (Some (interp1 x' ((x0, y0) :: pts)) = Some b) in Hb.
    assert (a = interp1 x ((x0, y0) :: pts)) as -> by congruence.
    assert (b = interp1 x' ((x0, y0) :: pts)) as -> by congruence.
    rewrite !interp1_from by eauto.
    apply interp_from_mono; [done|eauto|].
    by apply (linspace_nondecreasing _ _ _ _ HL Hres i j).
  - intros H1. destruct (linspace_head _ _ _ _ H1 Hres) as (x & Hx & Hxeq).
    exists (interp1 x ((x0, y0) :: pts)). split.
    + unfold ts. destruct resized; [done|]. simpl in Hx. by injection Hx as ->.
    + rewrite interp1_from by lra. apply interp_from_start; [done|lra].
  - intros H2. pose proof (linspace_last _ _ _ _ H2 Hres) as Hl.
    exists (interp1 L ((x0, y0) :: pts)). split.
    + unfold ts. by rewrite fmap_last, Hl.
    + rewrite interp1_from by lra. by rewrite interp_from_end.
Qed.

End Numeric.

(** * The interpolation scheduler *)

Section SchedulerFacts.

Context {row gen rng : Type}.
Variable onset_strength : list Q → Z → result (list Q).
Variable normalize : list Q → result (list Q).

Local Abbreviation schedule := (@BYOP.get_interpolation_schedule row gen rng onset_strength normalize).

Lemma uniform_schedule (start_frame end_frame : nat) (fps : Z) (w : world row gen rng) :
  (start_frame ≤ end_frame)%nat →
  ∃ ts, schedule start_frame end_frame fps None w = (Ok (map Fin ts), w) ∧
        linspace 0 1 (Z.of_nat end_frame - Z.of_nat start_frame + 1) = Ok ts.
Proof.
  intros Hle.
  destruct (linspace_ok 0 1 (Z.of_nat end_frame - Z.of_nat start_frame + 1))
    as (ts & Hts & _); [lia|].
  exists ts. split; [|done].
  unfold BYOP.get_interpolation_schedule, bindM, lift, ret. by rewrite Hts.
Qed.

Lemma audio_schedule (start_frame end_frame : nat) (fps : Z)
    (audio_array : list Q) (sr a b : Z) (env0 env : list Q) (total : Q)
    (w : world row gen rng) :
  (start_frame ≤ end_frame)%nat →
  BYOP.frame_to_sample start_frame fps sr = Ok a →
  BYOP.frame_to_sample end_frame fps sr = Ok b →
  onset_strength (slice audio_array a b) sr = Ok env0 →
  normalize env0 = Ok env →
  last (cumsum env) = Some total → (0 < total)%Q →
  ∃ xs resized,
    linspace 0 (inject_Z (Z.of_nat (length env))) (Z.of_nat (length env)) = Ok xs ∧
    linspace 0 (inject_Z (Z.of_nat (length env)))
             (Z.of_nat end_frame - Z.of_nat start_frame + 1) = Ok resized ∧
    schedule start_frame end_frame fps (Some (audio_array, sr)) w =
      (Ok (map Fin (map (λ x, interp1 x (zip xs (map (λ y, (y / total)%Q) (cumsum env))))
                        resized)),
       World (generator w) (random_state w) (audio_slices w ++ [(a, b)]) (pipe_calls w)).
Proof.
  intros Hle Ha Hb Henv0 Henv Htotal Hpos.
  destruct (linspace_ok 0 (inject_Z (Z.of_nat (length env))) (Z.of_nat (length env)))
    as (xs & Hxs & Hxlen); [lia|].
  destruct (linspace_ok 0 (inject_Z (Z.of_nat (length env)))
              (Z.of_nat end_frame - Z.of_nat start_frame + 1))
    as (resized & Hres & _); [lia|].
  exists xs, resized. split; [done|]. split; [done|].
  unfold BYOP.get_interpolation_schedule, BYOP.get_interpolation_schedule_from_audio.
  unfold bindM, lift, ret, log_audio_slice. rewrite Ha, Hb. simpl.
  rewrite Henv0, Henv, Hxs. unfold BYOP.last_item. rewrite Htotal, Hres.
  destruct (Qeq_bool total 0) eqn:E.
  { apply Qeq_bool_eq in E. lra. }
  unfold interp. rewrite Nat2Z.id in Hxlen.
  rewrite decide_False; [done|].
  rewrite length_map, cumsum_length, Hxlen.
  intros [H0|?]; [|done].
  destruct env; [done|]. done.
Qed.

(** C2, as the code has it: in uniform and in audio-reactive mode alike the
    fractions of a pair [start_frame <= end_frame] are
    [end_frame - start_frame + 1] values in [0, 1], non-decreasing, the first
    one 0; the last one is 1 when [start_frame < end_frame]. *)
Theorem interpolation_fractions (start_frame end_frame : nat) (fps : Z)
    (audio : option (list Q * Z)) (w : world row gen rng) :
  (start_frame ≤ end_frame)%nat →
  extractor_ok onset_strength normalize start_frame end_frame fps audio →
  ∃ ts w',
    schedule start_frame end_frame fps audio w = (Ok (map Fin ts), w') ∧
    length ts = (end_frame - start_frame + 1)%nat ∧
    Forall in_unit_interval ts ∧
    nondecreasing ts ∧
    (∃ t, head ts = Some t ∧ (t == 0)%Q) ∧
    ((start_frame < end_frame)%nat → ∃ t, last ts = Some t ∧ (t == 1)%Q).
Proof.
  intros Hle Hext. destruct audio as [[audio_array sr]|].
  - destruct Hext as (a & b & env0 & env & e0 & total &
                      Ha & Hb & Henv0 & Henv & Hnonneg & Hhead & He0 & Htotal & Hpos).
    destruct (audio_schedule _ _ _ _ _ _ _ _ _ _ w Hle Ha Hb Henv0 Henv Htotal Hpos)
      as (xs & resized & Hxs & Hres & Hrun).
    assert (env ≠ []) as Hne by (by destruct env).
    destruct (audio_table env xs total Hne Hnonneg Htotal Hpos Hxs)
      as (x0 & e0' & pts & Hzip & Hlen & Hx0 & Hhead' & Hy0 & Hchain & Hlast & Hub).
    rewrite Hhead in Hhead'. injection Hhead' as <-.
    rewrite Hzip in Hrun.
    assert (0 <= inject_Z (Z.of_nat (length env)))%Q as HL.
    { change 0%Q with (inject_Z 0). rewrite <- Zle_Qle. lia. }
    destruct (audio_values x0 (e0 / total)%Q _ pts _ resized
                Hx0 Hy0 Hchain Hlast Hub HL Hres) as (Hl & Hb01 & Hmono & Hfirst & Hend).
    eexists _, _. split; [exact Hrun|].
    split; [rewrite Hl; lia|]. split; [done|]. split; [done|]. split.
    + destruct Hfirst as (t & Ht & Hteq); [lia|]. exists t. split; [done|].
      rewrite Hteq, He0. field. lra.
    + intros Hlt. apply Hend. lia.
  - destruct (uniform_schedule start_frame end_frame fps w Hle) as (ts & Hrun & Hts).
    exists ts, w. split; [done|].
    destruct (linspace_ok 0 1 (Z.of_nat end_frame - Z.of_nat start_frame + 1))
      as (ts' & Hts' & Hlen); [lia|].
    rewrite Hts in Hts'. apply Ok_inj in Hts' as <-.
    split; [lia|]. split; [|split; [|split]].
    + apply Forall_lookup. intros i t Ht.
      by eapply (linspace_bounds 0 1 _ ts i t).
    + by eapply (linspace_nondecreasing 0 1 _ ts).
    + assert (1 ≤ Z.of_nat end_frame - Z.of_nat start_frame + 1) as H1 by lia.
      destruct (linspace_head 0 1 _ ts H1 Hts) as (t & Ht & Hteq).
      exists t. split; [|done]. by destruct ts.
    + intros Hlt. exists 1%Q. split; [|reflexivity].
      eapply (linspace_last 0 1 _ ts); [|done]. lia.
Qed.

(** C5: the audio path has no guard for a degenerate pair and no error of
    its own for a slice too short.  With an audio source the slice
    [audio_array[start_sample:end_sample]] of every pair is taken and handed
    to the onset extractor, and it is empty when [start_frame = end_frame];
    when the envelope that comes back sums to zero (as the one of an empty
    slice does) the division by [schedule_y[-1]] makes every fraction NaN,
    and the scheduler returns them normally.  Only without an audio source
    is the schedule of a degenerate pair [[0]], with no slice taken. *)
Theorem silent_slice_gives_nan (start_frame end_frame : nat) (fps : Z)
    (audio_array : list Q) (sr a b : Z) (env0 env : list Q) (total : Q)
    (w : world row gen rng) :
  (start_frame ≤ end_frame)%nat →
  BYOP.frame_to_sample start_frame fps sr = Ok a →
  BYOP.frame_to_sample end_frame fps sr = Ok b →
  onset_strength (slice audio_array a b) sr = Ok env0 →
  normalize env0 = Ok env →
  last (cumsum env) = Some total → (total == 0)%Q →
  schedule start_frame end_frame fps (Some (audio_array, sr)) w =
    (Ok (replicate (end_frame - start_frame + 1) NonFin),
     World (generator w) (random_state w) (audio_slices w ++ [(a, b)]) (pipe_calls w)) ∧
  (start_frame = end_frame → slice audio_array a b = []) ∧
  schedule start_frame start_frame fps None w = (Ok [Fin 0], w).
Proof.
  intros Hle Ha Hb Henv0 Henv Htotal Hzero. split; [|split].
  - destruct (linspace_ok 0 (inject_Z (Z.of_nat (length env))) (Z.of_nat (length env)))
      as (xs & Hxs & _); [lia|].
    destruct (linspace_ok 0 (inject_Z (Z.of_nat (length env)))
                (Z.of_nat end_frame - Z.of_nat start_frame + 1))
      as (resized & Hres & Hlen); [lia|].
    unfold BYOP.get_interpolation_schedule, BYOP.get_interpolation_schedule_from_audio.
    unfold bindM, lift, ret, log_audio_slice. rewrite Ha, Hb. simpl.
    rewrite Henv0, Henv, Hxs. unfold BYOP.last_item. rewrite Htotal, Hres.
    apply Qeq_bool_iff in Hzero. rewrite Hzero.
    do 2 f_equal.
    replace (end_frame - start_frame + 1)%nat with (length resized) by lia.
    clear. induction resized as [|x l IH]; simpl; [done|]. by rewrite IH.
  - intros <-. rewrite Ha in Hb. injection Hb as <-.
    unfold slice. by rewrite Nat.sub_diag.
  - unfold BYOP.get_interpolation_schedule, bindM, lift, ret.
    replace (Z.of_nat start_frame - Z.of_nat start_frame + 1) with 1 by lia.
    reflexivity.
Qed.

End SchedulerFacts.

Lemma interpolation_fractions_witness :
  ∃ ts w',
    BYOP.get_interpolation_schedule Stub.onset_strength Stub.normalize
      0 2 10 (Some (Stub.toy_audio, 20)) Stub.w0 = (Ok (map Fin ts), w') ∧
    length ts = 3%nat ∧
    Forall in_unit_interval ts ∧
    nondecreasing ts ∧
    (∃ t, head ts = Some t ∧ (t == 0)%Q) ∧
    ((0 < 2)%nat → ∃ t, last ts = Some t ∧ (t == 1)%Q).
Proof.
  apply (interpolation_fractions Stub.onset_strength Stub.normalize
           0 2 10 (Some (Stub.toy_audio, 20)) Stub.w0).
  - lia.
  - exists 0, 4, [0; 1; 4; 9; 16]%Q, [0; 1; 4; 9; 16]%Q, 0%Q, 30%Q.
    repeat split; try reflexivity.
    repeat constructor; by vm_compute.
Defined.

(** C2 fails as stated: the fractions of a degenerate pair are [[0]], whose
    last value is 0. *)
Lemma degenerate_pair_ends_at_zero :
  ∃ ts,
    BYOP.get_interpolation_schedule Stub.onset_strength Stub.normalize
      3 3 10 None Stub.w0 = (Ok (map Fin ts), Stub.w0) ∧
    length ts = (3 - 3 + 1)%nat ∧ last ts = Some 0%Q ∧ ¬ (0 == 1)%Q.
Proof. exists [0%Q]. repeat split. by vm_compute. Qed.

Lemma silent_slice_gives_nan_witness :
  BYOP.get_interpolation_schedule Stub.onset_strength Stub.normalize
    3 3 10 (Some (Stub.toy_audio, 20)) Stub.w0 =
    (Ok (replicate (3 - 3 + 1) NonFin),
     World (generator Stub.w0) (random_state Stub.w0)
           (audio_slices Stub.w0 ++ [(6, 6)]) (pipe_calls Stub.w0)) ∧
  ((3 = 3)%nat → slice Stub.toy_audio 6 6 = []) ∧
  BYOP.get_interpolation_schedule Stub.onset_strength Stub.normalize
    3 3 10 None Stub.w0 = (Ok [Fin 0], Stub.w0).
Proof.
  apply (silent_slice_gives_nan Stub.onset_strength Stub.normalize
           3 3 10 Stub.toy_audio 20 6 6 [0%Q] [0%Q] 0%Q Stub.w0);
    [lia|reflexivity..].
Defined.

(** * The seed schedules *)

Section SeedFacts.

Context {row gen rng : Type}.
Variable random_seed : Z → rng.
Variable random_randint : Z → Z → rng → Z * rng.

Lemma draws_length {A} (f : rng → A * rng) (n : nat) (r : rng) :
  length (draws f n r).1 = n.
Proof.
  revert r. induction n as [|n IH]; intros r; simpl; [done|].
  destruct (f r) as [x r']. specialize (IH r').
  destruct (draws f n r') as [xs r'']. simpl in *. by rewrite IH.
Qed.

Lemma draws_Forall {A} (f : rng → A * rng) (P : A → Prop) (n : nat) (r : rng) :
  (∀ r, P (f r).1) → Forall P (draws f n r).1.
Proof.
  intros Hf. revert r. induction n as [|n IH]; intros r; simpl; [done|].
  pose proof (Hf r) as Hx. destruct (f r) as [x r']. specialize (IH r').
  destruct (draws f n r') as [xs r'']. simpl in *. by constructor.
Qed.

Lemma mapM_draw_random {A B} (f : rng → A * rng) (l : list B) (w : world row gen rng) :
  mapM (λ _ : B, draw_random f) l w =
    (Ok (draws f (length l) (random_state w)).1,
     World (generator w) (draws f (length l) (random_state w)).2
           (audio_slices w) (pipe_calls w)).
Proof.
  revert w. induction l as [|b l IH]; intros w; simpl.
  - by destruct w.
  - unfold bindM at 1. unfold draw_random at 1.
    destruct (f (random_state w)) as [x r'].
    unfold bindM at 1. rewrite IH. simpl.
    by destruct (draws f (length l) r') as [xs r''].
Qed.

Lemma byop_seed_schedule_run (seed : Z) (n : nat) (w : world row gen rng) :
  BYOP.make_seed_schedule random_seed random_randint seed n w =
    (Ok (draws (random_randint 0 18446744073709551615) n (random_seed seed)).1,
     World (generator w)
           (draws (random_randint 0 18446744073709551615) n (random_seed seed)).2
           (audio_slices w) (pipe_calls w)).
Proof.
  unfold BYOP.make_seed_schedule, bindM, set_random_state.
  rewrite mapM_draw_random. unfold range. by rewrite length_seq.
Qed.

(** C4: two constructions of the seed schedule with the same master seed and
    frame count give the same seeds, whatever state the [random] module was
    in before each of them; each is a list of [n] seeds. *)
Theorem seed_schedule_deterministic (seed : Z) (n : nat) (w1 w2 : world row gen rng) :
  ∃ seeds : list Z,
    (BYOP.make_seed_schedule random_seed random_randint seed n w1).1 = Ok seeds ∧
    (BYOP.make_seed_schedule random_seed random_randint seed n w2).1 = Ok seeds ∧
    length seeds = n.
Proof.
  rewrite !byop_seed_schedule_run. simpl.
  eexists. split; [done|]. split; [done|]. apply draws_length.
Qed.

(** X13: The schedule of [BYOPFlow] holds one unsigned 64-bit seed per frame when
    [random.randint] keeps to its bounds. *)
Lemma byop_seed_schedule_complete (seed : Z) (n : nat) (w : world row gen rng) :
  (∀ a b r, a ≤ b → a ≤ (random_randint a b r).1 ≤ b) →
  ∃ seeds : list Z,
    (BYOP.make_seed_schedule random_seed random_randint seed n w).1 = Ok seeds ∧
    length seeds = n ∧
    ∀ frame_idx, (frame_idx < n)%nat →
      ∃ s, seeds !! frame_idx = Some s ∧ 0 ≤ s ≤ 18446744073709551615.
Proof.
  intros Hrange. rewrite byop_seed_schedule_run. simpl.
  eexists. split; [done|].
  pose proof (draws_length (random_randint 0 18446744073709551615) n (random_seed seed))
    as Hlen.
  split; [done|]. intros i Hi.
  destruct (lookup_lt_is_Some_2
              (draws (random_randint 0 18446744073709551615) n (random_seed seed)).1 i)
    as [s Hs]; [lia|].
  exists s. split; [done|].
  pose proof (draws_Forall (random_randint 0 18446744073709551615)
                (λ s, 0 ≤ s ≤ 18446744073709551615) n (random_seed seed)) as Hall.
  rewrite Forall_lookup in Hall. eapply Hall; [|done].
  intros r. by apply Hrange.
Qed.

(** The schedule of [GiffusionFlow] is keyed by the keyframes alone. *)
Lemma giffusion_seed_schedule_loop_dom (kfs : list (nat * string))
    (output : gmap nat Z) (w : world row gen rng) :
  ∃ m w', Giffusion.seed_schedule_loop random_randint kfs output w = (Ok m, w') ∧
          dom m = dom output ∪ list_to_set (kfs.*1).
Proof.
  revert output w. induction kfs as [|[kf p] kfs IH]; intros output w; simpl.
  - exists output, w. split; [done|]. set_solver.
  - unfold bindM at 1. unfold draw_random at 1.
    destruct (random_randint 0 18446744073709551615 (random_state w)) as [s r'].
    destruct (IH (<[kf := s]> output)
                 (World (generator w) r' (audio_slices w) (pipe_calls w)))
      as (m & w' & Hrun & Hdom).
    exists m, w'. split; [done|]. rewrite Hdom, dom_insert_L. set_solver.
Qed.

Lemma giffusion_seed_schedule_dom (seed : Z) (kfs : list (nat * string))
    (w : world row gen rng) :
  ∃ m w', Giffusion.make_seed_schedule random_seed random_randint seed kfs w = (Ok m, w') ∧
          dom m = list_to_set (kfs.*1).
Proof.
  unfold Giffusion.make_seed_schedule, bindM, set_random_state.
  destruct (giffusion_seed_schedule_loop_dom kfs ∅
              (World (generator w) (random_seed seed) (audio_slices w) (pipe_calls w)))
    as (m & w' & Hrun & Hdom).
  exists m, w'. split; [done|]. rewrite Hdom. set_solver.
Qed.

End SeedFacts.

(** C3 on [GiffusionFlow]: for the keyframes [0: A, 5: B] (six frames) the
    seed schedule, whatever the random source, has entries for the frames 0
    and 5 only; a run with batches of one frame yields the batch of frame 0
    and ends with [KeyError] at frame 1. *)
Theorem giffusion_seed_schedule_misses_frames :
  (∀ (rng : Type) (random_seed : Z → rng) (random_randint : Z → Z → rng → Z * rng)
     (seed : Z) (w : world Z Z rng),
     ∃ m w',
       Giffusion.make_seed_schedule random_seed random_randint seed
         [(0%nat, "A"); (5%nat, "B")] w = (Ok m, w') ∧
       size m = 2%nat ∧ m !! 1%nat = None) ∧
  ∃ self w' b,
    Stub.giffusion_init (Stub.giffusion 1) [(0%nat, "A"); (5%nat, "B")] Stub.w0
      = (Ok self, w') ∧
    Giffusion.max_frames self = 6%nat ∧
    Giffusion.create_batches Stub.manual_seed self None = ([b], Some (KeyError 1)).
Proof.
  split.
  - intros rng random_seed random_randint seed w.
    destruct (giffusion_seed_schedule_dom (row := Z) (gen := Z) random_seed random_randint seed
                [(0%nat, "A"); (5%nat, "B")] w) as (m & w' & Hrun & Hdom).
    exists m, w'. split; [done|]. split.
    + rewrite <- size_dom, Hdom. by vm_compute.
    + apply not_elem_of_dom. rewrite Hdom. set_solver.
  - eexists _, _, _. split; [by vm_compute|]. split; by vm_compute.
Qed.

(** * Forward-filled prompts *)

Section PromptFacts.

Context {row gen : Type}.
Local Abbreviation value := (value row gen).

Lemma assign_prompts_length (series : list value) (kfs : list (nat * string)) :
  length (assign_prompts series kfs) = length series.
Proof.
  revert series. induction kfs as [|[f p] kfs IH]; intros series; simpl; [done|].
  unfold assign_prompts in *. simpl. by rewrite IH, length_insert.
Qed.

Lemma assign_prompts_other (series : list value) (kfs : list (nat * string)) (j : nat) :
  j ∉ kfs.*1 → assign_prompts series kfs !! j = series !! j.
Proof.
  revert series. induction kfs as [|[f p] kfs IH]; intros series Hj; [done|].
  unfold assign_prompts in *. simpl in *.
  apply not_elem_of_cons in Hj as [Hne Hj].
  rewrite IH by done. by apply list_lookup_insert_ne.
Qed.

Lemma assign_prompts_keyframe (series : list value) (kfs : list (nat * string))
    (f : nat) (p : string) :
  NoDup (kfs.*1) → (f < length series)%nat → (f, p) ∈ kfs →
  assign_prompts series kfs !! f = Some (VStr p).
Proof.
  revert series. induction kfs as [|[f0 p0] kfs IH]; intros series Hnd Hlen Hin.
  - by apply elem_of_nil in Hin.
  - simpl in Hnd. apply NoDup_cons in Hnd as [Hf0 Hnd].
    unfold assign_prompts in *. simpl.
    apply elem_of_cons in Hin as [Heq|Hin].
    + injection Heq as -> ->.
      fold (assign_prompts (<[f0:=VStr p0]> series) kfs).
      rewrite assign_prompts_other by done.
      by apply list_lookup_insert_eq.
    + apply IH; [done| |done]. by rewrite length_insert.
Qed.

Lemma ffill_from_length (prev : value) (l : list value) :
  length (BYOP.ffill_from prev l) = length l.
Proof. revert prev. induction l; intros; simpl; [done|]. by rewrite IHl. Qed.

(** Before any value has been seen a cell keeps the value carried in. *)
Lemma ffill_from_gap (prev : value) (l : list value) (i : nat) :
  (i < length l)%nat →
  (∀ k v, (k ≤ i)%nat → l !! k = Some v → BYOP.isna v = true) →
  BYOP.ffill_from prev l !! i = Some prev.
Proof.
  revert prev i. induction l as [|v l IH]; intros prev i Hi Hna; simpl in *; [lia|].
  assert (BYOP.isna v = true) as Hv by (by apply (Hna 0%nat); [lia|]).
  rewrite Hv. destruct i as [|i]; [done|]. simpl.
  apply IH; [lia|]. intros k u Hk Hu. apply (Hna (S k)); [lia|done].
Qed.

(** A cell takes the last value at or before it. *)
Lemma ffill_from_last (prev : value) (l : list value) (j i : nat) (v : value) :
  (j ≤ i)%nat → (i < length l)%nat →
  l !! j = Some v → BYOP.isna v = false →
  (∀ k u, (j < k ≤ i)%nat → l !! k = Some u → BYOP.isna u = true) →
  BYOP.ffill_from prev l !! i = Some v.
Proof.
  revert prev j i. induction l as [|u l IH]; intros prev j i Hji Hi Hj Hv Hna;
    simpl in *; [lia|].
  destruct j as [|j].
  - injection Hj as ->. rewrite Hv.
    destruct i as [|i]; [done|]. simpl.
    apply ffill_from_gap; [lia|].
    intros k u Hk Hu. apply (Hna (S k)); [lia|done].
  - destruct i as [|i]; [lia|]. simpl.
    apply (IH _ j); [lia|lia|done|done|].
    intros k u' Hk Hu. apply (Hna (S k)); [lia|done].
Qed.

(** [output[frame_idx] = prompt] over [enumerate(series)]. *)
Lemma enumerate_fold_lookup {A} (l : list A) (k : nat) (m : gmap nat A) (j : nat) :
  foldl (λ output '(frame_idx, x), <[frame_idx := x]> output) m
        (zip (seq k (length l)) l) !! j =
    if decide (k ≤ j < k + length l)%nat then l !! (j - k)%nat else m !! j.
Proof.
  revert k m. induction l as [|x l IH]; intros k m; simpl.
  - rewrite decide_False by lia. done.
  - rewrite IH. destruct (decide (S k ≤ j < S k + length l)%nat) as [H|H].
    + rewrite decide_True by lia.
      replace (j - k)%nat with (S (j - S k)) by lia. done.
    + destruct (decide (j = k)) as [->|Hne].
      * rewrite decide_True by lia. rewrite Nat.sub_diag. simpl.
        by rewrite lookup_insert_eq.
      * rewrite decide_False by lia. by rewrite lookup_insert_ne.
Qed.

Lemma get_prompts_lookup (self : BYOP.BYOPFlow row gen)
    (key_frames : list (nat * string)) (i : nat) :
  BYOP.get_prompts self key_frames !! i =
    BYOP.ffill (assign_prompts (replicate (BYOP.max_frames self) VNaN) key_frames) !! i.
Proof.
  unfold BYOP.get_prompts, enumerate. rewrite enumerate_fold_lookup.
  rewrite Nat.sub_0_r. fold (assign_prompts (replicate (BYOP.max_frames self) (VNaN : value)) key_frames).
  destruct (decide (0 ≤ i < 0 + _)%nat) as [H|H]; [done|].
  rewrite lookup_empty. symmetry. apply lookup_ge_None. lia.
Qed.

(** C9: in raw-prompt mode a frame resolves to the prompt of the nearest
    keyframe at or before it. *)
Theorem forward_fill_prompts (self : BYOP.BYOPFlow row gen)
    (key_frames : list (nat * string)) (i f : nat) (p : string) :
  BYOP.frame_count key_frames = Ok (BYOP.max_frames self) →
  NoDup (key_frames.*1) →
  (i < BYOP.max_frames self)%nat →
  (f, p) ∈ key_frames → (f ≤ i)%nat →
  (∀ f' p', (f', p') ∈ key_frames → (f' ≤ i)%nat → (f' ≤ f)%nat) →
  BYOP.get_prompts self key_frames !! i = Some (VStr p).
Proof.
  intros Hmax Hnd Hi Hin Hfi Hnearest.
  rewrite get_prompts_lookup. unfold BYOP.ffill.
  set (series := replicate (BYOP.max_frames self) (VNaN : value)).
  assert (length series = BYOP.max_frames self) as Hlen by apply length_replicate.
  apply (ffill_from_last _ _ f).
  - done.
  - by rewrite assign_prompts_length, Hlen.
  - apply assign_prompts_keyframe; [done|lia|done].
  - done.
  - intros k u Hk Hu.
    destruct (decide (k ∈ key_frames.*1)) as [Hkin|Hkin].
    + apply list_elem_of_fmap in Hkin as ([f' p'] & -> & Hin'). simpl in Hk.
      specialize (Hnearest f' p' Hin' ltac:(lia)). lia.
    + rewrite assign_prompts_other in Hu by done.
      apply lookup_replicate in Hu as [-> _]. done.
Qed.

(** X14: A frame before the first keyframe has no prompt: its cell stays NaN. *)
Lemma forward_fill_before_first (self : BYOP.BYOPFlow row gen)
    (key_frames : list (nat * string)) (i : nat) :
  (i < BYOP.max_frames self)%nat →
  (∀ f p, (f, p) ∈ key_frames → (i < f)%nat) →
  BYOP.get_prompts self key_frames !! i = Some VNaN.
Proof.
  intros Hi Hbefore. rewrite get_prompts_lookup. unfold BYOP.ffill.
  apply ffill_from_gap.
  - by rewrite assign_prompts_length, length_replicate.
  - intros k v Hk Hv. rewrite assign_prompts_other in Hv.
    + apply lookup_replicate in Hv as [-> _]. done.
    + intros Hkin. apply list_elem_of_fmap in Hkin as ([f p] & -> & Hin).
      specialize (Hbefore f p Hin). simpl in Hk. lia.
Qed.

End PromptFacts.

(** * The batcher *)

Section ChunkFacts.

Context {A : Type}.
Implicit Types (l c : list A) (b : nat).

Lemma chunks_short b l : (length l < b)%nat → chunks b l = [].
Proof. intros H. unfold chunks. by rewrite Nat.div_small. Qed.

Lemma chunks_full b c l :
  (0 < b)%nat → length c = b → chunks b (c ++ l) = c :: chunks b l.
Proof.
  intros Hb Hc. unfold chunks. rewrite length_app, Hc.
  replace ((b + length l) / b)%nat with (S (length l / b)).
  2:{ replace (b + length l)%nat with (1 * b + length l)%nat by lia.
      rewrite Nat.div_add_l by lia. lia. }
  simpl seq. simpl map. f_equal.
  - rewrite drop_0. by rewrite take_app_length'.
  - rewrite <- fmap_S_seq. rewrite <- list_fmap_compose.
    apply list_fmap_ext. intros _ k _. simpl.
    replace (b + k * b)%nat with (length c + k * b)%nat by lia.
    by rewrite drop_app_add.
Qed.

Lemma chunks_length b l : length (chunks b l) = (length l / b)%nat.
Proof. unfold chunks. by rewrite length_map, length_seq. Qed.

Lemma chunks_lookup b l k :
  (k < length l / b)%nat → chunks b l !! k = Some (take b (drop (k * b) l)).
Proof.
  intros Hk. unfold chunks. rewrite list_lookup_fmap, lookup_seq_lt by done. done.
Qed.

Lemma chunks_each_full b l c : (0 < b)%nat → c ∈ chunks b l → length c = b.
Proof.
  intros Hb Hin. unfold chunks in Hin.
  apply list_elem_of_fmap in Hin as (k & -> & Hk).
  apply elem_of_seq in Hk as [_ Hk]. simpl in Hk.
  rewrite length_take, length_drop.
  assert (b * (length l / b) ≤ length l)%nat by (apply Nat.Div0.mul_div_le).
  nia.
Qed.

Lemma chunks_subseteq b l c : c ∈ chunks b l → c ⊆ l.
Proof.
  intros Hin. unfold chunks in Hin.
  apply list_elem_of_fmap in Hin as (k & -> & _).
  etrans; [apply subseteq_take|apply subseteq_drop].
Qed.

(** The chunks cover the first [b * (length l / b)] items and nothing else. *)
Lemma chunks_concat b l :
  (0 < b)%nat → concat (chunks b l) = take (b * (length l / b)) l.
Proof.
  intros Hb. remember (length l / b)%nat as n eqn:Hn.
  revert l Hn. induction n as [|n IH]; intros l Hn.
  - rewrite chunks_short; [by rewrite Nat.mul_0_r, take_0|].
    destruct (decide (length l < b)%nat); [done|].
    assert (1 ≤ length l / b)%nat; [|lia].
    apply Nat.div_le_lower_bound; lia.
  - assert (b * (length l / b) ≤ length l)%nat by (apply Nat.Div0.mul_div_le).
    rewrite <- (take_drop b l) at 1.
    rewrite chunks_full; [|done|rewrite length_take; nia].
    simpl. rewrite IH.
    + rewrite <- (take_drop b l) at 3.
      rewrite take_app_ge by (rewrite length_take; nia).
      rewrite length_take. f_equal. f_equal. nia.
    + rewrite length_drop.
      assert (length l = b * 1 + (length l - b))%nat as Hl by nia.
      rewrite Hl, Nat.mul_comm, Nat.div_add_l in Hn by lia. lia.
Qed.

End ChunkFacts.

Section BYOPBatchFacts.

Context {row gen : Type}.
Local Abbreviation tensor := (tensor row).
Local Abbreviation value := (value row gen).
Implicit Types (self : BYOP.BYOPFlow row gen).

Lemma omap_snoc {B C} (f : B → option C) (l : list B) (x : B) (y : C) :
  f x = Some y → omap f (l ++ [x]) = omap f l ++ [y].
Proof. intros H. rewrite omap_app. simpl. by rewrite H. Qed.

Lemma omap_length_all {B C} (f : B → option C) (l : list B) :
  Forall (λ x, is_Some (f x)) l → length (omap f l) = length l.
Proof.
  induction 1 as [|x l [y Hy] _ IH]; simpl; [done|]. rewrite Hy. simpl. f_equal. exact IH.
Qed.

Lemma concat_singletons {B} (l : list B) : concat (map (λ x, [x]) l) = l.
Proof. induction l; simpl; [done|]. by f_equal. Qed.

Lemma cat_tensors (vs : list value) :
  Forall (λ v, is_Some (as_tensor v)) vs → cat vs = Ok (concat (omap as_tensor vs)).
Proof.
  induction 1 as [|v vs [t Ht] _ IH]; simpl; [done|].
  destruct v; try done. simpl in Ht. injection Ht as ->. by rewrite IH.
Qed.

Lemma batch_loop_chunks self (b : nat) (rest pending : list nat) :
  (0 < b)%nat → (length pending < b)%nat →
  Forall (batchable self) (pending ++ rest) →
  BYOP.batch_loop self (Z.of_nat b) rest
      (omap (λ i, BYOP.prompts self !! i) pending)
      (omap (λ i, BYOP.init_latents self !! i) pending)
      (pending_images self pending)
    = (map (batch_of self) (chunks b (pending ++ rest)), None).
Proof.
  intros Hb. revert pending.
  induction rest as [|i rest IH]; intros pending Hlen Hall.
  - simpl. rewrite chunks_short; [done|]. by rewrite app_nil_r.
  - assert (Forall (batchable self) pending ∧ batchable self i) as [Hpend Hi].
    { apply Forall_app in Hall as [? Hi]. by apply Forall_cons in Hi as [? _]. }
    destruct Hi as ([lat Hlat] & (p & Hp & Hemb) & Hfr).
    assert (length (omap (λ i, BYOP.prompts self !! i) pending) = length pending) as Hplen.
    { apply omap_length_all. eapply Forall_impl; [exact Hpend|].
      intros j (_ & (q & -> & _) & _). done. }
    assert (∃ ims, pending_images self (pending ++ [i]) = ims ∧
              match BYOP.frames self with
              | Some frames =>
                  let? frame := index frames i in
                  Ok (pending_images self pending ++ [[frame]])
              | None => Ok (pending_images self pending)
              end = Ok ims) as (ims & Hims & Hstep).
    { unfold pending_images. destruct (BYOP.frames self) as [frames|] eqn:Efr.
      - destruct (Hfr frames eq_refl) as [fr Hfrm].
        eexists; split; [done|]. unfold index. rewrite Hfrm. simpl.
        by rewrite (omap_snoc _ _ _ fr), map_app.
      - by eexists. }
    simpl. unfold BYOP.batch_step, getitem. rewrite Hp, Hlat. simpl.
    rewrite Hstep. simpl. unfold BYOP.mod_.
    rewrite decide_False by lia. simpl.
    rewrite length_app, Hplen. simpl.
    replace (pending ++ i :: rest) with ((pending ++ [i]) ++ rest) in *
      by (by rewrite <- app_assoc).
    destruct (decide (Z.of_nat (length pending + 1) `mod` Z.of_nat b = 0)) as [Hz|Hnz].
    + assert (length pending + 1 = b)%nat as Hfull.
      { apply Z.mod_divide in Hz; [|lia]. destruct Hz as [k Hk].
        assert (0 < k) by nia. assert (k < 2) by nia. nia. }
      rewrite chunks_full by (rewrite ?length_app; simpl; lia).
      specialize (IH [] ltac:(simpl; lia)).
      rewrite app_nil_l in IH. simpl in IH.
      assert (pending_images self [] = []) as Hnil.
      { unfold pending_images. by destruct (BYOP.frames self). }
      rewrite Hnil in IH.
      assert (Forall (batchable self) rest) as Hrest.
      { apply Forall_app in Hall as [_ ?]. done. }
      assert (∃ pb,
        (if BYOP.use_prompt_embeds self
         then let? t := cat (omap (λ i, BYOP.prompts self !! i) pending ++ [p]) in
              Ok (BYOP.Embeds t)
         else Ok (BYOP.Prompts (omap (λ i, BYOP.prompts self !! i) pending ++ [p])))
          = Ok pb ∧
        BYOP.batch_prompts (batch_of self (pending ++ [i])) = pb) as (pb & Hpb & Hpbeq).
      { unfold batch_of. simpl. rewrite (omap_snoc _ _ _ p) by done.
        destruct (BYOP.use_prompt_embeds self) eqn:Eemb.
        - rewrite cat_tensors; [by eexists|].
          apply Forall_app. split.
          + apply Forall_forall. intros v Hv.
            apply list_elem_of_omap in Hv as (j & Hj & Hv).
            rewrite Forall_forall in Hpend.
            destruct (Hpend j Hj) as (_ & (q & Hq & Hqt) & _).
            rewrite Hq in Hv. injection Hv as <-. by apply Hqt.
          + constructor; [|done]. by apply Hemb.
        - by eexists. }
      rewrite Hpb. simpl. rewrite IH by done. simpl. f_equal. f_equal.
      unfold batch_of in *. simpl in Hpbeq. rewrite Hpbeq.
      rewrite (omap_snoc _ _ _ lat) by done. f_equal.
      rewrite <- Hims. unfold pending_images.
      destruct (BYOP.frames self); [|done]. by rewrite concat_singletons.
    + rewrite <- Hims.
      rewrite <- (omap_snoc (λ i, BYOP.prompts self !! i) pending i p) by done.
      rewrite <- (omap_snoc (λ i, BYOP.init_latents self !! i) pending i lat) by done.
      rewrite IH; [done| |done].
      rewrite length_app. simpl.
      destruct (decide (length pending + 1 = b)%nat) as [Heq|]; [|lia].
      exfalso. apply Hnz. rewrite <- Heq. rewrite Nat2Z.inj_add.
      apply Z.mod_same. lia.
Qed.

End BYOPBatchFacts.

Section GiffusionBatchFacts.

Context {row gen : Type}.
Local Abbreviation tensor := (tensor row).
Variable manual_seed : Z → gen.
Implicit Types (self : Giffusion.GiffusionFlow row).

Lemma giffusion_batch_loop_chunks self (b : nat) (rest pending : list nat) :
  (0 < b)%nat → (length pending < b)%nat →
  Forall (giffusion_batchable self) (pending ++ rest) →
  Forall (seeded self) (chunks b (pending ++ rest)) →
  Giffusion.batch_loop manual_seed self (Z.of_nat b) rest
      (omap (λ i, Giffusion.text_embeddings self !! i) pending)
      (omap (λ i, Giffusion.init_latents self !! i) pending)
      []
    = (map (giffusion_batch_of manual_seed self) (chunks b (pending ++ rest)), None).
Proof.
  intros Hb. revert pending.
  induction rest as [|i rest IH]; intros pending Hlen Hall Hseeds.
  - simpl. rewrite chunks_short; [done|]. by rewrite app_nil_r.
  - assert (Forall (giffusion_batchable self) pending ∧ giffusion_batchable self i)
      as [Hpend Hi].
    { apply Forall_app in Hall as [? Hi]. by apply Forall_cons in Hi as [? _]. }
    destruct Hi as ([txt Htxt] & [lat Hlat]).
    assert (length (omap (λ i, Giffusion.text_embeddings self !! i) pending)
            = length pending) as Hplen.
    { apply omap_length_all. eapply Forall_impl; [exact Hpend|]. by intros j [? _]. }
    simpl. unfold Giffusion.batch_step, getitem. rewrite Htxt, Hlat. simpl.
    unfold BYOP.mod_. rewrite decide_False by lia. simpl.
    rewrite length_app, Hplen. simpl.
    replace (pending ++ i :: rest) with ((pending ++ [i]) ++ rest) in *
      by (by rewrite <- app_assoc).
    destruct (decide (Z.of_nat (length pending + 1) `mod` Z.of_nat b = 0)) as [Hz|Hnz].
    + assert (length pending + 1 = b)%nat as Hfull.
      { apply Z.mod_divide in Hz; [|lia]. destruct Hz as [k Hk].
        assert (0 < k) by nia. assert (k < 2) by nia. nia. }
      rewrite chunks_full in * by (rewrite ?length_app; simpl; lia).
      apply Forall_cons in Hseeds as [(i' & Hlast & [s Hs]) Hseeds].
      rewrite last_snoc in Hlast. injection Hlast as <-.
      rewrite Hs. simpl.
      specialize (IH [] ltac:(simpl; lia)).
      rewrite app_nil_l in IH. simpl in IH.
      rewrite IH; [|by apply Forall_app in Hall as [_ ?]|done].
      simpl. f_equal. f_equal. unfold giffusion_batch_of.
      rewrite (omap_snoc _ _ _ txt), (omap_snoc _ _ _ lat) by done.
      rewrite last_snoc. simpl. by rewrite Hs.
    + rewrite <- (omap_snoc (λ i, Giffusion.text_embeddings self !! i) pending i txt) by done.
      rewrite <- (omap_snoc (λ i, Giffusion.init_latents self !! i) pending i lat) by done.
      rewrite IH; [done| |done|done].
      rewrite length_app. simpl.
      destruct (decide (length pending + 1 = b)%nat) as [Heq|]; [|lia].
      exfalso. apply Hnz. rewrite <- Heq. rewrite Nat2Z.inj_add.
      apply Z.mod_same. lia.
Qed.

End GiffusionBatchFacts.

(** The groups of [b] consecutive frames: there are [floor(n / b)] of them,
    the [k]-th one holds the frames [k * b .. k * b + b - 1] of the list, and
    the [n mod b] frames after the last group are in none. *)
Lemma chunks_are_full_groups (frame_list : list nat) (batch_size : Z) :
  0 < batch_size →
  let groups := chunks (Z.to_nat batch_size) frame_list in
  Z.of_nat (length groups) = Z.of_nat (length frame_list) `div` batch_size ∧
  (∀ k, (k < length groups)%nat →
        groups !! k = Some (take (Z.to_nat batch_size)
                                 (drop (k * Z.to_nat batch_size) frame_list))) ∧
  Forall (λ g, Z.of_nat (length g) = batch_size) groups ∧
  frame_list = concat groups
               ++ drop (Z.to_nat batch_size * length groups) frame_list ∧
  Z.of_nat (length (drop (Z.to_nat batch_size * length groups) frame_list))
    = Z.of_nat (length frame_list) `mod` batch_size.
Proof.
  intros Hb groups. unfold groups. clear groups.
  remember (Z.to_nat batch_size) as b eqn:Eb.
  assert (batch_size = Z.of_nat b) as Hbs by lia. clear Eb. subst batch_size.
  set (groups := chunks b frame_list) in *.
  assert (0 < b)%nat as Hb' by lia.
  assert (length groups = (length frame_list / b)%nat) as Hlen
    by apply chunks_length.
  split; [|split; [|split; [|split]]].
  - by rewrite Hlen, Nat2Z.inj_div.
  - intros k Hk. apply chunks_lookup. lia.
  - apply Forall_forall. intros g Hg. f_equal. by apply (chunks_each_full b frame_list).
  - unfold groups. rewrite chunks_concat by done. rewrite <- Hlen.
    by rewrite take_drop.
  - rewrite length_drop, Hlen.
    rewrite Nat2Z.inj_sub by (apply Nat.Div0.mul_div_le).
    rewrite Nat2Z.inj_mul, Nat2Z.inj_div.
    rewrite Z.mod_eq by lia. done.
Qed.

(** For a positive batch size and frames that have their timeline entries,
    the batcher of [BYOPFlow] yields the full groups of consecutive frames,
    in order, each batch holding the entries of the frames of its group, and
    ends normally. *)
Lemma byop_batches_are_full_chunks {row gen : Type} (self : BYOP.BYOPFlow row gen)
    (frame_list : list nat) (batch_size : Z) :
  0 < batch_size →
  Forall (batchable self) frame_list →
  let groups := chunks (Z.to_nat batch_size) frame_list in
  BYOP.batch_generator self frame_list batch_size = (map (batch_of self) groups, None) ∧
  Forall (λ g,
            length (omap (λ i, BYOP.prompts self !! i) g) = length g ∧
            length (omap (λ i, BYOP.init_latents self !! i) g) = length g)
         groups.
Proof.
  intros Hb Hbyop groups. unfold groups. clear groups.
  remember (Z.to_nat batch_size) as b eqn:Eb.
  assert (batch_size = Z.of_nat b) as Hbs by lia. clear Eb. subst batch_size.
  assert (0 < b)%nat as Hb' by lia.
  split.
  - assert (length (@nil nat) < b)%nat as H0 by (simpl; lia).
    pose proof (batch_loop_chunks self b frame_list [] Hb' H0 Hbyop) as H.
    assert (pending_images self [] = []) as Hnil.
    { unfold pending_images. by destruct (BYOP.frames self). }
    rewrite Hnil in H. exact H.
  - apply Forall_forall. intros g Hg. apply chunks_subseteq in Hg.
    rewrite Forall_forall in Hbyop.
    split; apply omap_length_all, Forall_forall; intros i Hi.
    + destruct (Hbyop i (Hg i Hi)) as (_ & (p & -> & _) & _). done.
    + by destruct (Hbyop i (Hg i Hi)) as (? & _).
Qed.

(** The batcher of [GiffusionFlow] does the same as long as the seed
    schedule has an entry for the last frame of every group. *)
Lemma giffusion_batches_when_seeded {row gen : Type} (manual_seed : Z → gen)
    (self : Giffusion.GiffusionFlow row) (frame_list : list nat) (batch_size : Z) :
  0 < batch_size →
  Forall (giffusion_batchable self) frame_list →
  Forall (seeded self) (chunks (Z.to_nat batch_size) frame_list) →
  Giffusion.batch_generator manual_seed self frame_list batch_size
    = (map (giffusion_batch_of manual_seed self)
           (chunks (Z.to_nat batch_size) frame_list), None).
Proof.
  intros Hb Hgiff Hseeds.
  remember (Z.to_nat batch_size) as b eqn:Eb.
  assert (batch_size = Z.of_nat b) as Hbs by lia. clear Eb. subst batch_size.
  apply (giffusion_batch_loop_chunks manual_seed self b frame_list []);
    [lia|simpl; lia|done|done].
Qed.

(** * The timelines *)

(** C1 on a single keyframe: there is no adjacent pair, so the latent
    timeline of either flow is empty (length 0, not 1), whatever the
    collaborators; a [BYOPFlow] built from the keyframe [0: A] has
    [max_frames = 1] and its run ends with [KeyError] at frame 0. *)
Theorem single_keyframe_timeline_is_empty :
  (∀ (row gen rng : Type) manual_seed randn slerp onset_strength normalize
     (self : BYOP.BYOPFlow row gen) (f : nat) (p : string) (w : world row gen rng),
     match (BYOP.get_init_latents manual_seed randn slerp onset_strength normalize
              self [(f, p)] w).1 with
     | Ok timeline => timeline = ∅ ∧ size timeline = 0%nat
     | Raise e => e = ZeroDivisionError
     end) ∧
  (∀ (row gen rng : Type) manual_seed randn slerp prompt_to_embedding pad_embedding
     (self : Giffusion.GiffusionFlow row) (f : nat) (p : string)
     (height width : Z) (fixed : bool) (w : world row gen rng),
     match (Giffusion.get_init_latents_and_text_embeddings manual_seed randn slerp
              prompt_to_embedding pad_embedding self [(f, p)] height width fixed w).1 with
     | Ok (latents, embeddings) => latents = ∅ ∧ embeddings = ∅
     | Raise e => e = ZeroDivisionError
     end) ∧
  ∃ self w',
    Stub.byop_init (Stub.byop {[ "prompt_embeds"; "latents" ]} true ∅ 1)
                   [(0%nat, "A")] Stub.w0 = (Ok self, w') ∧
    BYOP.max_frames self = 1%nat ∧
    BYOP.init_latents self = ∅ ∧
    (BYOP.create Stub.manual_seed Stub.pipe self None w').1 = Raise (KeyError 0).
Proof.
  split; [|split].
  - intros. unfold BYOP.get_init_latents, BYOP.sample_latent, bindM, lift, floordiv.
    simpl. destruct (decide (BYOP.vae_scale_factor self = 0)); [done|]. simpl.
    unfold draw. simpl. by destruct (randn _ _).
  - intros. unfold Giffusion.get_init_latents_and_text_embeddings,
      Giffusion.sample_latent, bindM, lift, floordiv.
    simpl. destruct (decide (Giffusion.vae_scale_factor self = 0)); [done|]. simpl.
    unfold draw. simpl. by destruct (randn _ _).
  - eexists _, _. split; [by vm_compute|]. by vm_compute.
Qed.

Section TimelineFacts.

Lemma last_frame_cons (f : nat) (kf : nat * string) (kfs : list (nat * string)) :
  last_frame f (kf :: kfs) = last_frame kf.1 kfs.
Proof.
  unfold last_frame. rewrite last_cons. destruct kf as [f' p'].
  by destruct (last kfs) as [[? ?]|].
Qed.

Lemma ascending_last_frame (f : nat) (kfs : list (nat * string)) :
  ascending_from f kfs → (f ≤ last_frame f kfs)%nat.
Proof.
  revert f. induction kfs as [|[f' p'] kfs IH]; intros f Hasc.
  - done.
  - destruct Hasc as [Hlt Hasc]. rewrite last_frame_cons. simpl.
    specialize (IH f' Hasc). lia.
Qed.

Lemma ascending_max (f : nat) (kfs : list (nat * string)) :
  ascending_from f kfs → max_list (f :: kfs.*1) = last_frame f kfs.
Proof.
  revert f. induction kfs as [|[f' p'] kfs IH]; intros f Hasc.
  - simpl. unfold last_frame, id. simpl. lia.
  - destruct Hasc as [Hlt Hasc]. rewrite last_frame_cons.
    specialize (IH f' Hasc).
    change (((f', p') :: kfs).*1) with (f' :: kfs.*1).
    cbn [max_list fst] in *.
    pose proof (ascending_last_frame f' kfs Hasc). unfold id in *. lia.
Qed.

Context {row gen rng : Type}.
Local Abbreviation tensor := (tensor row).

Lemma enumerate_fold_dom {A B} (g : B → A) (start : nat) (l : list B) (k : nat)
    (m : gmap nat A) :
  dom (foldl (λ out '(i, t), <[(i + start)%nat := g t]> out) m
             (zip (seq k (length l)) l))
    = dom m ∪ set_seq (k + start) (length l).
Proof.
  revert k m. induction l as [|x l IH]; intros k m; simpl.
  - set_solver.
  - rewrite IH, dom_insert_L. replace (S k + start)%nat with (S (k + start)) by lia.
    set_solver.
Qed.

Lemma fill_dom {A} (g : float → A) (start : nat) (sched : list float) (m : gmap nat A) :
  dom (BYOP.fill g start sched m) = dom m ∪ set_seq start (length sched).
Proof. unfold BYOP.fill, enumerate. by rewrite enumerate_fold_dom. Qed.

Lemma set_seq_join (a b c : nat) :
  (a ≤ b)%nat → (b ≤ c)%nat →
  (set_seq a (b - a + 1) ∪ set_seq b (c - b + 1) : gset nat) = set_seq a (c - a + 1).
Proof.
  intros Hab Hbc. apply set_eq. intros x.
  rewrite elem_of_union, !elem_of_set_seq. lia.
Qed.

Section BYOPTimeline.

Variable manual_seed : Z → gen.
Variable randn : list Z → gen → tensor * gen.
Variable slerp : float → tensor → tensor → tensor.
Variable onset_strength : list Q → Z → result (list Q).
Variable normalize : list Q → result (list Q).
Variable self : BYOP.BYOPFlow row gen.

Hypothesis uniform : BYOP.audio self = None.
Hypothesis scale : BYOP.vae_scale_factor self ≠ 0.

Lemma sample_latent_returns (s : Z) (w : world row gen rng) :
  ∃ t w', BYOP.sample_latent manual_seed randn self (Ok s) w = (Ok t, w').
Proof.
  unfold BYOP.sample_latent, bindM, lift, floordiv.
  destruct (decide (BYOP.vae_scale_factor self = 0)); [done|].
  simpl. unfold set_generator, draw. simpl.
  match goal with |- context [randn ?a ?b] => destruct (randn a b) end.
  by eexists _, _.
Qed.

Lemma init_latents_loop_dom (kfs : list (nat * string)) (f : nat) (p : string)
    (start_latent : tensor) (out : gmap nat tensor) (w : world row gen rng) :
  ascending_from f kfs →
  Forall (λ kf, (kf.1 < length (BYOP.seed_schedule self))%nat) kfs →
  ∃ m w',
    BYOP.init_latents_loop manual_seed randn slerp onset_strength normalize self
      (zip ((f, p) :: kfs) kfs) start_latent out w = (Ok m, w') ∧
    dom m = dom out ∪ (if kfs is [] then ∅ else set_seq f (last_frame f kfs - f + 1)).
Proof.
  revert f p start_latent out w.
  induction kfs as [|[f' p'] kfs IH]; intros f p start_latent out w Hasc Hseeds.
  - exists out, w. split; [done|]. set_solver.
  - destruct Hasc as [Hlt Hasc].
    apply Forall_cons in Hseeds as [Hf' Hseeds]. simpl in Hf'.
    cbn [zip zip_with BYOP.init_latents_loop].
    assert (∃ end_latent w1,
      (if BYOP.use_fixed_latent self then ret start_latent
       else BYOP.sample_latent manual_seed randn self
              (index (BYOP.seed_schedule self) f')) w = (Ok end_latent, w1))
      as (end_latent & w1 & Hend).
    { destruct (BYOP.use_fixed_latent self); [by eexists _, _|].
      destruct (lookup_lt_is_Some_2 (BYOP.seed_schedule self) f' Hf') as [s Hs].
      unfold index. rewrite Hs. apply sample_latent_returns. }
    unfold bindM at 1. rewrite Hend.
    destruct (uniform_schedule onset_strength normalize f f' (BYOP.fps self) w1)
      as (ts & Hrun & Hts); [lia|].
    unfold bindM at 1. rewrite uniform, Hrun.
    destruct (linspace_ok 0 1 (Z.of_nat f' - Z.of_nat f + 1)) as (ts' & Hts' & Hlen); [lia|].
    rewrite Hts in Hts'. apply Ok_inj in Hts' as <-.
    destruct (IH f' p' end_latent
                (BYOP.fill (λ t, slerp t start_latent end_latent) f (map Fin ts) out)
                w1 Hasc Hseeds) as (m & w' & Hloop & Hdom).
    exists m, w'. split; [exact Hloop|].
    rewrite Hdom, fill_dom, length_map, Hlen, last_frame_cons. simpl.
    replace (Z.to_nat (Z.of_nat f' - Z.of_nat f + 1)) with (f' - f + 1)%nat by lia.
    destruct kfs as [|kf kfs].
    + unfold last_frame. simpl. set_solver.
    + pose proof (ascending_last_frame f' (kf :: kfs) Hasc).
      rewrite <- union_assoc_L. rewrite set_seq_join by lia. done.
Qed.


End BYOPTimeline.

Section GiffusionTimeline.

Variable manual_seed : Z → gen.
Variable randn : list Z → gen → tensor * gen.
Variable slerp : float → tensor → tensor → tensor.
Variable prompt_to_embedding : string → tensor.
Variable pad_embedding : tensor → tensor → tensor * tensor.
Variable self : Giffusion.GiffusionFlow row.

Hypothesis scale : Giffusion.vae_scale_factor self ≠ 0.





End GiffusionTimeline.

End TimelineFacts.

(** * The argument builder *)

Section ArgumentFacts.

Context {row gen rng : Type}.
Local Abbreviation tensor := (tensor row).
Local Abbreviation value := (value row gen).
Variable manual_seed : Z → gen.
Implicit Types (self : BYOP.BYOPFlow row gen) (b : @BYOP.batch row gen) (w : world row gen rng).
Implicit Types (d e : gmap string value) (k : string).

Lemma lookup_update d e k :
  update d e !! k = match e !! k with Some v => Some v | None => d !! k end.
Proof.
  unfold update. rewrite lookup_union.
  destruct (e !! k), (d !! k); done.
Qed.

Lemma lookup_update_singleton_ne d k k' (v : value) :
  k ≠ k' → update d {[ k' := v ]} !! k = d !! k.
Proof. intros H. rewrite lookup_update, lookup_singleton_ne; done. Qed.

Lemma lookup_update_singleton_eq d k (v : value) :
  update d {[ k := v ]} !! k = Some v.
Proof. by rewrite lookup_update, lookup_singleton_eq. Qed.

Lemma lookup_if (c : bool) d e k :
  (if c then d else e) !! k = if c then d !! k else e !! k.
Proof. by destruct c. Qed.

Lemma if_same {A} (c : bool) (x : A) : (if c then x else x) = x.
Proof. by destruct c. Qed.

Lemma lookup_update_if_ne (c : bool) d k k' (v : value) :
  k ≠ k' → update_if c d {[ k' := v ]} !! k = d !! k.
Proof. intros H. destruct c; simpl; [|done]. by apply lookup_update_singleton_ne. Qed.

Lemma lookup_update_if_eq (c : bool) d k (v : value) :
  update_if c d {[ k := v ]} !! k = if c then Some v else d !! k.
Proof. destruct c; simpl; [|done]. by apply lookup_update_singleton_eq. Qed.

Lemma option_match_id {A} (o : option A) :
  match o with Some v => Some v | None => None end = o.
Proof. by destruct o. Qed.

Ltac layers :=
  repeat first
    [ rewrite lookup_update_if_ne by discriminate
    | rewrite lookup_update_if_eq
    | rewrite lookup_update_singleton_ne by discriminate
    | rewrite lookup_update_singleton_eq
    | rewrite lookup_if
    | rewrite if_same ].

(** What [prepare_inputs] returns under five of its keys. *)
Lemma prepare_inputs_lookup self b w :
  ∃ kwargs,
    BYOP.prepare_inputs manual_seed self b w = (Ok kwargs, after_prepare manual_seed self w) ∧
    let extra := BYOP.additional_pipeline_argumenets self in
    let over k (computed : option value) :=
      match extra !! k with Some v => Some v | None => computed end in
    kwargs !! "prompt_embeds" =
      over "prompt_embeds"
        (if BYOP.accepts self "prompt_embeds" && BYOP.use_prompt_embeds self
         then Some (BYOP.prompts_value (BYOP.batch_prompts b)) else None) ∧
    kwargs !! "prompt" =
      over "prompt"
        (if BYOP.accepts self "prompt_embeds" && BYOP.use_prompt_embeds self
         then None
         else if BYOP.accepts self "prompt" && negb (BYOP.use_prompt_embeds self)
         then Some (BYOP.prompts_value (BYOP.batch_prompts b)) else None) ∧
    kwargs !! "negative_prompts" =
      over "negative_prompts"
        (if BYOP.accepts self "negative_prompts"
         then Some (VList (replicate (BYOP.len (BYOP.batch_prompts b))
                                     (VStr (BYOP.negative_prompts self))))
         else None) ∧
    kwargs !! "image" =
      over "image"
        (if BYOP.accepts self "image"
         then
           if bool_decide (BYOP.video_input self ≠ None)
              && bool_decide (length (BYOP.batch_images b) ≠ 0%nat)
           then Some (VTensor (BYOP.batch_images b))
           else (λ image, VList (replicate (BYOP.len (BYOP.batch_prompts b)) image))
                  <$> BYOP.image_input self
         else None) ∧
    kwargs !! "generator" =
      over "generator" (if BYOP.accepts self "generator" then Some VGenerator else None).
Proof.
  unfold BYOP.prepare_inputs, after_prepare, bindM, ret, set_generator.
  cbv zeta.
  destruct (BYOP.accepts self "generator"), (BYOP.image_input self) as [image|];
    (eexists; split; [reflexivity|]);
    repeat split; rewrite lookup_update;
    (destruct (BYOP.additional_pipeline_argumenets self !! _); [done|]);
    layers; repeat case_match; try done.
Qed.

(** C6, as the code has it: when the prompt option of the active mode has no
    parameter on the model, [prepare_inputs] raises nothing; it returns a
    mapping in which [prompt_embeds] and [prompt] are what the free-form
    overrides say, absent when they say nothing. *)
Theorem unsupported_prompt_option_is_omitted self b w :
  prompt_option_unsupported self →
  ∃ kwargs,
    BYOP.prepare_inputs manual_seed self b w = (Ok kwargs, after_prepare manual_seed self w) ∧
    kwargs !! "prompt_embeds"
      = BYOP.additional_pipeline_argumenets self !! "prompt_embeds" ∧
    kwargs !! "prompt" = BYOP.additional_pipeline_argumenets self !! "prompt".
Proof.
  intros Hun.
  destruct (prepare_inputs_lookup self b w) as (kw & Hrun & Hpe & Hp & _).
  exists kw. split; [done|]. cbv zeta in Hpe, Hp. rewrite Hpe, Hp.
  unfold BYOP.accepts.
  destruct Hun as [[-> Hsig]|[-> Hsig]];
    rewrite (bool_decide_eq_false_2 _ Hsig); simpl.
  - simpl. rewrite ?andb_false_r. split; apply option_match_id.
  - simpl. rewrite ?andb_false_r. split; apply option_match_id.
Qed.

(** C8, as the code has it: with the capability set [{prompt, latents}] the
    keys [prompt_embeds], [image] and [negative_prompts] are in the mapping
    only if the free-form overrides put them there. *)
Theorem irrelevant_options_are_omitted self b w (k : string) :
  BYOP.pipe_signature self = {[ "prompt"; "latents" ]} →
  k ∈ ["prompt_embeds"; "image"; "negative_prompts"] →
  ∃ kwargs,
    BYOP.prepare_inputs manual_seed self b w = (Ok kwargs, w) ∧
    kwargs !! k = BYOP.additional_pipeline_argumenets self !! k.
Proof.
  intros Hsig Hk.
  destruct (prepare_inputs_lookup self b w) as (kw & Hrun & Hpe & _ & Hneg & Him & _).
  assert (∀ name, name ∉ ({[ "prompt"; "latents" ]} : gset string) →
                  BYOP.accepts self name = false) as Hno.
  { intros name Hname. unfold BYOP.accepts. rewrite Hsig.
    by apply bool_decide_eq_false_2. }
  assert (after_prepare manual_seed self w = w) as Hw.
  { unfold after_prepare. rewrite Hno; [done|]. set_solver. }
  rewrite Hw in Hrun. exists kw. split; [done|].
  cbv zeta in Hpe, Hneg, Him.
  rewrite !Hno in Hpe, Hneg, Him by set_solver. simpl in Hpe.
  set_unfold in Hk. destruct Hk as [->|[->|[->|[]]]].
  - rewrite Hpe. apply option_match_id.
  - rewrite Him. apply option_match_id.
  - rewrite Hneg. apply option_match_id.
Qed.

(** A run of [create] on the batches: the model calls it logs. *)
Lemma run_batches_calls
    (pipe : gmap string value → gen → result tensor * gen)
    self (batches : list (@BYOP.batch row gen)) w :
  BYOP.accepts self "generator" = true →
  ∃ calls,
    pipe_calls
      (mapM (λ b, let* pipe_kwargs := BYOP.prepare_inputs manual_seed self b in
                  BYOP.call_pipe pipe pipe_kwargs) batches w).2
      = pipe_calls w ++ calls ∧
    Forall (λ call, call.2 = manual_seed (BYOP.seed self)) calls.
Proof.
  intros Hgen. revert w. induction batches as [|b batches IH]; intros w.
  - exists []. simpl. by rewrite app_nil_r.
  - destruct (prepare_inputs_lookup self b w) as (kw & Hrun & _).
    unfold after_prepare in Hrun. rewrite Hgen in Hrun.
    cbn [mapM]. unfold bindM at 1. unfold bindM at 1. rewrite Hrun.
    unfold BYOP.call_pipe, bindM at 1. unfold log_pipe_call. cbn [generator pipe_calls
      random_state audio_slices].
    destruct (pipe kw (manual_seed (BYOP.seed self))) as [[images|e] g].
    + set (w1 := World g (random_state w) (audio_slices w)
                       (pipe_calls w ++ [(kw, manual_seed (BYOP.seed self))])).
      destruct (IH w1) as (calls & Hcalls & Hall).
      exists ((kw, manual_seed (BYOP.seed self)) :: calls). split.
      * unfold bindM at 1.
        destruct (mapM _ batches w1) as [[imgs|e] w2]; simpl in *;
          rewrite Hcalls; unfold w1; simpl; by rewrite <- app_assoc.
      * by constructor.
    + exists [(kw, manual_seed (BYOP.seed self))]. split; [done|].
      by constructor.
Qed.

(** C10, as the code has it: when the pipeline accepts a generator,
    [prepare_inputs] re-seeds the flow's one generator with the master seed,
    so that every model call of a run finds it in that state, and never reads
    the seed schedule; the [generator] argument is that generator unless the
    free-form overrides supply a [generator] of their own. *)
Theorem generator_is_reseeded_with_master_seed
    (pipe : gmap string value → gen → result tensor * gen)
    self b w (frame_list : option (list nat)) :
  "generator" ∈ BYOP.pipe_signature self →
  (∃ kwargs w',
     BYOP.prepare_inputs manual_seed self b w = (Ok kwargs, w') ∧
     generator w' = manual_seed (BYOP.seed self) ∧
     kwargs !! "generator" =
       match BYOP.additional_pipeline_argumenets self !! "generator" with
       | Some v => Some v
       | None => Some VGenerator
       end) ∧
  (∀ n seed_schedule,
     BYOP.prepare_inputs manual_seed (BYOP.with_schedule self n seed_schedule) b w
       = BYOP.prepare_inputs manual_seed self b w) ∧
  (∃ calls,
     pipe_calls (BYOP.create manual_seed pipe self frame_list w).2
       = pipe_calls w ++ calls ∧
     Forall (λ call, call.2 = manual_seed (BYOP.seed self)) calls).
Proof.
  intros Hsig.
  assert (BYOP.accepts self "generator" = true) as Hgen.
  { unfold BYOP.accepts. by apply bool_decide_eq_true_2. }
  split; [|split].
  - destruct (prepare_inputs_lookup self b w) as (kw & Hrun & _ & _ & _ & _ & Hg).
    exists kw, (after_prepare manual_seed self w). split; [done|].
    unfold after_prepare. rewrite Hgen. split; [done|].
    cbv zeta in Hg. by rewrite Hg, Hgen.
  - intros n s. reflexivity.
  - unfold BYOP.create.
    destruct (BYOP.batch_generator self _ _) as [batches e].
    destruct (run_batches_calls pipe self batches w Hgen) as (calls & Hcalls & Hall).
    exists calls. split; [|done].
    unfold bindM at 1.
    destruct (mapM _ batches w) as [[imgs|e'] w2]; simpl in *; [|done].
    by destruct e.
Qed.

End ArgumentFacts.

(** * The examples of the specification *)

(** The example flows are the flows [__init__] builds. *)
Lemma example_flows_are_initialised :
  Stub.byop_ab
    = Stub.byop_flow (Stub.byop {[ "prompt"; "latents" ]} false ∅ 1)
                     [(0%nat, "A"); (5%nat, "B")] ∧
  Stub.byop_ten
    = Stub.byop_flow (Stub.byop {[ "prompt_embeds"; "latents" ]} true ∅ 4)
                     [(0%nat, "A"); (9%nat, "B")] ∧
  Stub.giffusion_ten
    = Stub.giffusion_flow (Stub.giffusion 4)
                          [(0%nat, "A"); (3%nat, "B"); (7%nat, "C"); (9%nat, "D")] ∧
  Stub.giffusion_ends
    = Stub.giffusion_flow (Stub.giffusion 4) [(0%nat, "A"); (9%nat, "B")] ∧
  Stub.byop_unsupported
    = Stub.byop_flow (Stub.byop {[ "prompt"; "latents" ]} true ∅ 1)
                     [(0%nat, "A"); (1%nat, "B")] ∧
  Stub.byop_generator
    = Stub.byop_flow (Stub.byop {[ "prompt"; "latents"; "generator" ]} false ∅ 1)
                     [(0%nat, "A"); (2%nat, "B")].
Proof. refine (conj _ (conj _ (conj _ (conj _ (conj _ _))))); by vm_compute. Qed.

(** The example of the specification: keyframes [0: A, 5: B]. *)
Lemma forward_fill_prompts_witness :
  let key_frames := [(0%nat, "A"); (5%nat, "B")] in
  let self := Stub.byop_ab in
  BYOP.get_prompts self key_frames !! 0%nat = Some (VStr "A") ∧
  BYOP.get_prompts self key_frames !! 1%nat = Some (VStr "A") ∧
  BYOP.get_prompts self key_frames !! 2%nat = Some (VStr "A") ∧
  BYOP.get_prompts self key_frames !! 3%nat = Some (VStr "A") ∧
  BYOP.get_prompts self key_frames !! 4%nat = Some (VStr "A") ∧
  BYOP.get_prompts self key_frames !! 5%nat = Some (VStr "B").
Proof.
  intros key_frames self.
  assert (∀ i f p, (i < 6)%nat → (f, p) ∈ key_frames → (f ≤ i)%nat →
            (∀ f' p', (f', p') ∈ key_frames → (f' ≤ i)%nat → (f' ≤ f)%nat) →
            BYOP.get_prompts self key_frames !! i = Some (VStr p)) as Hfill.
  { intros i f p Hi Hin Hfi Hnear.
    apply (forward_fill_prompts self key_frames i f p);
      [reflexivity|compute_done|exact Hi|exact Hin|exact Hfi|exact Hnear]. }
  assert (∀ i f' p', (i < 5)%nat → (f', p') ∈ key_frames → (f' ≤ i)%nat → (f' ≤ 0)%nat)
    as Hbefore.
  { intros i f' p' Hi Hin Hle. unfold key_frames in Hin.
    repeat (apply elem_of_cons in Hin as [Hin|Hin]; [injection Hin as -> ->; lia|]).
    by apply elem_of_nil in Hin. }
  assert (∀ f' p', (f', p') ∈ key_frames → (f' ≤ 5)%nat) as Hall.
  { intros f' p' Hin. unfold key_frames in Hin.
    repeat (apply elem_of_cons in Hin as [Hin|Hin]; [injection Hin as -> ->; lia|]).
    by apply elem_of_nil in Hin. }
  refine (conj _ (conj _ (conj _ (conj _ (conj _ _))))).
  - apply (Hfill 0%nat 0%nat "A"); [lia|compute_done|lia|]. intros; eapply (Hbefore 0%nat); eauto; lia.
  - apply (Hfill 1%nat 0%nat "A"); [lia|compute_done|lia|]. intros; eapply (Hbefore 1%nat); eauto; lia.
  - apply (Hfill 2%nat 0%nat "A"); [lia|compute_done|lia|]. intros; eapply (Hbefore 2%nat); eauto; lia.
  - apply (Hfill 3%nat 0%nat "A"); [lia|compute_done|lia|]. intros; eapply (Hbefore 3%nat); eauto; lia.
  - apply (Hfill 4%nat 0%nat "A"); [lia|compute_done|lia|]. intros; eapply (Hbefore 4%nat); eauto; lia.
  - apply (Hfill 5%nat 5%nat "B"); [lia|compute_done|lia|]. intros; eapply Hall; eauto.
Defined.

(** C7: the batcher of [BYOPFlow] yields the [floor(n / b)] full groups of
    consecutive frames and drops the [n mod b] trailing ones; the batcher of
    [GiffusionFlow] does not.  On the example of the specification, ten
    timeline entries (the keyframes 0 and 9) in batches of four, the
    [BYOPFlow] yields the batches of the frames 0-3 and 4-7 and ends
    normally, while the [GiffusionFlow] built from the same keyframes, whose
    two timelines have all ten frames, yields no batch: the seed it looks up
    for frame 3, the last frame of the first group, is missing, and the
    generator ends with [KeyError]. *)
Theorem giffusion_batcher_stops_at_first_group :
  (∀ (row gen : Type) (self : BYOP.BYOPFlow row gen) (frame_list : list nat)
     (batch_size : Z),
     0 < batch_size →
     Forall (batchable self) frame_list →
     let groups := chunks (Z.to_nat batch_size) frame_list in
     BYOP.batch_generator self frame_list batch_size
       = (map (batch_of self) groups, None) ∧
     Z.of_nat (length groups) = Z.of_nat (length frame_list) `div` batch_size ∧
     (∀ k, (k < length groups)%nat →
           groups !! k = Some (take (Z.to_nat batch_size)
                                    (drop (k * Z.to_nat batch_size) frame_list))) ∧
     frame_list = concat groups
                  ++ drop (Z.to_nat batch_size * length groups) frame_list ∧
     Z.of_nat (length (drop (Z.to_nat batch_size * length groups) frame_list))
       = Z.of_nat (length frame_list) `mod` batch_size) ∧
  let byop := Stub.byop_ten in
  let giffusion := Stub.giffusion_ends in
  ∃ w w',
    Stub.byop_init (Stub.byop {[ "prompt_embeds"; "latents" ]} true ∅ 4)
                   [(0%nat, "A"); (9%nat, "B")] Stub.w0 = (Ok byop, w) ∧
    Stub.giffusion_init (Stub.giffusion 4)
                        [(0%nat, "A"); (9%nat, "B")] Stub.w0 = (Ok giffusion, w') ∧
    BYOP.max_frames byop = 10%nat ∧ Giffusion.max_frames giffusion = 10%nat ∧
    Forall (batchable byop) (range 10) ∧
    Forall (giffusion_batchable giffusion) (range 10) ∧
    BYOP.batch_generator byop (range 10) 4
      = (map (batch_of byop) [[0; 1; 2; 3]; [4; 5; 6; 7]]%nat, None) ∧
    Giffusion.seed_schedule giffusion !! 3%nat = None ∧
    Giffusion.batch_generator Stub.manual_seed giffusion (range 10) 4
      = ([], Some (KeyError 3)) ∧
    Giffusion.create_batches Stub.manual_seed giffusion None = ([], Some (KeyError 3)).
Proof.
  split.
  - intros row gen self frame_list batch_size Hb Hall groups.
    destruct (byop_batches_are_full_chunks self frame_list batch_size Hb Hall)
      as [Hrun _].
    destruct (chunks_are_full_groups frame_list batch_size Hb)
      as (Hlen & Hk & _ & Hcat & Hrest).
    done.
  - intros byop giffusion.
    eexists _, _. split; [by vm_compute|]. split; [by vm_compute|].
    split; [reflexivity|]. split; [reflexivity|].
    split; [|split; [|split; [|split; [|split]]]].
    + repeat (apply Forall_cons; split;
              [split; [by eexists|split; [eexists; split; [reflexivity|by eexists]|]];
               intros frames Hframes; vm_compute in Hframes; discriminate|]).
      apply Forall_nil_2.
    + repeat (apply Forall_cons; split; [split; by eexists|]). apply Forall_nil_2.
    + by vm_compute.
    + by vm_compute.
    + by vm_compute.
    + by vm_compute.
Qed.

(** C6 fails as stated: in embedding mode on a model that accepts only
    [prompt] and [latents], the run of two frames raises nothing and calls
    the model twice, with neither [prompt_embeds] nor [prompt]. *)
Lemma prompt_embeds_request_is_not_rejected :
  let self := Stub.byop_unsupported in
  let r := BYOP.create Stub.manual_seed Stub.pipe self None Stub.w0 in
  BYOP.use_prompt_embeds self = true ∧
  BYOP.pipe_signature self = {[ "prompt"; "latents" ]} ∧
  (∃ images, r.1 = Ok images ∧ length images = 2%nat) ∧
  length (pipe_calls r.2) = 2%nat ∧
  Forall (λ call, call.1 !! "prompt_embeds" = None ∧ call.1 !! "prompt" = None ∧
                  is_Some (call.1 !! "latents"))
         (pipe_calls r.2).
Proof.
  intros self r. split; [reflexivity|]. split; [reflexivity|].
  split; [by eexists|]. split; [reflexivity|].
  repeat (apply Forall_cons; split; [split; [reflexivity|split; [reflexivity|by eexists]]|]).
  apply Forall_nil_2.
Qed.

Lemma unsupported_prompt_option_is_omitted_witness :
  let self := Stub.byop {[ "prompt"; "latents" ]} true ∅ 1 in
  ∃ kwargs,
    BYOP.prepare_inputs Stub.manual_seed self Stub.batch0 Stub.w0
      = (Ok kwargs, after_prepare Stub.manual_seed self Stub.w0) ∧
    kwargs !! "prompt_embeds"
      = BYOP.additional_pipeline_argumenets self !! "prompt_embeds" ∧
    kwargs !! "prompt" = BYOP.additional_pipeline_argumenets self !! "prompt".
Proof.
  intros self.
  apply (unsupported_prompt_option_is_omitted Stub.manual_seed self Stub.batch0 Stub.w0).
  left. split; [reflexivity|]. compute_done.
Defined.

(** C8 fails as stated: with the capability set [{prompt, latents}] and the
    additional pipeline arguments [{"image": 1}], the mapping has the key
    [image]. *)
Lemma override_puts_image_in_the_mapping :
  let self := Stub.byop {[ "prompt"; "latents" ]} false {[ "image" := VInt 1 ]} 1 in
  ∃ kwargs w',
    BYOP.pipe_signature self = {[ "prompt"; "latents" ]} ∧
    BYOP.prepare_inputs Stub.manual_seed self Stub.batch0 Stub.w0 = (Ok kwargs, w') ∧
    kwargs !! "image" = Some (VInt 1).
Proof. intros self. eexists _, _. split; [reflexivity|]. split; reflexivity. Qed.

Lemma irrelevant_options_are_omitted_witness :
  let self := Stub.byop {[ "prompt"; "latents" ]} false ∅ 1 in
  ∃ kwargs,
    BYOP.prepare_inputs Stub.manual_seed self Stub.batch0 Stub.w0 = (Ok kwargs, Stub.w0) ∧
    kwargs !! "image" = BYOP.additional_pipeline_argumenets self !! "image".
Proof.
  intros self.
  apply (irrelevant_options_are_omitted Stub.manual_seed self Stub.batch0 Stub.w0 "image").
  - reflexivity.
  - compute_done.
Defined.

(** C10 fails as stated: with the additional pipeline arguments
    [{"generator": 7}] on a model that accepts a generator, the emitted
    [generator] is 7, not the flow's generator. *)
Lemma override_replaces_the_generator :
  let self := Stub.byop {[ "prompt"; "latents"; "generator" ]} false
                        {[ "generator" := VInt 7 ]} 1 in
  ∃ kwargs w',
    "generator" ∈ BYOP.pipe_signature self ∧
    BYOP.prepare_inputs Stub.manual_seed self Stub.batch0 Stub.w0 = (Ok kwargs, w') ∧
    kwargs !! "generator" = Some (VInt 7) ∧
    kwargs !! "generator" ≠ Some VGenerator.
Proof.
  intros self. eexists _, _. split; [compute_done|]. split; [reflexivity|].
  split; [reflexivity|]. discriminate.
Qed.

Lemma generator_is_reseeded_with_master_seed_witness :
  let self := Stub.byop_generator in
  (∃ kwargs w',
     BYOP.prepare_inputs Stub.manual_seed self Stub.batch0 Stub.w0 = (Ok kwargs, w') ∧
     generator w' = Stub.manual_seed (BYOP.seed self) ∧
     kwargs !! "generator" =
       match BYOP.additional_pipeline_argumenets self !! "generator" with
       | Some v => Some v
       | None => Some VGenerator
       end) ∧
  (∀ n seed_schedule,
     BYOP.prepare_inputs Stub.manual_seed (BYOP.with_schedule self n seed_schedule)
       Stub.batch0 Stub.w0
       = BYOP.prepare_inputs Stub.manual_seed self Stub.batch0 Stub.w0) ∧
  (∃ calls,
     pipe_calls (BYOP.create Stub.manual_seed Stub.pipe self None Stub.w0).2
       = pipe_calls Stub.w0 ++ calls ∧
     Forall (λ call, call.2 = Stub.manual_seed (BYOP.seed self)) calls).
Proof.
  intros self.
  apply (generator_is_reseeded_with_master_seed Stub.manual_seed Stub.pipe self
           Stub.batch0 Stub.w0 None).
  compute_done.
Defined.

(** * The argument builder: keys and precedence *)

Section ArgumentKeys.

Context {row gen rng : Type}.
Local Abbreviation tensor := (tensor row).
Local Abbreviation value := (value row gen).
Variable manual_seed : Z → gen.
Implicit Types (self : BYOP.BYOPFlow row gen) (b : @BYOP.batch row gen) (w : world row gen rng).
Implicit Types (d e : gmap string value) (k : string) (S : gset string).

Lemma dom_update_sub d e S : dom d ⊆ S → dom e ⊆ S → dom (update d e) ⊆ S.
Proof. unfold update. rewrite dom_union_L. set_solver. Qed.

Lemma dom_update_if_sub (c : bool) d e S :
  dom d ⊆ S → (c = true → dom e ⊆ S) → dom (update_if c d e) ⊆ S.
Proof. intros Hd He. destruct c; simpl; [|done]. apply dom_update_sub; auto. Qed.

Lemma accepts_elem self k : BYOP.accepts self k = true → k ∈ BYOP.pipe_signature self.
Proof. unfold BYOP.accepts. apply bool_decide_eq_true_1. Qed.

Lemma dom_if_sub (c : bool) d e S :
  (c = true → dom d ⊆ S) → (c = false → dom e ⊆ S) → dom (if c then d else e) ⊆ S.
Proof. destruct c; auto. Qed.

(** X1: The mapping has no key beyond the accepted parameter names, the two
    sampling parameters and the keys of the free-form overrides. *)
Theorem prepare_inputs_keys self b w :
  ∃ kwargs w',
    BYOP.prepare_inputs manual_seed self b w = (Ok kwargs, w') ∧
    dom kwargs ⊆ BYOP.pipe_signature self
                 ∪ {[ "num_inference_steps"; "guidance_scale" ]}
                 ∪ dom (BYOP.additional_pipeline_argumenets self).
Proof.
  unfold BYOP.prepare_inputs, bindM, ret, set_generator. cbv zeta.
  set (S := BYOP.pipe_signature self ∪ {[ "num_inference_steps"; "guidance_scale" ]}
            ∪ dom (BYOP.additional_pipeline_argumenets self)).
  assert (∀ k (v : value), BYOP.accepts self k = true →
            dom ({[ k := v ]} : gmap string value) ⊆ S) as Hacc.
  { intros k v Hk. apply accepts_elem in Hk. rewrite dom_singleton_L.
    unfold S. set_solver. }
  assert (dom (BYOP.additional_pipeline_argumenets self) ⊆ S) as Hadd.
  { unfold S. set_solver. }
  assert (∀ x y : value,
            dom ({[ "num_inference_steps" := x; "guidance_scale" := y ]}
                   : gmap string value) ⊆ S) as Hbase.
  { intros x y. rewrite dom_insert_L, dom_singleton_L. unfold S. set_solver. }
  assert (∀ c1 c2 : bool, c1 && c2 = true → c1 = true) as Hand.
  { by intros [] []. }
  destruct (BYOP.accepts self "generator") eqn:Eg;
    (eexists _, _; split; [reflexivity|]);
    (apply dom_update_sub; [|exact Hadd]).
  all: repeat lazymatch goal with
    | |- dom (update_if _ _ _) ⊆ _ =>
        apply dom_update_if_sub; [|intros ?; apply Hacc; assumption]
    | |- dom (update _ {[ _ := _ ]}) ⊆ _ =>
        apply dom_update_sub; [|apply Hacc; eauto]
    | |- dom (if _ then _ else _) ⊆ _ => apply dom_if_sub; intros ?
    | |- dom (match ?x with Some _ => _ | None => _ end) ⊆ _ => destruct x
    | |- dom (<[ _ := _ ]> _) ⊆ _ => apply Hbase
    end.
Qed.

(** One step of a lookup through the layers of updates. *)
Ltac layer :=
  lazymatch goal with
  | |- context [update_if ?c ?d {[ ?k' := ?v ]} !! ?k] =>
      first [ constr_eq k k'; rewrite (lookup_update_if_eq c d k v)
            | rewrite (lookup_update_if_ne c d k k' v) by discriminate ]
  | |- context [update ?d {[ ?k' := ?v ]} !! ?k] =>
      first [ constr_eq k k'; rewrite (lookup_update_singleton_eq d k v)
            | rewrite (lookup_update_singleton_ne d k k' v) by discriminate ]
  | |- context [(if ?c then ?d else ?e) !! ?k] => rewrite (lookup_if c d e k)
  | |- context [if ?c then ?x else ?x] => rewrite (if_same c x)
  end.

(** X2: The values of the sampling parameters and of the four plain options:
    the override when there is one; otherwise the two sampling parameters
    always, and each plain option exactly when the model accepts it. *)
Theorem prepare_inputs_plain_options self b w :
  ∃ kwargs w',
    BYOP.prepare_inputs manual_seed self b w = (Ok kwargs, w') ∧
    let extra := BYOP.additional_pipeline_argumenets self in
    let over k (computed : option value) :=
      match extra !! k with Some v => Some v | None => computed end in
    let accepted k (v : value) := if BYOP.accepts self k then Some v else None in
    kwargs !! "num_inference_steps"
      = over "num_inference_steps" (Some (VInt (BYOP.num_inference_steps self))) ∧
    kwargs !! "guidance_scale"
      = over "guidance_scale" (Some (VFloat (BYOP.guidance_scale self))) ∧
    kwargs !! "height" = over "height" (accepted "height" (VInt (BYOP.height self))) ∧
    kwargs !! "width" = over "width" (accepted "width" (VInt (BYOP.width self))) ∧
    kwargs !! "strength"
      = over "strength" (accepted "strength" (VFloat (BYOP.strength self))) ∧
    kwargs !! "latents"
      = over "latents" (accepted "latents" (VTensor (BYOP.batch_init_latents b))).
Proof.
  unfold BYOP.prepare_inputs, bindM, ret, set_generator. cbv zeta.
  destruct (BYOP.accepts self "generator"), (BYOP.image_input self) as [image|];
    (eexists _, _; split; [reflexivity|]);
    refine (conj _ (conj _ (conj _ (conj _ (conj _ _)))));
    rewrite lookup_update;
    (destruct (BYOP.additional_pipeline_argumenets self !! _); [reflexivity|]);
    repeat layer; reflexivity.
Qed.

(** X3: An entry of the free-form overrides is in the mapping as it is, whatever
    the capability set and the computed value. *)
Theorem overrides_take_precedence self b w (k : string) (v : value) :
  BYOP.additional_pipeline_argumenets self !! k = Some v →
  ∃ kwargs w',
    BYOP.prepare_inputs manual_seed self b w = (Ok kwargs, w') ∧
    kwargs !! k = Some v.
Proof.
  intros Hk. unfold BYOP.prepare_inputs, bindM, ret, set_generator. cbv zeta.
  destruct (BYOP.accepts self "generator");
    (eexists _, _; split; [reflexivity|]); by rewrite lookup_update, Hk.
Qed.

(** X4: Without overrides for them, [prompt_embeds] and [prompt] are never both
    in the mapping: embeddings go under [prompt_embeds] in embedding mode,
    prompts under [prompt] in raw-prompt mode. *)
Theorem prompt_keys_are_exclusive self b w :
  BYOP.additional_pipeline_argumenets self !! "prompt_embeds" = None →
  BYOP.additional_pipeline_argumenets self !! "prompt" = None →
  ∃ kwargs w',
    BYOP.prepare_inputs manual_seed self b w = (Ok kwargs, w') ∧
    ¬ (is_Some (kwargs !! "prompt_embeds") ∧ is_Some (kwargs !! "prompt")) ∧
    (is_Some (kwargs !! "prompt_embeds") → BYOP.use_prompt_embeds self = true) ∧
    (is_Some (kwargs !! "prompt") → BYOP.use_prompt_embeds self = false).
Proof.
  intros Hpe Hp.
  destruct (prepare_inputs_lookup manual_seed self b w) as (kw & Hrun & Hkpe & Hkp & _).
  exists kw, (after_prepare manual_seed self w). split; [done|].
  cbv zeta in Hkpe, Hkp. rewrite Hpe in Hkpe. rewrite Hp in Hkp.
  rewrite Hkpe, Hkp.
  destruct (BYOP.accepts self "prompt_embeds"), (BYOP.accepts self "prompt"),
    (BYOP.use_prompt_embeds self); simpl;
    (split; [intros [[? ?] [? ?]]; congruence|]);
    split; intros [? ?]; congruence.
Qed.

End ArgumentKeys.

(** * The batcher: what ends it early *)

Lemma mod_neg_branch {T} (x b : Z) (yes no : result T) :
  (let? r := BYOP.mod_ x (- b) in if decide (r = 0) then yes else no)
  = (let? r := BYOP.mod_ x b in if decide (r = 0) then yes else no).
Proof.
  unfold BYOP.mod_.
  destruct (decide (b = 0)) as [->|Hb]; [done|].
  rewrite decide_False by lia. simpl.
  destruct (decide (x `mod` b = 0)) as [Hz|Hnz].
  - rewrite decide_True; [done|]. by apply Z.mod_opp_r_z.
  - rewrite decide_False; [done|]. rewrite Z.mod_opp_r_nz by done. 
    pose proof (Z.mod_bound_or x b Hb). lia.
Qed.

Section BatcherEdges.

Context {row gen : Type}.
Local Abbreviation tensor := (tensor row).
Local Abbreviation value := (value row gen).
Implicit Types (self : BYOP.BYOPFlow row gen).

Lemma batch_step_neg self (batch_size : Z) (i : nat) pb lb ib :
  BYOP.batch_step self (- batch_size) i pb lb ib = BYOP.batch_step self batch_size i pb lb ib.
Proof.
  unfold BYOP.batch_step.
  destruct (getitem (BYOP.prompts self) i); [|done]. simpl.
  destruct (getitem (BYOP.init_latents self) i); [|done]. simpl.
  match goal with |- bind ?m _ = _ => destruct m; [|done] end. simpl.
  apply mod_neg_branch.
Qed.

Lemma batch_loop_neg self (batch_size : Z) (l : list nat) pb lb ib :
  BYOP.batch_loop self (- batch_size) l pb lb ib = BYOP.batch_loop self batch_size l pb lb ib.
Proof.
  revert pb lb ib. induction l as [|i l IH]; intros pb lb ib; simpl; [done|].
  rewrite batch_step_neg.
  destruct (BYOP.batch_step self batch_size i pb lb ib) as [[y [[pb' lb'] ib']]|e]; [|done].
  by rewrite IH.
Qed.

(** X5: A negative batch size is not rejected: the generator behaves as for
    its absolute value. *)
Theorem batch_generator_negative_size self (frame_list : list nat) (batch_size : Z) :
  BYOP.batch_generator self frame_list batch_size
  = BYOP.batch_generator self frame_list (Z.abs batch_size).
Proof.
  destruct (Z.abs_spec batch_size) as [[_ ->]|[_ ->]]; [done|].
  symmetry. apply batch_loop_neg.
Qed.

(** One turn of the loop on a frame that has its entries. *)
Lemma batch_step_batchable self (b : nat) (pending : list nat) (i : nat) :
  (0 < b)%nat → (length pending < b)%nat →
  Forall (batchable self) pending → batchable self i →
  BYOP.batch_step self (Z.of_nat b) i
      (omap (λ i, BYOP.prompts self !! i) pending)
      (omap (λ i, BYOP.init_latents self !! i) pending)
      (pending_images self pending)
    = Ok (if decide (length pending + 1 = b)%nat
          then (Some (batch_of self (pending ++ [i])), ([], [], []))
          else (None, (omap (λ i, BYOP.prompts self !! i) (pending ++ [i]),
                       omap (λ i, BYOP.init_latents self !! i) (pending ++ [i]),
                       pending_images self (pending ++ [i])))).
Proof.
  intros Hb Hlen Hpend Hi.
  destruct Hi as ([lat Hlat] & (p & Hp & Hemb) & Hfr).
  assert (length (omap (λ i, BYOP.prompts self !! i) pending) = length pending) as Hplen.
  { apply omap_length_all. eapply Forall_impl; [exact Hpend|].
    intros j (_ & (q & -> & _) & _). done. }
  assert (match BYOP.frames self with
          | Some frames =>
              let? frame := index frames i in
              Ok (pending_images self pending ++ [[frame]])
          | None => Ok (pending_images self pending)
          end = Ok (pending_images self (pending ++ [i]))) as Hstep.
  { unfold pending_images. destruct (BYOP.frames self) as [frames|] eqn:Efr; [|done].
    destruct (Hfr frames eq_refl) as [fr Hfrm].
    unfold index. rewrite Hfrm. simpl.
    by rewrite (omap_snoc _ _ _ fr), map_app. }
  unfold BYOP.batch_step, getitem. rewrite Hp, Hlat. simpl.
  rewrite Hstep. simpl. unfold BYOP.mod_.
  rewrite decide_False by lia. simpl.
  rewrite length_app, Hplen. simpl.
  rewrite (omap_snoc _ _ _ p), (omap_snoc _ _ _ lat) by done.
  destruct (decide (length pending + 1 = b)%nat) as [Hfull|Hnot].
  - rewrite decide_True
      by (rewrite <- Hfull, Nat2Z.inj_add; apply Z.mod_same; lia).
    assert ((if BYOP.use_prompt_embeds self
             then let? t := cat (omap (λ i, BYOP.prompts self !! i) pending ++ [p]) in
                  Ok (BYOP.Embeds t)
             else Ok (BYOP.Prompts (omap (λ i, BYOP.prompts self !! i) pending ++ [p])))
            = Ok (BYOP.batch_prompts (batch_of self (pending ++ [i])))) as Hpb.
    { unfold batch_of. simpl. rewrite (omap_snoc _ _ _ p) by done.
      destruct (BYOP.use_prompt_embeds self) eqn:Eemb; [|done].
      rewrite cat_tensors; [done|].
      apply Forall_app. split.
      - apply Forall_forall. intros v Hv.
        apply list_elem_of_omap in Hv as (j & Hj & Hv).
        rewrite Forall_forall in Hpend.
        destruct (Hpend j Hj) as (_ & (q & Hq & Hqt) & _).
        rewrite Hq in Hv. injection Hv as <-. by apply Hqt.
      - constructor; [|done]. by apply Hemb. }
    rewrite Hpb. simpl. do 3 f_equal.
    unfold batch_of. simpl. rewrite (omap_snoc _ _ _ lat) by done. f_equal.
    unfold pending_images.
    destruct (BYOP.frames self); [|done]. by rewrite concat_singletons.
  - rewrite decide_False; [done|].
    intros Hz. apply Z.mod_divide in Hz; [|lia]. destruct Hz as [k Hk].
    assert (0 < k) by nia. assert (k < 2) by nia. nia.
Qed.

(** The frames left pending after [l] has been grouped by [b]. *)
Lemma batch_loop_app self (b : nat) (pre rest pending : list nat) :
  (0 < b)%nat → (length pending < b)%nat →
  Forall (batchable self) (pending ++ pre) →
  let all := pending ++ pre in
  let left := drop (b * (length all / b)) all in
  BYOP.batch_loop self (Z.of_nat b) (pre ++ rest)
      (omap (λ i, BYOP.prompts self !! i) pending)
      (omap (λ i, BYOP.init_latents self !! i) pending)
      (pending_images self pending)
    = (map (batch_of self) (chunks b all)
         ++ (BYOP.batch_loop self (Z.of_nat b) rest
               (omap (λ i, BYOP.prompts self !! i) left)
               (omap (λ i, BYOP.init_latents self !! i) left)
               (pending_images self left)).1,
       (BYOP.batch_loop self (Z.of_nat b) rest
               (omap (λ i, BYOP.prompts self !! i) left)
               (omap (λ i, BYOP.init_latents self !! i) left)
               (pending_images self left)).2).
Proof.
  intros Hb. revert pending.
  induction pre as [|i pre IH]; intros pending Hlen Hall; cbv zeta.
  - rewrite !app_nil_r. rewrite chunks_short by done.
    rewrite Nat.div_small by done. rewrite Nat.mul_0_r, drop_0. simpl.
    by destruct (BYOP.batch_loop _ _ _ _ _ _).
  - assert (Forall (batchable self) pending ∧ batchable self i) as [Hpend Hi].
    { apply Forall_app in Hall as [? Hi]. by apply Forall_cons in Hi as [? _]. }
    cbn [app BYOP.batch_loop].
    rewrite batch_step_batchable by done.
    replace (pending ++ i :: pre) with ((pending ++ [i]) ++ pre) in *
      by (by rewrite <- app_assoc).
    destruct (decide (length pending + 1 = b)%nat) as [Hfull|Hnot].
    + assert (length (pending ++ [i]) = b) as Hc by (rewrite length_app; simpl; lia).
      assert (pending_images self [] = []) as Hnil.
      { unfold pending_images. by destruct (BYOP.frames self). }
      specialize (IH [] ltac:(simpl; lia)). cbv zeta in IH.
      rewrite app_nil_l in IH. simpl omap in IH. rewrite Hnil in IH.
      rewrite IH by (by apply Forall_app in Hall as [_ ?]).
      rewrite chunks_full by done.
      replace (drop (b * (length ((pending ++ [i]) ++ pre) `div` b)) ((pending ++ [i]) ++ pre))
        with (drop (b * (length pre `div` b)) pre); [done|].
      rewrite length_app, Hc.
      replace ((b + length pre) / b)%nat with (S (length pre / b)).
      2:{ replace (b + length pre)%nat with (1 * b + length pre)%nat by lia.
          rewrite Nat.div_add_l by lia. lia. }
      replace (b * S (length pre `div` b))%nat
        with (length (pending ++ [i]) + b * (length pre `div` b))%nat by lia.
      by rewrite drop_app_add.
    + rewrite IH; [done| |done]. rewrite length_app. simpl. lia.
Qed.

(** X6: A frame without timeline entry ends the generator with [KeyError] at
    that frame: the full groups of the frames before it have been yielded,
    the pending partial group is lost. *)
Theorem batch_generator_missing_frame self (pre rest : list nat) (i : nat)
    (batch_size : Z) :
  0 < batch_size →
  Forall (batchable self) pre →
  BYOP.prompts self !! i = None ∨ BYOP.init_latents self !! i = None →
  BYOP.batch_generator self (pre ++ i :: rest) batch_size
    = (map (batch_of self) (chunks (Z.to_nat batch_size) pre), Some (KeyError i)).
Proof.
  intros Hb Hpre Hmiss.
  remember (Z.to_nat batch_size) as b eqn:Eb.
  assert (batch_size = Z.of_nat b) as -> by lia. clear Eb.
  assert (0 < b)%nat as Hb' by lia.
  assert (pending_images self [] = []) as Hnil.
  { unfold pending_images. by destruct (BYOP.frames self). }
  pose proof (batch_loop_app self b pre (i :: rest) [] Hb' ltac:(simpl; lia) Hpre) as H.
  cbv zeta in H. simpl omap in H. rewrite Hnil in H. rewrite app_nil_l in H.
  unfold BYOP.batch_generator. rewrite H. clear H.
  cbn [BYOP.batch_loop]. unfold BYOP.batch_step, getitem.
  destruct (BYOP.prompts self !! i) as [p|] eqn:Ep.
  - destruct Hmiss as [?|Hl]; [done|]. rewrite Hl. simpl. by rewrite app_nil_r.
  - simpl. by rewrite app_nil_r.
Qed.

(** X7: A zero batch size raises [ZeroDivisionError] on the first frame, once
    its entries have been read; nothing is yielded. *)
Theorem batch_generator_zero_size self (i : nat) (rest : list nat) :
  batchable self i →
  BYOP.batch_generator self (i :: rest) 0 = ([], Some ZeroDivisionError).
Proof.
  intros ([lat Hlat] & (p & Hp & _) & Hfr).
  unfold BYOP.batch_generator. cbn [BYOP.batch_loop].
  unfold BYOP.batch_step, getitem. rewrite Hp, Hlat. simpl.
  destruct (BYOP.frames self) as [frames|]; [|done].
  destruct (Hfr frames eq_refl) as [fr Hfrm]. unfold index. by rewrite Hfrm.
Qed.

End BatcherEdges.

Section GiffusionBatcherEdges.

Context {row gen : Type}.
Local Abbreviation tensor := (tensor row).
Variable manual_seed : Z → gen.
Implicit Types (self : Giffusion.GiffusionFlow row).

(** With [p] frames pending in a group, the [k]-th batch the loop yields is
    closed by the frame at index [k * b + (b - 1 - p)] of the list. *)
Lemma giffusion_batch_loop_generators self (batch_size : Z) (l : list nat)
    (tb lb : list tensor) (k : nat) (b : Giffusion.batch) :
  (length tb < Z.to_nat (Z.abs batch_size))%nat →
  (Giffusion.batch_loop manual_seed self batch_size l tb lb []).1 !! k = Some b →
  ∃ i s,
    l !! (k * Z.to_nat (Z.abs batch_size)
          + (Z.to_nat (Z.abs batch_size) - 1 - length tb))%nat = Some i ∧
    Giffusion.seed_schedule self !! i = Some s ∧
    Giffusion.batch_generators b = [manual_seed s].
Proof.
  set (n := Z.to_nat (Z.abs batch_size)).
  revert tb lb k. induction l as [|i l IH]; intros tb lb k Hp Hk; [done|].
  simpl in Hk. unfold Giffusion.batch_step in Hk.
  destruct (getitem (Giffusion.text_embeddings self) i) as [txt|]; [|done]. simpl in Hk.
  destruct (getitem (Giffusion.init_latents self) i) as [lat|]; [|done]. simpl in Hk.
  unfold BYOP.mod_ in Hk.
  destruct (decide (batch_size = 0)) as [|Hnz]; [done|]. simpl in Hk.
  rewrite length_app in Hk. simpl in Hk.
  assert (Z.of_nat (length tb + 1) `mod` batch_size = 0 ↔ (length tb + 1 = n)%nat)
    as Hclose.
  { rewrite Z.mod_divide by done. rewrite <- Z.divide_abs_l.
    replace (Z.abs batch_size) with (Z.of_nat n) by lia. split.
    - intros [c Hc]. assert (0 < c) by nia. assert (c < 2) by nia. nia.
    - intros <-. apply Z.divide_refl. }
  destruct (decide (Z.of_nat (length tb + 1) `mod` batch_size = 0)) as [Hz|Hz].
  - apply Hclose in Hz. unfold getitem in Hk.
    destruct (Giffusion.seed_schedule self !! i) as [s|] eqn:Es; [|done]. simpl in Hk.
    destruct (Giffusion.batch_loop manual_seed self batch_size l [] [] [])
      as [bs e'] eqn:Eloop.
    simpl in Hk. destruct k as [|k].
    + injection Hk as <-. exists i, s.
      replace (0 * n + (n - 1 - length tb))%nat with 0%nat by lia. done.
    + simpl in Hk.
      destruct (IH [] [] k ltac:(simpl; lia)) as (j & s' & Hj & Hs' & Hb).
      { by rewrite Eloop. }
      exists j, s'. split; [|done].
      replace (S k * n + (n - 1 - length tb))%nat
        with (S (k * n + (n - 1 - length (@nil tensor))))%nat by (simpl; lia).
      done.
  - assert (length tb + 1 ≠ n)%nat as Hne by (intros ?; by apply Hz, Hclose).
    destruct (Giffusion.batch_loop manual_seed self batch_size l (tb ++ [txt])
                (lb ++ [lat]) []) as [bs e'] eqn:Eloop.
    simpl in Hk.
    destruct (IH (tb ++ [txt]) (lb ++ [lat]) k) as (j & s' & Hj & Hs' & Hb).
    { rewrite length_app. simpl. lia. }
    { by rewrite Eloop. }
    exists j, s'. split; [|done].
    rewrite length_app in Hj. simpl in Hj.
    replace (k * n + (n - 1 - length tb))%nat
      with (S (k * n + (n - 1 - (length tb + 1))))%nat by lia.
    done.
Qed.

(** X8: Every batch the Giffusion batcher yields carries exactly one generator,
    whatever the batch size: a fresh one, seeded with the seed the schedule
    holds for the frame that closes the batch, the last of its
    [abs(batch_size)] frames. *)
Theorem giffusion_one_generator_per_batch self (frame_list : list nat) (batch_size : Z)
    (k : nat) (b : Giffusion.batch) :
  (Giffusion.batch_generator manual_seed self frame_list batch_size).1 !! k = Some b →
  ∃ i s,
    frame_list !! ((k + 1) * Z.to_nat (Z.abs batch_size) - 1)%nat = Some i ∧
    Giffusion.seed_schedule self !! i = Some s ∧
    Giffusion.batch_generators b = [manual_seed s].
Proof.
  intros Hk. unfold Giffusion.batch_generator in Hk.
  destruct (decide (batch_size = 0)) as [->|Hnz].
  { destruct frame_list as [|i l]; [done|]. simpl in Hk.
    unfold Giffusion.batch_step in Hk.
    destruct (getitem (Giffusion.text_embeddings self) i); [|done]. simpl in Hk.
    by destruct (getitem (Giffusion.init_latents self) i). }
  destruct (giffusion_batch_loop_generators self batch_size frame_list [] [] k b)
    as (i & s & Hi & Hs & Hb); [simpl; lia|done|].
  exists i, s. split; [|done].
  simpl in Hi.
  replace ((k + 1) * Z.to_nat (Z.abs batch_size) - 1)%nat
    with (k * Z.to_nat (Z.abs batch_size) + (Z.to_nat (Z.abs batch_size) - 1 - 0))%nat
    by lia.
  done.
Qed.

End GiffusionBatcherEdges.

(** * The timelines: embeddings and the fixed latent *)

Section TimelineValues.

Context {row gen rng : Type}.
Local Abbreviation tensor := (tensor row).
Local Abbreviation value := (value row gen).

Lemma enumerate_fold_Forall {A B} (g : B → A) (P : A → Prop) (start : nat)
    (l : list B) (k : nat) (m : gmap nat A) :
  map_Forall (λ _, P) m → (∀ t, P (g t)) →
  map_Forall (λ _, P)
    (foldl (λ out '(i, t), <[(i + start)%nat := g t]> out) m (zip (seq k (length l)) l)).
Proof.
  intros Hm Hg. revert k m Hm. induction l as [|x l IH]; intros k m Hm; simpl; [done|].
  apply IH. by apply map_Forall_insert_2.
Qed.

Lemma fill_Forall {A} (g : float → A) (P : A → Prop) (start : nat)
    (sched : list float) (m : gmap nat A) :
  map_Forall (λ _, P) m → (∀ t, P (g t)) → map_Forall (λ _, P) (BYOP.fill g start sched m).
Proof. intros. unfold BYOP.fill, enumerate. by apply enumerate_fold_Forall. Qed.

Variable manual_seed : Z → gen.
Variable randn : list Z → gen → tensor * gen.
Variable slerp : float → tensor → tensor → tensor.
Variable prompt_to_embedding : string → tensor.
Variable onset_strength : list Q → Z → result (list Q).
Variable normalize : list Q → result (list Q).
Variable self : BYOP.BYOPFlow row gen.

Hypothesis uniform : BYOP.audio self = None.

Lemma prompt_embeddings_loop_dom (kfs : list (nat * string)) (f : nat) (p : string)
    (out : gmap nat value) (w : world row gen rng) :
  ascending_from f kfs →
  map_Forall (λ _ v, is_Some (as_tensor v)) out →
  ∃ m,
    BYOP.prompt_embeddings_loop slerp prompt_to_embedding onset_strength normalize self
      (zip ((f, p) :: kfs) kfs) out w = (Ok m, w) ∧
    dom m = dom out ∪ (if kfs is [] then ∅ else set_seq f (last_frame f kfs - f + 1)) ∧
    map_Forall (λ _ v, is_Some (as_tensor v)) m.
Proof.
  revert f p out w.
  induction kfs as [|[f' p'] kfs IH]; intros f p out w Hasc Hout.
  - exists out. split; [done|]. split; [set_solver|done].
  - destruct Hasc as [Hlt Hasc].
    cbn [zip zip_with BYOP.prompt_embeddings_loop].
    destruct (uniform_schedule onset_strength normalize f f' (BYOP.fps self) w)
      as (ts & Hrun & Hts); [lia|].
    unfold bindM at 1. rewrite uniform, Hrun.
    destruct (linspace_ok 0 1 (Z.of_nat f' - Z.of_nat f + 1)) as (ts' & Hts' & Hlen); [lia|].
    rewrite Hts in Hts'. apply Ok_inj in Hts' as <-.
    set (out' := BYOP.fill _ f (map Fin ts) out).
    destruct (IH f' p' out' w Hasc) as (m & Hloop & Hdom & Hall).
    { apply fill_Forall; [done|]. intros t. by eexists. }
    exists m. split; [exact Hloop|]. split; [|done].
    rewrite Hdom. unfold out'. rewrite fill_dom, length_map, Hlen, last_frame_cons. simpl.
    replace (Z.to_nat (Z.of_nat f' - Z.of_nat f + 1)) with (f' - f + 1)%nat by lia.
    destruct kfs as [|kf kfs].
    + unfold last_frame. simpl. set_solver.
    + pose proof (ascending_last_frame f' (kf :: kfs) Hasc).
      rewrite <- union_assoc_L. rewrite set_seq_join by lia. done.
Qed.

(** X9: The prompt-embedding timeline of at least two sorted keyframes, in
    uniform mode: one tensor for every frame from the first keyframe to the
    last, and no effect on the generator or the random module. *)
Theorem byop_prompt_embeddings_cover (f0 f1 : nat) (p0 p1 : string)
    (kfs : list (nat * string)) (n : nat) (w : world row gen rng) :
  ascending_from f0 ((f1, p1) :: kfs) →
  BYOP.frame_count ((f0, p0) :: (f1, p1) :: kfs) = Ok n →
  ∃ timeline,
    BYOP.get_prompt_embeddings slerp prompt_to_embedding onset_strength normalize self
      ((f0, p0) :: (f1, p1) :: kfs) w = (Ok timeline, w) ∧
    dom timeline = set_seq f0 (n - f0) ∧
    (∀ i, (f0 ≤ i < n)%nat → ∃ t, timeline !! i = Some (VTensor t)).
Proof.
  intros Hasc Hn.
  pose proof (ascending_max f0 _ Hasc) as Hmax.
  pose proof (ascending_last_frame f0 _ Hasc) as Hlast.
  unfold BYOP.frame_count in Hn. apply Ok_inj in Hn.
  change (((f0, p0) :: (f1, p1) :: kfs).*1) with (f0 :: ((f1, p1) :: kfs).*1) in Hn.
  rewrite Hmax in Hn.
  destruct (prompt_embeddings_loop_dom ((f1, p1) :: kfs) f0 p0 ∅ w Hasc)
    as (m & Hloop & Hdom & Hall); [apply map_Forall_empty|].
  exists m. split; [exact Hloop|].
  assert (dom m = set_seq f0 (n - f0)) as Hd.
  { rewrite Hdom, dom_empty_L, union_empty_l_L. f_equal. lia. }
  split; [done|]. intros i Hi.
  assert (i ∈ dom m) as Hin by (rewrite Hd, elem_of_set_seq; lia).
  apply elem_of_dom in Hin as [v Hv].
  destruct (Hall i v Hv) as [t Ht]. destruct v; try done.
  simpl in Ht. injection Ht as ->. by exists t.
Qed.

Hypothesis scale : BYOP.vae_scale_factor self ≠ 0.
Hypothesis fixed : BYOP.use_fixed_latent self = true.



End TimelineValues.

(** * Construction and the driver of [BYOPFlow] *)

Section Construction.

Context {row gen rng : Type}.
Local Abbreviation tensor := (tensor row).
Local Abbreviation value := (value row gen).

Variable random_seed : Z → rng.
Variable random_randint : Z → Z → rng → Z * rng.
Variable manual_seed : Z → gen.
Variable randn : list Z → gen → tensor * gen.
Variable slerp : float → tensor → tensor → tensor.
Variable prompt_to_embedding : string → tensor.
Variable onset_strength : list Q → Z → result (list Q).
Variable normalize : list Q → result (list Q).
Implicit Types (self : BYOP.BYOPFlow row gen).

Lemma get_prompts_is_Some self (key_frames : list (nat * string)) (i : nat) :
  is_Some (BYOP.get_prompts self key_frames !! i) ↔ (i < BYOP.max_frames self)%nat.
Proof.
  rewrite get_prompts_lookup, lookup_lt_is_Some. unfold BYOP.ffill.
  by rewrite ffill_from_length, assign_prompts_length, length_replicate.
Qed.

(** X15: [__init__] refuses a flow given both an image and a video, or no
    keyframe at all, before the random module or the generator is touched. *)
Theorem init_rejects_before_seeding self (key_frames : list (nat * string))
    (w : world row gen rng) :
  (is_Some (BYOP.image_input self) ∧ is_Some (BYOP.video_input self)) ∨ key_frames = [] →
  BYOP.init random_seed random_randint manual_seed randn slerp prompt_to_embedding
    onset_strength normalize self key_frames w = (Raise ValueError, w).
Proof.
  intros [[[im Him] [vid Hvid]]| ->]; unfold BYOP.init, bindM, lift, BYOP.check_inputs.
  - by rewrite Him, Hvid.
  - by destruct (BYOP.image_input self), (BYOP.video_input self).
Qed.

(** X16: [__init__] without a video and without audio, on at least two sorted
    keyframes, with a master seed of 64 bits and a latent shape without
    negative dimension: the flow it builds has no frames and the height and
    width that were passed, keeps the other constructor arguments, counts
    the frames up to the last keyframe, holds one seed per frame, a latent
    for every frame from the first keyframe on and a prompt for each of them
    (a tensor in embedding mode). *)
Theorem init_builds_flow self (f0 f1 : nat) (p0 p1 : string)
    (kfs : list (nat * string)) (w : world row gen rng) :
  BYOP.video_input self = None →
  BYOP.audio self = None →
  0 ≤ BYOP.seed self ≤ 18446744073709551615 →
  0 < BYOP.vae_scale_factor self →
  0 ≤ BYOP.num_latent_channels self ∧ 0 ≤ BYOP.height self ∧ 0 ≤ BYOP.width self →
  ascending_from f0 ((f1, p1) :: kfs) →
  let n := S (last_frame f0 ((f1, p1) :: kfs)) in
  ∃ flow w',
    BYOP.init random_seed random_randint manual_seed randn slerp prompt_to_embedding
      onset_strength normalize self ((f0, p0) :: (f1, p1) :: kfs) w = (Ok flow, w') ∧
    flow = BYOP.with_timelines
             (BYOP.with_schedule
                (BYOP.with_frames self None (BYOP.height self) (BYOP.width self)) n
                (draws (random_randint 0 18446744073709551615) n
                       (random_seed (BYOP.seed self))).1)
             (BYOP.init_latents flow) (BYOP.prompts flow) ∧
    BYOP.frames flow = None ∧
    BYOP.height flow = BYOP.height self ∧ BYOP.width flow = BYOP.width self ∧
    length (BYOP.seed_schedule flow) = n ∧
    (∀ i, is_Some (BYOP.init_latents flow !! i) ↔ (f0 ≤ i < n)%nat) ∧
    (∀ i, (f0 ≤ i < n)%nat →
          ∃ p, BYOP.prompts flow !! i = Some p ∧
               (BYOP.use_prompt_embeds self = true → is_Some (as_tensor p))).
Proof.
  intros Hvideo Huni _ Hpos _ Hasc n.
  assert (BYOP.vae_scale_factor self ≠ 0) as Hscale by lia.
  pose proof (ascending_max f0 _ Hasc) as Hmax.
  assert (BYOP.frame_count ((f0, p0) :: (f1, p1) :: kfs) = Ok n) as Hn.
  { unfold BYOP.frame_count.
    change (((f0, p0) :: (f1, p1) :: kfs).*1) with (f0 :: ((f1, p1) :: kfs).*1).
    rewrite Hmax. f_equal. unfold n. lia. }
  unfold BYOP.init.
  assert (BYOP.check_inputs (BYOP.image_input self) (BYOP.video_input self) = Ok ())
    as Hcheck.
  { unfold BYOP.check_inputs. rewrite Hvideo. by destruct (BYOP.image_input self). }
  unfold bindM at 1. unfold lift at 1. rewrite Hcheck, Hvideo.
  set (self0 := BYOP.with_frames self None (BYOP.height self) (BYOP.width self)).
  unfold bindM at 1. unfold lift at 1. rewrite Hn.
  unfold bindM at 1. change (BYOP.seed self0) with (BYOP.seed self).
  rewrite byop_seed_schedule_run.
  set (seeds := (draws _ n _).1).
  set (w1 := World _ _ _ _).
  set (self1 := BYOP.with_schedule self0 n seeds).
  assert (length seeds = n) as Hseeds by apply draws_length.
  unfold BYOP.get_init_latents.
  destruct (sample_latent_returns manual_seed randn self1 Hscale (BYOP.seed self1) w1)
    as (t0 & w2 & Hs0).
  unfold bindM at 1. unfold bindM at 1. rewrite Hs0.
  destruct (init_latents_loop_dom manual_seed randn slerp onset_strength normalize
              self1 Huni Hscale ((f1, p1) :: kfs) f0 p0 t0 ∅ w2 Hasc)
    as (lat & w3 & Hloop & Hdom).
  { apply Forall_forall. intros [f p] Hin. simpl. rewrite Hseeds.
    assert (f ≤ max_list (f0 :: ((f1, p1) :: kfs).*1))%nat as Hle.
    { apply max_list_elem_of_le. right. by apply (list_elem_of_fmap_2 fst) in Hin. }
    rewrite Hmax in Hle. unfold n. lia. }
  change (zip ((f0, p0) :: (f1, p1) :: kfs) (tail ((f0, p0) :: (f1, p1) :: kfs)))
    with (zip ((f0, p0) :: (f1, p1) :: kfs) ((f1, p1) :: kfs)).
  rewrite Hloop.
  assert (∀ i, is_Some (lat !! i) ↔ (f0 ≤ i < n)%nat) as Hlat.
  { intros i. rewrite <- elem_of_dom, Hdom, dom_empty_L, union_empty_l_L.
    rewrite elem_of_set_seq. pose proof (ascending_last_frame f0 _ Hasc). unfold n. lia. }
  change (BYOP.use_prompt_embeds self1) with (BYOP.use_prompt_embeds self).
  destruct (BYOP.use_prompt_embeds self) eqn:Hemb.
  - unfold BYOP.get_prompt_embeddings.
    change (zip ((f0, p0) :: (f1, p1) :: kfs) (tail ((f0, p0) :: (f1, p1) :: kfs)))
      with (zip ((f0, p0) :: (f1, p1) :: kfs) ((f1, p1) :: kfs)).
    destruct (prompt_embeddings_loop_dom slerp prompt_to_embedding onset_strength
                normalize self1 Huni ((f1, p1) :: kfs) f0 p0 ∅ w3 Hasc)
      as (ps & Hps & Hpdom & Hall); [apply map_Forall_empty|].
    unfold bindM at 1. rewrite Hps.
    eexists _, _. split; [reflexivity|]. cbn.
    split; [done|]. split; [done|]. split; [done|]. split; [done|].
    split; [done|]. split; [done|].
    intros i Hi.
    assert (i ∈ dom ps) as Hin.
    { rewrite Hpdom, dom_empty_L, union_empty_l_L, elem_of_set_seq. unfold n in Hi. lia. }
    apply elem_of_dom in Hin as [v Hv]. exists v. split; [done|].
    intros _. exact (Hall i v Hv).
  - unfold bindM at 1. unfold ret at 1.
    eexists _, _. split; [reflexivity|]. cbn.
    split; [done|]. split; [done|]. split; [done|]. split; [done|].
    split; [done|]. split; [done|].
    intros i Hi.
    destruct (proj2 (get_prompts_is_Some self1 ((f0, p0) :: (f1, p1) :: kfs) i))
      as [v Hv]; [simpl; lia|].
    exists v. split; [done|]. intros Habs. discriminate Habs.
Qed.

End Construction.

Section Driver.

Context {row gen rng : Type}.
Local Abbreviation tensor := (tensor row).
Local Abbreviation value := (value row gen).

Variable manual_seed : Z → gen.
Variable pipe : gmap string value → gen → result tensor * gen.
Implicit Types (self : BYOP.BYOPFlow row gen).

Lemma prepare_inputs_returns self b (w : world row gen rng) :
  ∃ kwargs,
    BYOP.prepare_inputs manual_seed self b w = (Ok kwargs, after_prepare manual_seed self w).
Proof. destruct (prepare_inputs_lookup manual_seed self b w) as (kw & Hrun & _). by exists kw. Qed.

Lemma after_prepare_logs self (w : world row gen rng) :
  pipe_calls (after_prepare manual_seed self w) = pipe_calls w.
Proof. unfold after_prepare. by destruct (BYOP.accepts self "generator"). Qed.

Lemma run_batches_ok self (batches : list (@BYOP.batch row gen)) (w : world row gen rng) :
  (∀ kwargs g, ∃ images g', pipe kwargs g = (Ok images, g')) →
  ∃ images w',
    mapM (λ b, let* pipe_kwargs := BYOP.prepare_inputs manual_seed self b in
               BYOP.call_pipe pipe pipe_kwargs) batches w = (Ok images, w') ∧
    length images = length batches ∧
    length (pipe_calls w') = (length (pipe_calls w) + length batches)%nat.
Proof.
  intros Hpipe. revert w. induction batches as [|b batches IH]; intros w.
  - exists [], w. simpl. split; [done|]. split; [done|]. lia.
  - destruct (prepare_inputs_returns self b w) as (kw & Hrun).
    cbn [mapM]. unfold bindM at 1. unfold bindM at 1. rewrite Hrun.
    unfold BYOP.call_pipe at 1. unfold bindM at 1. unfold log_pipe_call at 1.
    cbn [generator pipe_calls random_state audio_slices].
    destruct (Hpipe kw (generator (after_prepare manual_seed self w))) as (im & g' & Hcall).
    rewrite Hcall.
    set (w1 := World g' _ _ _).
    destruct (IH w1) as (images & w' & Hrest & Hlen & Hcalls).
    unfold bindM at 1. rewrite Hrest.
    exists (im :: images), w'. split; [done|]. split; [simpl; lia|].
    rewrite Hcalls. unfold w1. cbn [pipe_calls]. rewrite length_app, after_prepare_logs.
    simpl. lia.
Qed.

(** X17: When the model answers every call, [create] calls it once for each
    batch the batcher yields, in order, and only then lets the exception that
    ended the batcher through. *)
Theorem create_follows_batcher self (frame_list : option (list nat))
    (w : world row gen rng) :
  (∀ kwargs g, ∃ images g', pipe kwargs g = (Ok images, g')) →
  let yielded :=
    BYOP.batch_generator self (BYOP.frames_or_all self frame_list) (BYOP.batch_size self) in
  ∃ images w',
    BYOP.create manual_seed pipe self frame_list w
      = (match yielded.2 with Some e => Raise e | None => Ok images end, w') ∧
    length images = length yielded.1 ∧
    length (pipe_calls w') = (length (pipe_calls w) + length yielded.1)%nat.
Proof.
  intros Hpipe yielded. unfold BYOP.create. fold yielded.
  destruct yielded as [batches e]. cbn [fst snd].
  destruct (run_batches_ok self batches w Hpipe) as (images & w' & Hrun & Hlen & Hcalls).
  exists images, w'. unfold bindM at 1. rewrite Hrun. by destruct e.
Qed.

(** X18: A model failure ends the run at once: the batches after the failing one
    are never prepared, and the exception of the model is the one raised. *)
Theorem create_stops_at_model_failure self (frame_list : option (list nat))
    (w : world row gen rng) (e : exn) b batches eb :
  (∀ kwargs g, ∃ g', pipe kwargs g = (Raise e, g')) →
  BYOP.batch_generator self (BYOP.frames_or_all self frame_list) (BYOP.batch_size self)
    = (b :: batches, eb) →
  ∃ w',
    BYOP.create manual_seed pipe self frame_list w = (Raise e, w') ∧
    length (pipe_calls w') = S (length (pipe_calls w)).
Proof.
  intros Hpipe Hb. unfold BYOP.create. rewrite Hb.
  destruct (prepare_inputs_returns self b w) as (kw & Hrun).
  cbn [mapM]. unfold bindM at 1. unfold bindM at 1. unfold bindM at 1. rewrite Hrun.
  unfold BYOP.call_pipe at 1. unfold bindM at 1. unfold log_pipe_call at 1.
  cbn [generator pipe_calls random_state audio_slices].
  destruct (Hpipe kw (generator (after_prepare manual_seed self w))) as (g' & Hcall).
  rewrite Hcall. eexists. split; [reflexivity|].
  cbn [pipe_calls]. rewrite length_app, after_prepare_logs. simpl. lia.
Qed.

(** X19: A default run over a flow whose timelines hold every frame: the model
    is called [max_frames // batch_size] times and as many results come
    back. *)
Theorem create_default_run self (w : world row gen rng) :
  0 < BYOP.batch_size self →
  (∀ i, (i < BYOP.max_frames self)%nat → batchable self i) →
  (∀ kwargs g, ∃ images g', pipe kwargs g = (Ok images, g')) →
  ∃ images w',
    BYOP.create manual_seed pipe self None w = (Ok images, w') ∧
    Z.of_nat (length images) = Z.of_nat (BYOP.max_frames self) `div` BYOP.batch_size self ∧
    length (pipe_calls w') = (length (pipe_calls w) + length images)%nat.
Proof.
  intros Hb Hall Hpipe.
  remember (Z.to_nat (BYOP.batch_size self)) as b eqn:Eb.
  assert (BYOP.batch_size self = Z.of_nat b) as Hbs by lia.
  assert (BYOP.batch_generator self (range (BYOP.max_frames self)) (BYOP.batch_size self)
          = (map (batch_of self) (chunks b (range (BYOP.max_frames self))), None)) as Hgen.
  { rewrite Hbs.
    pose proof (batch_loop_chunks self b (range (BYOP.max_frames self)) []) as H.
    assert (pending_images self [] = []) as Hnil.
    { unfold pending_images. by destruct (BYOP.frames self). }
    rewrite Hnil in H. apply H; [lia|simpl; lia|].
    apply Forall_forall. intros i Hi. apply Hall.
    unfold range in Hi. apply elem_of_seq in Hi. lia. }
  unfold BYOP.create. cbn [BYOP.frames_or_all]. rewrite Hgen.
  destruct (run_batches_ok self (map (batch_of self) (chunks b (range (BYOP.max_frames self))))
              w Hpipe) as (images & w' & Hrun & Hlen & Hcalls).
  exists images, w'. unfold bindM at 1. rewrite Hrun. split; [done|].
  rewrite length_map, chunks_length in Hlen, Hcalls. unfold range in Hlen, Hcalls.
  rewrite length_seq in Hlen, Hcalls.
  split; [|lia]. rewrite Hlen, Nat2Z.inj_div, Hbs. done.
Qed.

(** X20: A default run starts at frame 0: a flow whose latent timeline starts
    later (its first keyframe is not frame 0) fails with [KeyError] on frame 0
    before the model is called once. *)
Theorem create_without_frame_zero self (w : world row gen rng) :
  (0 < BYOP.max_frames self)%nat →
  BYOP.init_latents self !! 0%nat = None →
  BYOP.create manual_seed pipe self None w = (Raise (KeyError 0), w).
Proof.
  intros Hn Hlat. unfold BYOP.create. cbn [BYOP.frames_or_all]. unfold range.
  destruct (BYOP.max_frames self) as [|n]; [lia|].
  cbn [seq]. unfold BYOP.batch_generator. cbn [BYOP.batch_loop].
  unfold BYOP.batch_step, getitem. rewrite Hlat.
  by destruct (BYOP.prompts self !! 0%nat).
Qed.

End Driver.

(** * Construction and seeds of [GiffusionFlow] *)

Section GiffusionConstruction.

Context {row gen rng : Type}.
Local Abbreviation tensor := (tensor row).

Variable random_seed : Z → rng.
Variable random_randint : Z → Z → rng → Z * rng.
Variable manual_seed : Z → gen.
Variable randn : list Z → gen → tensor * gen.
Variable slerp : float → tensor → tensor → tensor.
Variable prompt_to_embedding : string → tensor.
Variable pad_embedding : tensor → tensor → tensor * tensor.
Implicit Types (self : Giffusion.GiffusionFlow row).


End GiffusionConstruction.

Section GiffusionSeeds.

Context {row gen : Type}.
Local Abbreviation tensor := (tensor row).
Variable manual_seed : Z → gen.
Implicit Types (self : Giffusion.GiffusionFlow row).

(** One turn of the loop on a frame that has its two entries. *)
Lemma giffusion_batch_step_batchable self (b : nat) (pending : list nat) (i : nat) :
  (0 < b)%nat → (length pending < b)%nat →
  Forall (giffusion_batchable self) pending → giffusion_batchable self i →
  Giffusion.batch_step manual_seed self (Z.of_nat b) i
      (omap (λ i, Giffusion.text_embeddings self !! i) pending)
      (omap (λ i, Giffusion.init_latents self !! i) pending) []
    = if decide (length pending + 1 = b)%nat
      then let? s := getitem (Giffusion.seed_schedule self) i in
           Ok (Some (Giffusion.Batch
                       (concat (omap (λ i, Giffusion.text_embeddings self !! i)
                                     (pending ++ [i])))
                       (concat (omap (λ i, Giffusion.init_latents self !! i)
                                     (pending ++ [i])))
                       [manual_seed s]),
               ([], [], []))
      else Ok (None, (omap (λ i, Giffusion.text_embeddings self !! i) (pending ++ [i]),
                      omap (λ i, Giffusion.init_latents self !! i) (pending ++ [i]),
                      [])).
Proof.
  intros Hb Hlen Hpend ([txt Htxt] & [lat Hlat]).
  assert (length (omap (λ i, Giffusion.text_embeddings self !! i) pending)
          = length pending) as Hplen.
  { apply omap_length_all. eapply Forall_impl; [exact Hpend|]. by intros j [? _]. }
  unfold Giffusion.batch_step, getitem at 1 2. rewrite Htxt, Hlat. simpl.
  unfold BYOP.mod_. rewrite decide_False by lia. simpl.
  rewrite length_app, Hplen. simpl.
  rewrite (omap_snoc _ _ _ txt), (omap_snoc _ _ _ lat) by done.
  destruct (decide (length pending + 1 = b)%nat) as [Hfull|Hnot].
  - rewrite decide_True
      by (rewrite <- Hfull, Nat2Z.inj_add; apply Z.mod_same; lia).
    reflexivity.
  - rewrite decide_False; [|].
    { rewrite ?(omap_snoc _ _ _ txt), ?(omap_snoc _ _ _ lat) by done. reflexivity. }
    intros Hz. apply Z.mod_divide in Hz; [|lia]. destruct Hz as [k Hk].
    assert (0 < k) by nia. assert (k < 2) by nia. nia.
Qed.

Lemma giffusion_batch_loop_app self (b : nat) (pre rest pending : list nat) :
  (0 < b)%nat → (length pending < b)%nat →
  Forall (giffusion_batchable self) (pending ++ pre) →
  Forall (seeded self) (chunks b (pending ++ pre)) →
  let all := pending ++ pre in
  let left := drop (b * (length all / b)) all in
  Giffusion.batch_loop manual_seed self (Z.of_nat b) (pre ++ rest)
      (omap (λ i, Giffusion.text_embeddings self !! i) pending)
      (omap (λ i, Giffusion.init_latents self !! i) pending) []
    = (map (giffusion_batch_of manual_seed self) (chunks b all)
         ++ (Giffusion.batch_loop manual_seed self (Z.of_nat b) rest
               (omap (λ i, Giffusion.text_embeddings self !! i) left)
               (omap (λ i, Giffusion.init_latents self !! i) left) []).1,
       (Giffusion.batch_loop manual_seed self (Z.of_nat b) rest
               (omap (λ i, Giffusion.text_embeddings self !! i) left)
               (omap (λ i, Giffusion.init_latents self !! i) left) []).2).
Proof.
  intros Hb. revert pending.
  induction pre as [|i pre IH]; intros pending Hlen Hall Hseeds; cbv zeta.
  - rewrite !app_nil_r. rewrite chunks_short by done.
    rewrite Nat.div_small by done. rewrite Nat.mul_0_r, drop_0. simpl.
    by destruct (Giffusion.batch_loop _ _ _ _ _ _ _).
  - assert (Forall (giffusion_batchable self) pending ∧ giffusion_batchable self i)
      as [Hpend Hi].
    { apply Forall_app in Hall as [? Hi]. by apply Forall_cons in Hi as [? _]. }
    cbn [app Giffusion.batch_loop].
    rewrite giffusion_batch_step_batchable by done.
    replace (pending ++ i :: pre) with ((pending ++ [i]) ++ pre) in *
      by (by rewrite <- app_assoc).
    destruct (decide (length pending + 1 = b)%nat) as [Hfull|Hnot].
    + assert (length (pending ++ [i]) = b) as Hc by (rewrite length_app; simpl; lia).
      rewrite chunks_full in * by done.
      apply Forall_cons in Hseeds as [(i' & Hlast & [s Hs]) Hseeds].
      rewrite last_snoc in Hlast. injection Hlast as <-.
      unfold getitem. rewrite Hs. cbn [bind].
      specialize (IH [] ltac:(simpl; lia)). cbv zeta in IH.
      rewrite app_nil_l in IH. simpl omap in IH.
      rewrite IH; [|by apply Forall_app in Hall as [_ ?]|done].
      replace (drop (b * (length ((pending ++ [i]) ++ pre) `div` b)) ((pending ++ [i]) ++ pre))
        with (drop (b * (length pre `div` b)) pre).
      2:{ rewrite length_app, Hc.
          replace ((b + length pre) / b)%nat with (S (length pre / b)).
          2:{ replace (b + length pre)%nat with (1 * b + length pre)%nat by lia.
              rewrite Nat.div_add_l by lia. lia. }
          replace (b * S (length pre `div` b))%nat
            with (length (pending ++ [i]) + b * (length pre `div` b))%nat by lia.
          by rewrite drop_app_add. }
      cbn [map app]. f_equal. f_equal.
      unfold giffusion_batch_of. rewrite last_snoc. simpl. by rewrite Hs.
    + rewrite IH; [done| |done|done]. rewrite length_app. simpl. lia.
Qed.

(** X22: The seed is looked up for the frame that closes a group, and for no
    other: when that frame has no seed the generator ends with [KeyError] at
    it, after the groups before it have been yielded. *)
Theorem giffusion_group_needs_seed self (pre rest : list nat) (i : nat) (batch_size : Z) :
  0 < batch_size →
  Forall (giffusion_batchable self) (pre ++ [i]) →
  Forall (seeded self) (chunks (Z.to_nat batch_size) pre) →
  (Z.of_nat (length pre) + 1) `mod` batch_size = 0 →
  Giffusion.seed_schedule self !! i = None →
  Giffusion.batch_generator manual_seed self (pre ++ i :: rest) batch_size
    = (map (giffusion_batch_of manual_seed self) (chunks (Z.to_nat batch_size) pre),
       Some (KeyError i)).
Proof.
  intros Hb Hall Hseeds Hclose Hmiss.
  remember (Z.to_nat batch_size) as b eqn:Eb.
  assert (batch_size = Z.of_nat b) as -> by lia. clear Eb.
  assert (0 < b)%nat as Hb' by lia.
  apply Forall_app in Hall as [Hpre Hi]. apply Forall_cons in Hi as [Hi _].
  pose proof (giffusion_batch_loop_app self b pre (i :: rest) [] Hb' ltac:(simpl; lia)
                Hpre Hseeds) as H.
  cbv zeta in H. simpl omap in H. rewrite app_nil_l in H.
  unfold Giffusion.batch_generator. rewrite H. clear H.
  set (left := drop (b * (length pre / b)) pre).
  assert (length left + 1 = b)%nat as Hleft.
  { unfold left. rewrite length_drop.
    apply Z.mod_divide in Hclose; [|lia]. destruct Hclose as [k Hk].
    pose proof (Nat.div_mod_eq (length pre) b) as Hdm.
    pose proof (Nat.mod_upper_bound (length pre) b ltac:(lia)) as Hub.
    set (q := (length pre / b)%nat) in *. set (r := (length pre mod b)%nat) in *.
    assert (Z.of_nat r + 1 = (k - Z.of_nat q) * Z.of_nat b) as Hr by nia.
    assert (0 < k - Z.of_nat q) by nia. assert (k - Z.of_nat q < 2) by nia.
    nia. }
  cbn [Giffusion.batch_loop].
  rewrite giffusion_batch_step_batchable; [|done|lia| |done].
  2:{ apply Forall_forall. intros j Hj. rewrite Forall_forall in Hpre. apply Hpre.
      exact (subseteq_drop _ _ j Hj). }
  rewrite decide_True by done.
  unfold getitem. rewrite Hmiss. simpl. by rewrite app_nil_r.
Qed.

End GiffusionSeeds.

(** * The driver of [generate.py] *)

Section PathOrder.

Lemma ascii_compare_refl (c : Ascii.ascii) : Ascii.compare c c = Eq.
Proof. apply N.compare_refl. Qed.

Lemma str_compare_lt_trans (s1 s2 s3 : string) :
  String.compare s1 s2 = Lt → String.compare s2 s3 = Lt → String.compare s1 s3 = Lt.
Proof.
  revert s2 s3. induction s1 as [|a s1 IH]; intros [|b s2] [|c s3]; simpl; try done.
  unfold Ascii.compare.
  destruct (N.compare_spec (Ascii.N_of_ascii a) (Ascii.N_of_ascii b)),
           (N.compare_spec (Ascii.N_of_ascii b) (Ascii.N_of_ascii c)),
           (N.compare_spec (Ascii.N_of_ascii a) (Ascii.N_of_ascii c));
    try done; try lia.
  apply IH.
Qed.

Lemma str_compare_refl (s : string) : String.compare s s = Eq.
Proof. induction s as [|a s IH]; simpl; [done|]. by rewrite ascii_compare_refl. Qed.

Lemma str_le_cases (a b : string) :
  Generate.str_le a b ↔ a = b ∨ String.compare a b = Lt.
Proof.
  unfold Generate.str_le, String.leb. split.
  - destruct (String.compare a b) eqn:E; [|by right|done].
    left. by apply String.compare_eq_iff.
  - intros [-> | Hlt]; [by rewrite str_compare_refl|by rewrite Hlt].
Qed.

#[local] Instance str_le_trans : Transitive Generate.str_le.
Proof.
  intros a b c. rewrite !str_le_cases.
  intros [-> | Hab] [-> | Hbc]; auto. right. by apply (str_compare_lt_trans a b c).
Qed.

#[local] Instance str_le_total : Total Generate.str_le.
Proof. intros a b. apply String.leb_total. Qed.

#[local] Instance str_le_antisym : AntiSymm (=) Generate.str_le.
Proof. intros a b. apply String.leb_antisym. Qed.

(** A list that is in order already is left as it is. *)
Lemma sorted_id (l : list string) : Sorted Generate.str_le l → Generate.sorted l = l.
Proof.
  intros Hl. apply (Sorted_unique Generate.str_le); [|done|].
  - apply Sorted_merge_sort, _.
  - apply merge_sort_Permutation.
Qed.

Lemma str_compare_prefix (p a b : string) :
  String.compare (p +:+ a) (p +:+ b) = String.compare a b.
Proof. induction p as [|c p IH]; simpl; [done|]. by rewrite ascii_compare_refl. Qed.

Lemma frame_path_compare (run_path : string) (i j : nat) :
  String.compare (Generate.frame_path run_path i) (Generate.frame_path run_path j)
    = String.compare (Generate.format_04d i +:+ ".png") (Generate.format_04d j +:+ ".png").
Proof.
  unfold Generate.frame_path. rewrite str_compare_prefix.
  apply (str_compare_prefix "/").
Qed.

(** Below 10000 the names of two successive frames are in order. *)
Lemma format_04d_successive (i : nat) :
  Z.of_nat i + 1 < 10000 →
  String.compare (Generate.format_04d i +:+ ".png") (Generate.format_04d (S i) +:+ ".png")
    = Lt.
Proof.
  intros Hi.
  assert (forallb (λ i, bool_decide
            (String.compare (Generate.format_04d i +:+ ".png")
                            (Generate.format_04d (S i) +:+ ".png") = Lt))
            (seq 0 (Z.to_nat 9999)) = true) as Hall by (vm_compute; reflexivity).
  rewrite forallb_forall in Hall.
  specialize (Hall i). rewrite bool_decide_eq_true in Hall. apply Hall.
  apply in_seq. lia.
Qed.

Lemma frame_path_lt (run_path : string) (i j : nat) :
  (i < j)%nat → Z.of_nat j < 10000 →
  String.compare (Generate.frame_path run_path i) (Generate.frame_path run_path j) = Lt.
Proof.
  intros Hij Hj. induction Hij as [|j Hij IH].
  - rewrite frame_path_compare. apply format_04d_successive. lia.
  - apply (str_compare_lt_trans _ (Generate.frame_path run_path j)).
    + apply IH. lia.
    + rewrite frame_path_compare. apply format_04d_successive. lia.
Qed.


Lemma Sorted_map_seq {A} (R : relation A) (f : nat → A) (a n : nat) :
  (∀ i, (a ≤ i)%nat → (S i < a + n)%nat → R (f i) (f (S i))) →
  Sorted R (map f (seq a n)).
Proof.
  revert a. induction n as [|n IH]; intros a Hadj; simpl; [constructor|].
  constructor.
  - apply IH. intros i Hi Hi'. apply Hadj; lia.
  - destruct n as [|n]; simpl; constructor. apply Hadj; lia.
Qed.

(** Up to 10000 frames, the paths of the frames sort into the order of the
    frames. *)
Lemma frame_paths_sort_in_order (run_path : string) (n : nat) :
  Z.of_nat n ≤ 10000 →
  Generate.sorted (map (Generate.frame_path run_path) (seq 0 n))
    = map (Generate.frame_path run_path) (seq 0 n).
Proof.
  intros Hn. apply sorted_id, Sorted_map_seq. intros i _ Hi.
  apply str_le_cases. right. apply frame_path_lt; lia.
Qed.

(** X23: The paths of more than 10000 frames do not sort into the order of the
    frames: the name of frame 10000 has five digits and sorts before the name
    of frame 9999. *)
Theorem frame_paths_sort_out_of_order (run_path : string) (n : nat) :
  10000 < Z.of_nat n →
  Generate.sorted (map (Generate.frame_path run_path) (seq 0 n))
    ≠ map (Generate.frame_path run_path) (seq 0 n).
Proof.
  intros Hn Heq.
  assert (Sorted Generate.str_le (map (Generate.frame_path run_path) (seq 0 n))) as Hs.
  { rewrite <- Heq. apply Sorted_merge_sort, _. }
  apply Sorted_StronglySorted in Hs; [|apply _].
  replace n with (Z.to_nat 9999 + (2 + (n - Z.to_nat 10001)))%nat in Hs by lia.
  rewrite seq_app, map_app in Hs.
  apply StronglySorted_app_1_r in Hs.
  rewrite seq_app, map_app in Hs.
  apply StronglySorted_app_1_l in Hs.
  cbn [seq map] in Hs.
  apply StronglySorted_cons in Hs as [Hle _].
  apply Forall_cons in Hle as [Hle _].
  unfold Generate.str_le, String.leb in Hle.
  rewrite frame_path_compare in Hle.
  vm_compute in Hle. discriminate Hle.
Qed.

End PathOrder.

Section Slices.

Context {A : Type}.

Lemma omap_seq_lookup (f : nat → option A) (l : list A) (a : nat) :
  (∀ k, (k < length l)%nat → f (a + k)%nat = l !! k) →
  omap f (seq a (length l)) = l.
Proof.
  revert a. induction l as [|x l IH]; intros a Hf; [done|].
  pose proof (Hf 0%nat ltac:(simpl; lia)) as H0. rewrite Nat.add_0_r in H0.
  simpl in *. rewrite H0. f_equal. apply IH. intros k Hk.
  replace (S a + k)%nat with (a + S k)%nat by lia.
  rewrite Hf by (simpl; lia). done.
Qed.

(** [l[-1:1:-1]]: the list from its last item back to its third. *)
Lemma slice_down_back (l : list A) :
  Generate.slice_down l (-1) 1 = reverse (drop 2 l).
Proof.
  unfold Generate.slice_down, Generate.slice_bound_down.
  rewrite decide_True by lia. rewrite decide_False by lia.
  destruct (decide (length l < 2)%nat) as [Hshort|Hlong].
  - replace (Z.to_nat _) with 0%nat by lia.
    destruct l as [|x [|y l]]; simpl in *; try done. lia.
  - replace (Z.max (-1 + Z.of_nat (length l)) (-1)) with (Z.of_nat (length l) - 1) by lia.
    replace (Z.min 1 (Z.of_nat (length l) - 1)) with 1 by lia.
    replace (Z.to_nat (Z.of_nat (length l) - 1 - 1)) with (length (reverse (drop 2 l)))
      by (rewrite length_reverse, length_drop; lia).
    apply omap_seq_lookup. intros k Hk.
    rewrite length_reverse, length_drop in Hk.
    rewrite reverse_lookup by (rewrite length_drop; lia).
    rewrite lookup_drop, length_drop. f_equal. lia.
Qed.

End Slices.

Section Animation.

Context {img : Type}.
Implicit Types (files : gmap string img) (frames : list string).

Lemma open_all_ok files (fs : list string) :
  Forall (λ f, is_Some (files !! f)) fs →
  ∃ imgs, Generate.open_all files fs = Ok imgs ∧
          length imgs = length fs ∧
          ∀ i f, fs !! i = Some f → imgs !! i = files !! f.
Proof.
  induction 1 as [|f fs [im Him] _ (imgs & Himgs & Hlen & Hlook)].
  - exists []. by split.
  - exists (im :: imgs). simpl. unfold Generate.image_open. rewrite Him. simpl.
    rewrite Himgs. simpl. split; [done|]. split; [by rewrite Hlen|].
    intros [|i] g Hg; simpl in *; [|by apply Hlook].
    injection Hg as <-. done.
Qed.

Lemma open_all_missing files (fs : list string) (f : string) :
  f ∈ fs → files !! f = None → Generate.open_all files fs = Raise (ExternalError 2).
Proof.
  intros Hin Hf. induction fs as [|g fs IH]; [by apply elem_of_nil in Hin|].
  simpl. unfold Generate.image_open.
  destruct (files !! g) as [im|] eqn:Eg; [|done]. simpl.
  apply elem_of_cons in Hin as [->|Hin]; [congruence|].
  by rewrite IH.
Qed.

(** X24: The animation [save_gif] writes plays the images in the order of their
    sorted paths and then backwards from the last image to the third: the
    last image is shown twice in a row, the second and the first are not
    shown again.  The duration handed to the writer is the number of images
    shown, floor-divided by [fps]; the loop count is 1. *)
Theorem save_gif_plays_back files frames (fps : Z) (imgs : list img) :
  Generate.open_all files (Generate.sorted frames) = Ok imgs →
  imgs ≠ [] → fps ≠ 0 →
  Generate.save_gif files frames fps
    = Ok (Generate.Gif (imgs ++ reverse (drop 2 imgs))
                       (Z.of_nat (length imgs + (length imgs - 2)) `div` fps) 1).
Proof.
  intros Hopen Hne Hfps. unfold Generate.save_gif. rewrite Hopen. simpl.
  rewrite slice_down_back. unfold floordiv. rewrite decide_False by done. simpl.
  destruct imgs as [|x imgs]; [done|]. unfold index. simpl.
  rewrite length_app, length_reverse, length_drop. simpl.
  repeat f_equal; lia.
Qed.

(** X25: What makes [save_gif] fail: a frame file that does not exist; a zero
    [fps], even without any frame; no frame at all. *)
Theorem save_gif_failures files frames (fps : Z) :
  (∀ f, f ∈ frames → files !! f = None →
        Generate.save_gif files frames fps = Raise (ExternalError 2)) ∧
  (Forall (λ f, is_Some (files !! f)) frames → fps = 0 →
   Generate.save_gif files frames fps = Raise ZeroDivisionError) ∧
  (frames = [] → fps ≠ 0 → Generate.save_gif files frames fps = Raise IndexError).
Proof.
  split; [|split].
  - intros f Hin Hf. unfold Generate.save_gif.
    rewrite (open_all_missing files _ f); [done| |done].
    unfold Generate.sorted. by rewrite merge_sort_Permutation.
  - intros Hall ->. unfold Generate.save_gif.
    destruct (open_all_ok files (Generate.sorted frames)) as (imgs & -> & _).
    { unfold Generate.sorted. by rewrite merge_sort_Permutation. }
    done.
  - intros -> Hfps. unfold Generate.save_gif. simpl.
    unfold floordiv. by rewrite decide_False.
Qed.

End Animation.

Section Interpolation.

Context {row gen rng : Type}.
Local Abbreviation tensor := (tensor row).

Variable randn : list Z → gen → tensor * gen.
Variable slerp : float → tensor → tensor → tensor.
Variable prompt_to_embedding : string → tensor.
Variable in_channels : Z.

Lemma generate_fill_step_dom (start : nat) (sl cl se ce : tensor) (l : list Q) (k : nat)
    (acc : gmap nat tensor * gmap nat tensor) :
  let r := foldl (Generate.fill_step slerp start sl cl se ce) acc
                 (zip (seq k (length l)) l) in
  dom r.1 = dom acc.1 ∪ set_seq (k + start) (length l) ∧
  dom r.2 = dom acc.2 ∪ set_seq (k + start) (length l).
Proof.
  revert k acc. induction l as [|x l IH]; intros k [lo to]; simpl.
  - set_solver.
  - destruct (IH (S k) (<[(k + start)%nat := slerp (Fin x) sl cl]> lo,
                    <[(k + start)%nat := slerp (Fin x) se ce]> to)) as [H1 H2].
    simpl in H1, H2. rewrite H1, H2, !dom_insert_L.
    replace (S k + start)%nat with (S (k + start)) by lia.
    set_solver.
Qed.

Lemma interpolation_loop_dom (height width : Z) (kfs : list (nat * string)) (f : nat)
    (start_latent start_text : tensor) (lo to : gmap nat tensor) (w : world row gen rng) :
  ascending_from f kfs →
  let shape := [1; in_channels; height `div` 8; width `div` 8] in
  ∃ lo' to',
    Generate.interpolation_loop randn slerp prompt_to_embedding in_channels
      height width kfs f start_latent start_text lo to w
      = (Ok (lo', to'),
         World (draws (randn shape) (length kfs) (generator w)).2
               (random_state w) (audio_slices w) (pipe_calls w)) ∧
    let covered : gset nat :=
      if kfs is [] then ∅ else set_seq f (last_frame f kfs - f + 1) in
    dom lo' = dom lo ∪ covered ∧ dom to' = dom to ∪ covered.
Proof.
  intros Hasc shape. revert f start_latent start_text lo to w Hasc.
  induction kfs as [|[f' p'] kfs IH]; intros f sl se lo to w Hasc.
  - exists lo, to. split; [by destruct w|]. set_solver.
  - destruct Hasc as [Hlt Hasc].
    cbn [Generate.interpolation_loop].
    unfold bindM at 1. unfold Generate.sample_latent, draw at 1. fold shape.
    cbn [draws length].
    destruct (randn shape (generator w)) as [cl g1].
    destruct (linspace_ok 0 1 (Z.of_nat f' - Z.of_nat f + 1)) as (ts & Hts & Hlen); [lia|].
    unfold bindM at 1. unfold lift at 1. rewrite Hts.
    pose proof (generate_fill_step_dom f sl cl se (prompt_to_embedding p') ts 0 (lo, to))
      as Hfill.
    unfold enumerate.
    destruct (foldl (Generate.fill_step slerp f sl cl se (prompt_to_embedding p')) (lo, to)
                (zip (seq 0 (length ts)) ts)) as [lo1 to1].
    simpl in Hfill. destruct Hfill as [Hlo1 Hto1].
    destruct (IH f' cl (prompt_to_embedding p') lo1 to1
                (World g1 (random_state w) (audio_slices w) (pipe_calls w)) Hasc)
      as (lo' & to' & Hloop & Hlo' & Hto').
    exists lo', to'. split.
    + cbn [fst snd]. rewrite Hloop. cbn [generator random_state audio_slices pipe_calls].
      by destruct (draws (randn shape) (length kfs) g1).
    + rewrite Hlo', Hto', Hlo1, Hto1, Hlen, last_frame_cons. simpl.
      replace (Z.to_nat (Z.of_nat f' - Z.of_nat f + 1)) with (f' - f + 1)%nat by lia.
      destruct kfs as [|kf kfs].
      * unfold last_frame. simpl. set_solver.
      * pose proof (ascending_last_frame f' (kf :: kfs) Hasc).
        rewrite <- !union_assoc_L. rewrite set_seq_join by lia. done.
Qed.

(** X26: [interpolate_latents_and_text_embeddings] draws one latent per keyframe
    from the generator as it finds it, without re-seeding; for at least two
    sorted keyframes both timelines hold exactly the frames from the first
    keyframe to the last. *)
Theorem interpolation_draws_and_covers (height width : Z) (f0 f1 : nat) (p0 p1 : string)
    (kfs : list (nat * string)) (w : world row gen rng) :
  ascending_from f0 ((f1, p1) :: kfs) →
  let key_frames := (f0, p0) :: (f1, p1) :: kfs in
  let shape := [1; in_channels; height `div` 8; width `div` 8] in
  ∃ latents texts,
    Generate.interpolate_latents_and_text_embeddings randn slerp prompt_to_embedding
      in_channels key_frames height width w
      = (Ok (latents, texts),
         World (draws (randn shape) (length key_frames) (generator w)).2
               (random_state w) (audio_slices w) (pipe_calls w)) ∧
    (∀ i, is_Some (latents !! i) ↔ (f0 ≤ i ≤ last_frame f0 ((f1, p1) :: kfs))%nat) ∧
    (∀ i, is_Some (texts !! i) ↔ (f0 ≤ i ≤ last_frame f0 ((f1, p1) :: kfs))%nat).
Proof.
  intros Hasc key_frames shape.
  pose proof (ascending_last_frame f0 _ Hasc) as Hlast.
  unfold key_frames, Generate.interpolate_latents_and_text_embeddings.
  unfold bindM at 1. unfold Generate.sample_latent, draw at 1. fold shape.
  cbn [draws length].
  destruct (randn shape (generator w)) as [sl g1] eqn:E0.
  destruct (interpolation_loop_dom height width ((f1, p1) :: kfs) f0 sl
              (prompt_to_embedding p0) ∅ ∅
              (World g1 (random_state w) (audio_slices w) (pipe_calls w)) Hasc)
    as (lo & to & Hloop & Hlo & Hto).
  fold shape in Hloop. cbn [generator random_state audio_slices pipe_calls length] in Hloop.
  exists lo, to. split.
  - rewrite Hloop. cbn [draws].
    destruct (randn shape g1) as [x r1]. by destruct (draws (randn shape) (length kfs) r1).
  - split; intros i; rewrite <- elem_of_dom.
    + rewrite Hlo, dom_empty_L, union_empty_l_L, elem_of_set_seq. lia.
    + rewrite Hto, dom_empty_L, union_empty_l_L, elem_of_set_seq. lia.
Qed.


End Interpolation.

Section Run.

Context {row gen rng img : Type}.
Local Abbreviation tensor := (tensor row).

Variable manual_seed : Z → gen.
Variable randn : list Z → gen → tensor * gen.
Variable slerp : float → tensor → tensor → tensor.
Variable prompt_to_embedding : string → tensor.
Variable in_channels : Z.
Variable render : tensor → tensor → result img.




End Run.

(** * The values of the timelines *)

Section InterpolatedValues.

Context {row gen rng : Type}.
Local Abbreviation tensor := (tensor row).
Local Abbreviation value := (value row gen).

Lemma enumerate_fold_lookup_shift {A B} (g : B → A) (start : nat) (l : list B) (k : nat)
    (m : gmap nat A) (j : nat) :
  foldl (λ out '(i, t), <[(i + start)%nat := g t]> out) m (zip (seq k (length l)) l) !! j =
    if decide (k + start ≤ j < k + start + length l)%nat
    then g <$> l !! (j - (k + start))%nat
    else m !! j.
Proof.
  revert k m. induction l as [|x l IH]; intros k m; simpl.
  - rewrite decide_False by lia. done.
  - rewrite IH. destruct (decide (S k + start ≤ j < S k + start + length l)%nat) as [H|H].
    + rewrite decide_True by lia.
      replace (j - (k + start))%nat with (S (j - (S k + start))) by lia. done.
    + destruct (decide (j = k + start)%nat) as [->|Hne].
      * rewrite decide_True by lia. rewrite Nat.sub_diag. simpl.
        by rewrite lookup_insert_eq.
      * rewrite decide_False by lia. by rewrite lookup_insert_ne.
Qed.

Lemma fill_lookup {A} (g : float → A) (start : nat) (sched : list float)
    (m : gmap nat A) (j : nat) :
  BYOP.fill g start sched m !! j =
    if decide (start ≤ j < start + length sched)%nat
    then g <$> sched !! (j - start)%nat
    else m !! j.
Proof. unfold BYOP.fill, enumerate. by rewrite enumerate_fold_lookup_shift. Qed.

(** The points of the uniform schedule of a pair of distinct keyframes. *)
Lemma uniform_point (f f' i : nat) (ts : list Q) :
  (f < f')%nat → (f ≤ i ≤ f')%nat →
  linspace 0 1 (Z.of_nat f' - Z.of_nat f + 1) = Ok ts →
  length ts = (f' - f + 1)%nat ∧
  ∃ t, ts !! (i - f)%nat = Some t ∧ (t == fraction f f' i)%Q ∧ (i = f' → t = 1%Q).
Proof.
  intros Hlt Hi Hts. split.
  { destruct (linspace_ok 0 1 (Z.of_nat f' - Z.of_nat f + 1)) as (ts' & Hts' & Hlen); [lia|].
    rewrite Hts in Hts'. apply Ok_inj in Hts' as <-. lia. }
  assert (2 ≤ Z.of_nat f' - Z.of_nat f + 1) as Hnum by lia.
  rewrite (linspace_lookup 0 1 _ ts (i - f) Hnum Hts).
  destruct (decide (i - f < Z.to_nat (Z.of_nat f' - Z.of_nat f + 1) - 1)%nat) as [Hin|Hin].
  - eexists. split; [done|]. split; [|lia].
    unfold fraction.
    replace (Z.of_nat f' - Z.of_nat f + 1 - 1) with (Z.of_nat f' - Z.of_nat f) by lia.
    replace (Z.of_nat (i - f)) with (Z.of_nat i - Z.of_nat f) by lia.
    assert (0 < inject_Z (Z.of_nat f' - Z.of_nat f))%Q as Hpos.
    { assert (0 < Z.of_nat f' - Z.of_nat f) as Hz by lia.
      rewrite (Zlt_Qlt 0) in Hz. exact Hz. }
    field. lra.
  - rewrite decide_True by lia. exists 1%Q. split; [done|]. split; [|done].
    assert (i = f') as -> by lia. unfold fraction.
    assert (0 < inject_Z (Z.of_nat f' - Z.of_nat f))%Q as Hpos.
    { assert (0 < Z.of_nat f' - Z.of_nat f) as Hz by lia.
      rewrite (Zlt_Qlt 0) in Hz. exact Hz. }
    field. lra.
Qed.

Variable manual_seed : Z → gen.
Variable randn : list Z → gen → tensor * gen.
Variable slerp : float → tensor → tensor → tensor.
Variable prompt_to_embedding : string → tensor.
Variable onset_strength : list Q → Z → result (list Q).
Variable normalize : list Q → result (list Q).
Variable self : BYOP.BYOPFlow row gen.

Hypothesis uniform : BYOP.audio self = None.

Lemma prompt_embeddings_loop_values (kfs : list (nat * string)) (f : nat) (p : string)
    (out : gmap nat value) (w : world row gen rng) :
  ascending_from f kfs →
  ∃ m,
    BYOP.prompt_embeddings_loop slerp prompt_to_embedding onset_strength normalize self
      (zip ((f, p) :: kfs) kfs) out w = (Ok m, w) ∧
    (∀ i, (i < f)%nat → m !! i = out !! i) ∧
    (∀ k fk pk fk' pk' i,
       ((f, p) :: kfs) !! k = Some (fk, pk) → kfs !! k = Some (fk', pk') →
       (fk ≤ i < fk')%nat →
       ∃ t, (t == fraction fk fk' i)%Q ∧
            m !! i = Some (VTensor (slerp (Fin t) (prompt_to_embedding pk)
                                          (prompt_to_embedding pk')))) ∧
    (∀ fk pk fl pl,
       ((f, p) :: kfs) !! (length kfs - 1)%nat = Some (fk, pk) →
       last kfs = Some (fl, pl) →
       m !! fl = Some (VTensor (slerp (Fin 1) (prompt_to_embedding pk)
                                      (prompt_to_embedding pl)))).
Proof.
  revert f p out w.
  induction kfs as [|[f' p'] kfs IH]; intros f p out w Hasc.
  - exists out. split; [done|]. split; [done|]. split; [|done].
    intros k fk pk fk' pk' i _ Hk. done.
  - destruct Hasc as [Hlt Hasc].
    cbn [zip zip_with BYOP.prompt_embeddings_loop].
    destruct (uniform_schedule onset_strength normalize f f' (BYOP.fps self) w)
      as (ts & Hrun & Hts); [lia|].
    unfold bindM at 1. rewrite uniform, Hrun.
    set (g := λ t, VTensor (slerp t (prompt_to_embedding p) (prompt_to_embedding p'))).
    set (out1 := BYOP.fill g f (map Fin ts) out).
    destruct (IH f' p' out1 w Hasc) as (m & Hloop & Hbefore & Hseg & Hlast).
    exists m. split; [exact Hloop|].
    assert (∀ i, (f ≤ i ≤ f')%nat →
              ∃ t, (t == fraction f f' i)%Q ∧ (i = f' → t = 1%Q) ∧
                   out1 !! i = Some (g (Fin t))) as Hout1.
    { intros i Hi.
      destruct (uniform_point f f' i ts Hlt Hi Hts) as (Hlen & t & Ht & Hfrac & Hend).
      exists t. split; [done|]. split; [done|].
      unfold out1. rewrite fill_lookup, length_map, Hlen.
      rewrite decide_True by lia. by rewrite list_lookup_fmap, Ht. }
    split; [|split].
    + intros i Hi. rewrite Hbefore by lia.
      unfold out1. rewrite fill_lookup. by rewrite decide_False by lia.
    + intros [|k] fk pk fk' pk' i Hk Hk' Hi.
      * injection Hk as <- <-. injection Hk' as <- <-.
        destruct (Hout1 i ltac:(lia)) as (t & Hfrac & _ & Ht).
        exists t. split; [done|]. rewrite Hbefore by lia. exact Ht.
      * apply (Hseg k fk pk fk' pk' i); done.
    + intros fk pk fl pl Hk Hl. destruct kfs as [|kf kfs].
      * injection Hk as <- <-. injection Hl as <- <-.
        destruct (Hout1 f' ltac:(lia)) as (t & _ & Hend & Ht).
        rewrite (Hend eq_refl) in Ht.
        simpl in Hloop. injection Hloop as <-. exact Ht.
      * apply (Hlast fk pk fl pl).
        -- simpl in Hk |- *.
           replace (length kfs - 0)%nat with (length kfs) by lia. exact Hk.
        -- by rewrite last_cons_cons in Hl.
Qed.

(** X29: The prompt embedding of a frame between two successive keyframes is
    the interpolation of their two embeddings at the fraction of the way the
    frame is; a keyframe other than the last carries the value of the segment
    that starts at it (fraction 0), the last keyframe that of the segment
    that ends at it, at exactly 1. *)
Theorem prompt_embeddings_interpolate (f0 : nat) (p0 : string)
    (kfs : list (nat * string)) (w : world row gen rng) :
  ascending_from f0 kfs →
  let key_frames := (f0, p0) :: kfs in
  ∃ timeline,
    BYOP.get_prompt_embeddings slerp prompt_to_embedding onset_strength normalize self
      key_frames w = (Ok timeline, w) ∧
    (∀ k fk pk fk' pk' i,
       key_frames !! k = Some (fk, pk) → key_frames !! S k = Some (fk', pk') →
       (fk ≤ i < fk')%nat →
       ∃ t, (t == fraction fk fk' i)%Q ∧
            timeline !! i = Some (VTensor (slerp (Fin t) (prompt_to_embedding pk)
                                                 (prompt_to_embedding pk')))) ∧
    (∀ fk pk fl pl,
       key_frames !! (length kfs - 1)%nat = Some (fk, pk) →
       last kfs = Some (fl, pl) →
       timeline !! fl = Some (VTensor (slerp (Fin 1) (prompt_to_embedding pk)
                                             (prompt_to_embedding pl)))).
Proof.
  intros Hasc key_frames.
  destruct (prompt_embeddings_loop_values kfs f0 p0 ∅ w Hasc)
    as (m & Hloop & _ & Hseg & Hlast).
  exists m. split; [exact Hloop|]. split; [exact Hseg|exact Hlast].
Qed.

Hypothesis scale : BYOP.vae_scale_factor self ≠ 0.
Hypothesis fresh : BYOP.use_fixed_latent self = false.




End InterpolatedValues.

(** * The properties on concrete flows *)

Ltac is_batchable :=
  split; [by eexists|split; [eexists; split; [reflexivity|discriminate || by eexists]|]];
  intros frames Hframes; vm_compute in Hframes; discriminate.

Ltac all_batchable :=
  repeat (apply Forall_cons; split; [is_batchable|]); apply Forall_nil_2.

Lemma overrides_take_precedence_witness :
  let self := Stub.byop {[ "prompt"; "latents" ]} false {[ "latents" := VInt 7 ]} 1 in
  ∃ kwargs w',
    BYOP.prepare_inputs Stub.manual_seed self Stub.batch0 Stub.w0 = (Ok kwargs, w') ∧
    kwargs !! "latents" = Some (VInt 7).
Proof.
  intros self.
  apply (overrides_take_precedence Stub.manual_seed self Stub.batch0 Stub.w0
           "latents" (VInt 7)).
  reflexivity.
Defined.

Lemma prompt_keys_are_exclusive_witness :
  let self := Stub.byop {[ "prompt"; "prompt_embeds"; "latents" ]} true ∅ 1 in
  ∃ kwargs w',
    BYOP.prepare_inputs Stub.manual_seed self Stub.batch0 Stub.w0 = (Ok kwargs, w') ∧
    ¬ (is_Some (kwargs !! "prompt_embeds") ∧ is_Some (kwargs !! "prompt")) ∧
    (is_Some (kwargs !! "prompt_embeds") → BYOP.use_prompt_embeds self = true) ∧
    (is_Some (kwargs !! "prompt") → BYOP.use_prompt_embeds self = false).
Proof.
  intros self.
  apply (prompt_keys_are_exclusive Stub.manual_seed self Stub.batch0 Stub.w0);
    reflexivity.
Defined.

(** Frames 0 and 1 in one batch of two, then the frame 7 that the six-frame
    flow does not have. *)
Lemma batch_generator_missing_frame_witness :
  let self := Stub.byop_ab in
  BYOP.batch_generator self ([0; 1] ++ 7 :: [2])%nat 2
    = (map (batch_of self) (chunks (Z.to_nat 2) [0; 1]%nat), Some (KeyError 7)).
Proof.
  intros self.
  apply (batch_generator_missing_frame self [0; 1]%nat [2]%nat 7%nat 2).
  - lia.
  - all_batchable.
  - left. reflexivity.
Defined.

Lemma batch_generator_zero_size_witness :
  BYOP.batch_generator Stub.byop_ab [0; 1]%nat 0 = ([], Some ZeroDivisionError).
Proof.
  apply (batch_generator_zero_size Stub.byop_ab 0%nat [1]%nat).
  is_batchable.
Defined.

(** The ten-frame flow with keyframes 0, 3, 7 and 9, in batches of four: the
    second batch is closed by frame 7. *)
Lemma giffusion_one_generator_per_batch_witness :
  let self := Stub.giffusion_ten in
  ∃ b,
    (Giffusion.batch_generator Stub.manual_seed self (range 10) 4).1 !! 1%nat = Some b ∧
    ∃ i s,
      range 10 !! ((1 + 1) * Z.to_nat (Z.abs 4) - 1)%nat = Some i ∧
      Giffusion.seed_schedule self !! i = Some s ∧
      Giffusion.batch_generators b = [Stub.manual_seed s].
Proof.
  intros self. eexists. split; [reflexivity|].
  apply (giffusion_one_generator_per_batch Stub.manual_seed self (range 10) 4 1).
  reflexivity.
Defined.

Lemma byop_prompt_embeddings_cover_witness :
  let self := Stub.byop {[ "prompt_embeds"; "latents" ]} true ∅ 1 in
  ∃ timeline,
    BYOP.get_prompt_embeddings Stub.slerp Stub.prompt_to_embedding Stub.onset_strength
      Stub.normalize self [(0%nat, "A"); (5%nat, "B")] Stub.w0 = (Ok timeline, Stub.w0) ∧
    dom timeline = set_seq 0 (6 - 0) ∧
    (∀ i, (0 ≤ i < 6)%nat → ∃ t, timeline !! i = Some (VTensor t)).
Proof.
  intros self.
  apply (byop_prompt_embeddings_cover Stub.slerp Stub.prompt_to_embedding
           Stub.onset_strength Stub.normalize self eq_refl 0 5 "A" "B" [] 6 Stub.w0).
  - simpl. lia.
  - reflexivity.
Defined.




Lemma byop_seed_schedule_complete_witness :
  ∃ seeds : list Z,
    (BYOP.make_seed_schedule Stub.random_seed Stub.random_randint 42 6 Stub.w0).1
      = Ok seeds ∧
    length seeds = 6%nat ∧
    ∀ frame_idx, (frame_idx < 6)%nat →
      ∃ s, seeds !! frame_idx = Some s ∧ 0 ≤ s ≤ 18446744073709551615.
Proof.
  apply (byop_seed_schedule_complete Stub.random_seed Stub.random_randint 42 6 Stub.w0).
  intros a b r Hab. unfold Stub.random_randint. cbn [fst].
  pose proof (Z.mod_pos_bound
                ((r * 6364136223846793005 + 1442695040888963407)
                   `mod` 18446744073709551616) (b - a + 1)).
  lia.
Defined.

(** The frame before the first keyframe of [2: A, 5: B]. *)
Lemma forward_fill_before_first_witness :
  BYOP.get_prompts Stub.byop_ab [(2%nat, "A"); (5%nat, "B")] !! 1%nat
    = Some (VNaN : value Z Z).
Proof.
  apply (forward_fill_before_first Stub.byop_ab [(2%nat, "A"); (5%nat, "B")] 1).
  - simpl. lia.
  - intros f p Hin.
    repeat (apply elem_of_cons in Hin as [Hin|Hin]; [injection Hin as -> ->; lia|]).
    by apply elem_of_nil in Hin.
Defined.

Lemma init_rejects_before_seeding_witness :
  let self := Stub.byop {[ "prompt"; "latents" ]} false ∅ 1 in
  BYOP.init Stub.random_seed Stub.random_randint Stub.manual_seed Stub.randn Stub.slerp
    Stub.prompt_to_embedding Stub.onset_strength Stub.normalize self [] Stub.w0
    = (Raise ValueError, Stub.w0).
Proof.
  intros self.
  apply (init_rejects_before_seeding Stub.random_seed Stub.random_randint
           Stub.manual_seed Stub.randn Stub.slerp Stub.prompt_to_embedding
           Stub.onset_strength Stub.normalize self [] Stub.w0).
  right. reflexivity.
Defined.

Lemma init_builds_flow_witness :
  let self := Stub.byop {[ "prompt"; "latents" ]} false ∅ 1 in
  let n := S (last_frame 0 [(5%nat, "B")]) in
  ∃ flow w',
    BYOP.init Stub.random_seed Stub.random_randint Stub.manual_seed Stub.randn Stub.slerp
      Stub.prompt_to_embedding Stub.onset_strength Stub.normalize self
      [(0%nat, "A"); (5%nat, "B")] Stub.w0 = (Ok flow, w') ∧
    flow = BYOP.with_timelines
             (BYOP.with_schedule
                (BYOP.with_frames self None (BYOP.height self) (BYOP.width self)) n
                (draws (Stub.random_randint 0 18446744073709551615) n
                       (Stub.random_seed (BYOP.seed self))).1)
             (BYOP.init_latents flow) (BYOP.prompts flow) ∧
    BYOP.frames flow = None ∧
    BYOP.height flow = BYOP.height self ∧ BYOP.width flow = BYOP.width self ∧
    length (BYOP.seed_schedule flow) = n ∧
    (∀ i, is_Some (BYOP.init_latents flow !! i) ↔ (0 ≤ i < n)%nat) ∧
    (∀ i, (0 ≤ i < n)%nat →
          ∃ p, BYOP.prompts flow !! i = Some p ∧
               (BYOP.use_prompt_embeds self = true → is_Some (as_tensor p))).
Proof.
  intros self.
  apply (init_builds_flow Stub.random_seed Stub.random_randint Stub.manual_seed
           Stub.randn Stub.slerp Stub.prompt_to_embedding Stub.onset_strength
           Stub.normalize self 0 5 "A" "B" [] Stub.w0).
  - reflexivity.
  - reflexivity.
  - simpl. lia.
  - reflexivity.
  - simpl. lia.
  - simpl. lia.
Defined.

Lemma create_follows_batcher_witness :
  let self := Stub.byop_ab in
  let yielded :=
    BYOP.batch_generator self (BYOP.frames_or_all self (Some [0; 1; 9]%nat))
                         (BYOP.batch_size self) in
  ∃ images w',
    BYOP.create Stub.manual_seed Stub.pipe self (Some [0; 1; 9]%nat) Stub.w0
      = (match yielded.2 with Some e => Raise e | None => Ok images end, w') ∧
    length images = length yielded.1 ∧
    length (pipe_calls w') = (length (pipe_calls Stub.w0) + length yielded.1)%nat.
Proof.
  intros self.
  apply (create_follows_batcher Stub.manual_seed Stub.pipe self (Some [0; 1; 9]%nat)
           Stub.w0).
  intros kwargs g. by eexists _, _.
Defined.

Lemma create_stops_at_model_failure_witness :
  let pipe := λ (_ : gmap string (value Z Z)) (g : Z),
                (Raise (ExternalError 1) : result (tensor Z), g) in
  ∃ w',
    BYOP.create Stub.manual_seed pipe Stub.byop_ab None Stub.w0
      = (Raise (ExternalError 1), w') ∧
    length (pipe_calls w') = S (length (pipe_calls Stub.w0)).
Proof.
  intros pipe.
  eapply (create_stops_at_model_failure Stub.manual_seed pipe Stub.byop_ab None Stub.w0
            (ExternalError 1)).
  - intros kwargs g. by eexists.
  - vm_compute. reflexivity.
Defined.

Lemma create_default_run_witness :
  let self := Stub.byop_ab in
  ∃ images w',
    BYOP.create Stub.manual_seed Stub.pipe self None Stub.w0 = (Ok images, w') ∧
    Z.of_nat (length images) = Z.of_nat (BYOP.max_frames self) `div` BYOP.batch_size self ∧
    length (pipe_calls w') = (length (pipe_calls Stub.w0) + length images)%nat.
Proof.
  intros self.
  apply (create_default_run Stub.manual_seed Stub.pipe self Stub.w0).
  - reflexivity.
  - intros i Hi. change (BYOP.max_frames self) with 6%nat in Hi.
    do 6 (destruct i as [|i]; [is_batchable|]). lia.
  - intros kwargs g. by eexists _, _.
Defined.

(** The flow of the single keyframe [2: A]: three frames, empty timelines. *)
Lemma create_without_frame_zero_witness :
  let self := Stub.byop_flow (Stub.byop {[ "prompt"; "latents" ]} false ∅ 1)
                             [(2%nat, "A")] in
  BYOP.create Stub.manual_seed Stub.pipe self None Stub.w0
    = (Raise (KeyError 0), Stub.w0).
Proof.
  intros self.
  apply (create_without_frame_zero Stub.manual_seed Stub.pipe self Stub.w0).
  - vm_compute. lia.
  - vm_compute. reflexivity.
Defined.


(** The ten-frame flow with keyframes 0, 3, 7 and 9, in batches of three: the
    first batch closes at frame 2, which is no keyframe. *)
Lemma giffusion_group_needs_seed_witness :
  let self := Stub.giffusion_ten in
  Giffusion.batch_generator Stub.manual_seed self ([0; 1] ++ 2 :: [3; 4; 5])%nat 3
    = (map (giffusion_batch_of Stub.manual_seed self) (chunks (Z.to_nat 3) [0; 1]%nat),
       Some (KeyError 2)).
Proof.
  intros self.
  apply (giffusion_group_needs_seed Stub.manual_seed self [0; 1]%nat [3; 4; 5]%nat 2%nat 3).
  - lia.
  - repeat (apply Forall_cons; split; [split; by eexists|]). apply Forall_nil_2.
  - apply Forall_nil_2.
  - reflexivity.
  - reflexivity.
Defined.

Lemma frame_paths_sort_out_of_order_witness :
  Generate.sorted (map (Generate.frame_path "out") (seq 0 (Z.to_nat 10001)))
    ≠ map (Generate.frame_path "out") (seq 0 (Z.to_nat 10001)).
Proof.
  apply (frame_paths_sort_out_of_order "out" (Z.to_nat 10001)). lia.
Defined.

(** Three files given out of order, at two frames per second. *)
Lemma save_gif_plays_back_witness :
  let files : gmap string Z := {[ "b.png" := 2; "a.png" := 1; "c.png" := 3 ]} in
  Generate.save_gif files ["b.png"; "a.png"; "c.png"] 2
    = Ok (Generate.Gif ([1; 2; 3] ++ reverse (drop 2 [1; 2; 3]))
                       (Z.of_nat (length [1; 2; 3] + (length [1; 2; 3] - 2)) `div` 2) 1).
Proof.
  intros files.
  apply (save_gif_plays_back files ["b.png"; "a.png"; "c.png"] 2 [1; 2; 3]).
  - vm_compute. reflexivity.
  - discriminate.
  - lia.
Defined.

Lemma save_gif_failures_witness :
  let files : gmap string Z := {[ "a.png" := 1 ]} in
  Generate.save_gif files ["a.png"; "b.png"] 2 = Raise (ExternalError 2) ∧
  Generate.save_gif files ["a.png"] 0 = Raise ZeroDivisionError ∧
  Generate.save_gif files [] 2 = Raise IndexError.
Proof.
  intros files. refine (conj _ (conj _ _)).
  - apply (proj1 (save_gif_failures files ["a.png"; "b.png"] 2) "b.png").
    + set_solver.
    + reflexivity.
  - apply (proj1 (proj2 (save_gif_failures files ["a.png"] 0))).
    + apply Forall_cons. split; [by eexists|apply Forall_nil_2].
    + reflexivity.
  - apply (proj2 (proj2 (save_gif_failures files [] 2))).
    + reflexivity.
    + lia.
Defined.

Lemma interpolation_draws_and_covers_witness :
  let key_frames := [(0%nat, "A"); (2%nat, "B"); (5%nat, "C")] in
  let shape := [1; 4; 512 `div` 8; 512 `div` 8] in
  ∃ latents texts,
    Generate.interpolate_latents_and_text_embeddings Stub.randn Stub.slerp
      Stub.prompt_to_embedding 4 key_frames 512 512 Stub.w0
      = (Ok (latents, texts),
         World (draws (Stub.randn shape) (length key_frames) (generator Stub.w0)).2
               (random_state Stub.w0) (audio_slices Stub.w0) (pipe_calls Stub.w0)) ∧
    (∀ i, is_Some (latents !! i)
          ↔ (0 ≤ i ≤ last_frame 0 [(2%nat, "B"); (5%nat, "C")])%nat) ∧
    (∀ i, is_Some (texts !! i)
          ↔ (0 ≤ i ≤ last_frame 0 [(2%nat, "B"); (5%nat, "C")])%nat).
Proof.
  apply (interpolation_draws_and_covers Stub.randn Stub.slerp Stub.prompt_to_embedding 4
           512 512 0 2 "A" "B" [(5%nat, "C")] Stub.w0).
  simpl. lia.
Defined.



Lemma prompt_embeddings_interpolate_witness :
  let self := Stub.byop {[ "prompt_embeds"; "latents" ]} true ∅ 1 in
  let key_frames := [(0%nat, "A"); (2%nat, "BB"); (5%nat, "C")] in
  ∃ timeline,
    BYOP.get_prompt_embeddings Stub.slerp Stub.prompt_to_embedding Stub.onset_strength
      Stub.normalize self key_frames Stub.w0 = (Ok timeline, Stub.w0) ∧
    (∀ k fk pk fk' pk' i,
       key_frames !! k = Some (fk, pk) → key_frames !! S k = Some (fk', pk') →
       (fk ≤ i < fk')%nat →
       ∃ t, (t == fraction fk fk' i)%Q ∧
            timeline !! i
              = Some (VTensor (Stub.slerp (Fin t) (Stub.prompt_to_embedding pk)
                                          (Stub.prompt_to_embedding pk')))) ∧
    (∀ fk pk fl pl,
       key_frames !! (length [(2%nat, "BB"); (5%nat, "C")] - 1)%nat = Some (fk, pk) →
       last [(2%nat, "BB"); (5%nat, "C")] = Some (fl, pl) →
       timeline !! fl
         = Some (VTensor (Stub.slerp (Fin 1) (Stub.prompt_to_embedding pk)
                                     (Stub.prompt_to_embedding pl)))).
Proof.
  intros self.
  apply (prompt_embeddings_interpolate Stub.slerp Stub.prompt_to_embedding
           Stub.onset_strength Stub.normalize self eq_refl
           0 "A" [(2%nat, "BB"); (5%nat, "C")] Stub.w0).
  simpl. lia.
Defined.

